(** * Citation Network Analysis Engine (aricca_x.citation_graph_analyzer)

    A shallow embedding of the four components of the package
    [aricca_x/citation_graph_analyzer]:

    - [citation_extractor.py]      -> [Module CitationExtractor]
    - [graph_builder.py]           -> [Module GraphBuilder]
    - [pattern_detector.py]        -> [Module PatternDetector]
    - [citation_graph_analyzer.py] -> [Module CitationGraphAnalyzer]

    Conventions of the embedding.

    - A Python [str] is a [list ascii] (abbreviated [str]); the model is
      restricted to ASCII text: [lower] touches [A-Z] only, [\d] is [0-9],
      and white space is what [str.isspace] accepts below code point 128.
    - The regular expressions are terms of [Re.regex], run by a
      backtracking matcher with a greedy star, as [re] runs them.
    - A Python [float] is an exact rational ([Q]).  Every float of the
      package is a ratio of two counts, a decimal constant, or a
      [min]/sum/product of such, and is only compared with decimal
      constants; rounding could change a comparison only for counts far
      beyond the size of a reference list.
    - A reference id is a decimal numeral; the numbers of a range marker
      are natural numbers.  [int] raises [ValueError] on a numeral of more
      than 4300 digits, the default limit of the interpreter; [str] is
      only applied to numbers below that limit.  Memory is not bounded:
      a range marker yields its ids however many they are.
    - A reference is a record of optional fields: [None] is an absent key
      of the [dict].
    - A Python [set] of strings is a [gset str]; the order in which a
      [for] loop visits a set is not fixed by the language, so it is an
      interface ([SetOrder]) that every function iterating over a set takes.
    - A Python [dict] that is iterated ([context_citations], [venue_refs],
      [citation_counts], [temporal_distribution]) is an association list in
      insertion order; a [dict] that is only looked up ([node_attributes],
      [edge_attributes]) is a [gmap].
    - An exception is a value [Raise e] of the type [outcome]; code that
      cannot raise is a plain function.
    - The recursion of [_find_ring_size] and the loop of
      [_explore_cluster] are not structural: they take fuel, the callers
      give enough of it ([find_ring_size_defined],
      [explore_cluster_defined]), and the interpreter's recursion limit is
      not modelled.
    - [datetime.now()] reads a clock: a function from the number of earlier
      readings to the instant read.
    - f-strings are kept as the template and its arguments. *)

From Stdlib Require Import QArith Qminmax Lqa.
From Stdlib Require Import Ascii String DecimalString DecimalNat.
From Stdlib Require Import Sorting.Sorted.
From stdpp Require Import base gmap sets list strings.

Local Open Scope nat_scope.

Abbreviation str := (list ascii).

(** A string literal of the source, as a [str]. *)
Definition lit (s : string) : str := list_ascii_of_string s.

(** ** Exceptions *)

Inductive exn : Type :=
| IndexError
| ValueError
| TypeError.

Inductive outcome (A : Type) : Type :=
| Ok (a : A)
| Raise (e : exn).
Arguments Ok {A} a.
Arguments Raise {A} e.

#[global] Instance outcome_ret : MRet outcome := λ A a, Ok a.
#[global] Instance outcome_bind : MBind outcome := λ A B f m,
  match m with
  | Ok a => f a
  | Raise e => Raise e
  end.
#[global] Instance outcome_fmap : FMap outcome := λ A B f m,
  match m with
  | Ok a => Ok (f a)
  | Raise e => Raise e
  end.

(** ** Python string methods *)

Module PyStr.

Definition code (c : ascii) : nat := nat_of_ascii c.

(** [str.isspace] on one ASCII character: TAB, LF, VT, FF, CR, the four
    separators FS, GS, RS, US, and the space. *)
Definition isspace (c : ascii) : bool :=
  let n := code c in
  ((9 <=? n) && (n <=? 13)) || ((28 <=? n) && (n <=? 32)).

(** One decimal digit, [0-9]. *)
Definition isdigit_char (c : ascii) : bool :=
  let n := code c in (48 <=? n) && (n <=? 57).

Definition isupper_char (c : ascii) : bool :=
  let n := code c in (65 <=? n) && (n <=? 90).

Definition islower_char (c : ascii) : bool :=
  let n := code c in (97 <=? n) && (n <=? 122).

Definition lower_char (c : ascii) : ascii :=
  if isupper_char c then ascii_of_nat (code c + 32) else c.

(** [s.lower()] *)
Definition lower (s : str) : str := map lower_char s.

(** [s.isdigit()]: non-empty and digits only. *)
Definition isdigit (s : str) : bool :=
  match s with
  | [] => false
  | _ => forallb isdigit_char s
  end.

(** [s.lstrip()], [s.rstrip()] and [s.strip()] *)
Fixpoint lstrip (s : str) : str :=
  match s with
  | c :: s' => if isspace c then lstrip s' else s
  | [] => []
  end.

Definition rstrip (s : str) : str := rev (lstrip (rev s)).

Definition strip (s : str) : str := rstrip (lstrip s).

(** [s.split(sep)] for a one-character separator: [cur] is the piece
    being read.  The result is never empty. *)
Fixpoint split_on_go (sep : ascii) (cur : str) (s : str) : list str :=
  match s with
  | [] => [rev cur]
  | c :: s' =>
      if decide (c = sep) then rev cur :: split_on_go sep [] s'
      else split_on_go sep (c :: cur) s'
  end.

Definition split_on (sep : ascii) (s : str) : list str :=
  split_on_go sep [] s.

(** [s.split()]: the maximal runs of characters that are not white
    space. *)
Fixpoint split_ws_go (cur : str) (s : str) : list str :=
  match s with
  | [] => match cur with [] => [] | _ => [rev cur] end
  | c :: s' =>
      if isspace c
      then match cur with
           | [] => split_ws_go [] s'
           | _ => rev cur :: split_ws_go [] s'
           end
      else split_ws_go (c :: cur) s'
  end.

Definition split_ws (s : str) : list str := split_ws_go [] s.

(** [s.replace(c, '')] for a one-character [c]. *)
Definition remove_char (c : ascii) (s : str) : str :=
  filter (λ x, x ≠ c) s.

(** [c in s] for a one-character [c]. *)
Definition contains_char (c : ascii) (s : str) : bool :=
  bool_decide (c ∈ s).

(** [sub in s]: [sub] is a prefix of some suffix of [s]. *)
Fixpoint is_prefix (sub s : str) : bool :=
  match sub, s with
  | [], _ => true
  | a :: sub', b :: s' => bool_decide (a = b) && is_prefix sub' s'
  | _ :: _, [] => false
  end.

Fixpoint contains (sub s : str) : bool :=
  is_prefix sub s ||
  match s with
  | [] => false
  | _ :: s' => contains sub s'
  end.

(** [sep.join(l)] *)
Fixpoint join (sep : str) (l : list str) : str :=
  match l with
  | [] => []
  | [x] => x
  | x :: l' => x ++ sep ++ join sep l'
  end.

(** [sys.get_int_max_str_digits()]: the longest numeral that [int]
    converts, 4300 digits unless the interpreter is told otherwise. *)
Definition MAX_STR_DIGITS : nat := 4300.

Definition digit_value (c : ascii) : nat := code c - 48.

(** The number that a string of decimal digits denotes. *)
Definition int_value (s : str) : nat :=
  fold_left (λ acc c, 10 * acc + digit_value c) s 0.

(** [int(s)] on the strings it is applied to here: decimal digits.  The
    empty string, any other character and a numeral of more than
    [MAX_STR_DIGITS] digits, leading zeros counted, raise [ValueError]. *)
Definition int (s : str) : outcome nat :=
  if isdigit s
  then if length s <=? MAX_STR_DIGITS then Ok (int_value s)
       else Raise ValueError
  else Raise ValueError.

(** [str(n)] for a natural number: decimal, no leading zero. *)
Definition str_of_nat (n : nat) : str :=
  list_ascii_of_string (NilZero.string_of_uint (Nat.to_uint n)).

End PyStr.

(** ** Python regular expressions (the fragment the package uses) *)

Module Re.

(** The syntax: a character class, concatenation, the greedy star, and
    the (only) capture group.  [r+] is [r r*] and [r{4}] is [r r r r]. *)
Inductive regex : Type :=
| Chr (p : ascii → bool)
| Eps
| Seq (r1 r2 : regex)
| Star (r : regex)
| Group (r : regex).

Definition Lit (c : ascii) : regex := Chr (λ x, bool_decide (x = c)).
Definition Plus (r : regex) : regex := Seq r (Star r).

Fixpoint Seqs (rs : list regex) : regex :=
  match rs with
  | [] => Eps
  | [r] => r
  | r :: rs' => Seq r (Seqs rs')
  end.

(** The literal word [w]. *)
Definition Word (w : string) : regex := Seqs (map Lit (lit w)).

(** The greedy star over a matcher [body]: at most [n] more iterations;
    an iteration has to consume input, as in [sre]. *)
Fixpoint star_loop {A : Type}
    (body : str → option str → (str → option str → option A) → option A)
    (k : str → option str → option A) (n : nat) (s : str) (g : option str)
    : option A :=
  match n with
  | 0 => k s g
  | S n' =>
      match body s g (λ s' g', if decide (length s' < length s)
                               then star_loop body k n' s' g' else None) with
      | Some x => Some x
      | None => k s g
      end
  end.

(** A backtracking matcher in continuation-passing style: [exec r s g k]
    matches a prefix of [s] against [r] and hands the rest of the input,
    with the text of group 1, to [k]; when [k] fails, the next shorter
    alternative is tried. *)
Fixpoint exec {A : Type} (r : regex) (s : str) (g : option str)
    (k : str → option str → option A) : option A :=
  match r with
  | Chr p =>
      match s with
      | c :: s' => if p c then k s' g else None
      | [] => None
      end
  | Eps => k s g
  | Seq r1 r2 => exec r1 s g (λ s' g', exec r2 s' g' k)
  | Group r1 =>
      exec r1 s g (λ s' _, k s' (Some (take (length s - length s') s)))
  | Star r1 => star_loop (exec r1) k (length s) s g
  end.

(** A match object: [m.start()], [m.end()] and [m.group(1)]. *)
Record match_obj : Type := MatchObj {
  m_start : nat;
  m_end : nat;
  m_group1 : option str
}.

(** [pattern.match(s)] at the position [pos] where [s] starts. *)
Definition match_at (r : regex) (pos : nat) (s : str) : option match_obj :=
  exec r s None
    (λ s' g, Some (MatchObj pos (pos + (length s - length s')) g)).

(** [pattern.finditer(s)]: the leftmost match, then the leftmost match
    after its end, and so on.  [skip] counts the characters of the last
    match that are still to be passed over. *)
Fixpoint scan (r : regex) (pos skip : nat) (s : str) : list match_obj :=
  match s with
  | [] =>
      match skip with
      | 0 => match match_at r pos [] with Some m => [m] | None => [] end
      | S _ => []
      end
  | _ :: s' =>
      match skip with
      | S k => scan r (S pos) k s'
      | 0 =>
          match match_at r pos s with
          | Some m => m :: scan r (S pos) (m_end m - pos - 1) s'
          | None => scan r (S pos) 0 s'
          end
      end
  end.

Definition finditer (r : regex) (s : str) : list match_obj := scan r 0 0 s.

(** [re.split(pattern, s)] for a pattern without capture group: the
    pieces of [s] between the matches. *)
Fixpoint pieces (ms : list match_obj) (from : nat) (s : str) : list str :=
  match ms with
  | [] => [drop from s]
  | m :: ms' => take (m_start m - from) (drop from s) :: pieces ms' (m_end m) s
  end.

Definition split (r : regex) (s : str) : list str :=
  pieces (finditer r s) 0 s.

End Re.

(** ** The data model *)

(** A reference record: a [dict] whose keys are all optional; [None] is an
    absent key. *)
Record Reference : Type := mkReference {
  ref_authors : option (list str);
  ref_title : option str;
  ref_year : option Z;
  ref_venue : option str
}.

(** ** citation_extractor.py *)

Module CitationExtractor.
Import PyStr Re.

Inductive citation_type : Type :=
| Support
| Contrast
| Methodology.

Record ExtractedCitation : Type := mkExtractedCitation {
  reference_id : str;
  position : nat;
  context : str;
  sentence : str;
  cit_type : citation_type
}.

Definition digit : regex := Chr isdigit_char.
Definition space : regex := Chr isspace.
Definition upper : regex := Chr isupper_char.
Definition lower_cls : regex := Chr islower_char.

(** [CITATION_PATTERNS[0]], spaced out:  \[ ( \d+ (?: , \s* \d+ )* ) \]  *)
Definition pattern_list : regex :=
  Seqs [Lit "["; Group (Seq (Plus digit)
                            (Star (Seqs [Lit ","; Star space; Plus digit])));
        Lit "]"].

(** [CITATION_PATTERNS[1]], spaced out:  \[ ( \d+ - \d+ ) \]  *)
Definition pattern_range : regex :=
  Seqs [Lit "["; Group (Seqs [Plus digit; Lit "-"; Plus digit]); Lit "]"].

(** [CITATION_PATTERNS[2]], spaced out:
    \( ( [A-Z] [a-z]+ \s+ et \s+ al\., \s* \d{4} ) \)  *)
Definition pattern_et_al : regex :=
  Seqs [Lit "(";
        Group (Seqs [upper; Plus lower_cls; Plus space; Word "et"; Plus space;
                     Word "al.,"; Star space; digit; digit; digit; digit]);
        Lit ")"].

(** [CITATION_PATTERNS[3]], spaced out:
    \( ( [A-Z] [a-z]+ \s+ and \s+ [A-Z] [a-z]+ , \s* \d{4} ) \)  *)
Definition pattern_and : regex :=
  Seqs [Lit "(";
        Group (Seqs [upper; Plus lower_cls; Plus space; Word "and"; Plus space;
                     upper; Plus lower_cls; Lit ","; Star space;
                     digit; digit; digit; digit]);
        Lit ")"].

Definition CITATION_PATTERNS : list regex :=
  [pattern_list; pattern_range; pattern_et_al; pattern_and].

Definition SUPPORT_INDICATORS : list str :=
  map lit ["shown"; "demonstrated"; "proven"; "validated"; "confirmed"]%string.
Definition CONTRAST_INDICATORS : list str :=
  map lit ["however"; "contrary"; "unlike"; "different"; "contrast"]%string.
Definition METHODOLOGY_INDICATORS : list str :=
  map lit ["method"; "approach"; "technique"; "algorithm"; "using"]%string.

(** The separator of [_split_sentences], spaced out:  [.!?]+ \s+  *)
Definition sentence_end : regex :=
  Seq (Plus (Chr (λ c, bool_decide (c ∈ lit ".!?")))) (Plus space).

Definition nonempty (s : str) : bool :=
  match s with [] => false | _ => true end.

Definition split_sentences (text : str) : list str :=
  map strip (filter (λ s, nonempty (strip s)) (Re.split sentence_end text)).

Definition parse_reference_ids (ref_string : str) : outcome (list str) :=
  if contains_char "-" ref_string && isdigit (remove_char "-" ref_string)
  then
    match split_on "-" ref_string with
    | [p0; p1] =>
        start ← int p0;
        end_ ← int p1;
        mret (map str_of_nat (seq start (end_ + 1 - start)))
    | _ => mret []
    end
  else if contains_char "," ref_string
  then mret (filter (λ i, nonempty i) (map strip (split_on "," ref_string)))
  else mret [strip ref_string].

Definition extract_context (sentences : list str) (position window : nat)
    : str :=
  let start := position - window in
  let end_ := Nat.min (length sentences) (position + window + 1) in
  join (lit " ") (take (end_ - start) (drop start sentences)).

Definition classify_citation (sentence : str) : citation_type :=
  let sentence_lower := lower sentence in
  if existsb (λ ind, contains ind sentence_lower) SUPPORT_INDICATORS
  then Support
  else if existsb (λ ind, contains ind sentence_lower) CONTRAST_INDICATORS
  then Contrast
  else if existsb (λ ind, contains ind sentence_lower) METHODOLOGY_INDICATORS
  then Methodology
  else Support.

(** [match.group(1)]; applying the parser to [None] is a [TypeError]. *)
Definition group1 (m : match_obj) : outcome str :=
  match m_group1 m with
  | Some g => Ok g
  | None => Raise TypeError
  end.

(** The body of the loop over the matches of one pattern in one sentence. *)
Definition citations_of_match (sentences : list str) (i : nat)
    (sentence : str) (m : match_obj) : outcome (list ExtractedCitation) :=
  g ← group1 m;
  ref_ids ← parse_reference_ids g;
  mret (map (λ ref_id,
               mkExtractedCitation ref_id (m_start m)
                 (extract_context sentences i 2) sentence
                 (classify_citation sentence))
            ref_ids).

(** The loop over the matches of one pattern in sentence [i]. *)
Definition citations_of_sentence (pattern : regex) (sentences : list str)
    (i : nat) (sentence : str) : outcome (list ExtractedCitation) :=
  (λ ls, concat ls) <$> mapM (citations_of_match sentences i sentence)
                  (finditer pattern sentence).

(** The loop over the sentences, for one pattern. *)
Definition citations_of_pattern (sentences : list str) (pattern : regex)
    : outcome (list ExtractedCitation) :=
  (λ ls, concat ls) <$> mapM (λ '(i, sentence),
                     citations_of_sentence pattern sentences i sentence)
                  (imap pair sentences).

Definition extract_citations (text : str) (references : list Reference)
    : outcome (list ExtractedCitation) :=
  let sentences := split_sentences text in
  (λ ls, concat ls) <$> mapM (citations_of_pattern sentences) CITATION_PATTERNS.

End CitationExtractor.

(** ** Iteration over a Python set *)

(** The order in which [for x in s] visits a set of strings depends on the
    hash seed of the process; all that is known is that it visits every
    element once. *)
Class SetOrder : Type := {
  set_iter : gset str → list str;
  set_iter_perm : ∀ X : gset str, set_iter X ≡ₚ elements X
}.

(** An insertion-ordered [dict] whose values are lists: the statement
    [if k not in d: d[k] = []] followed by [d[k].append(v)]. *)
Fixpoint dict_append {K V : Type} `{EqDecision K} (k : K) (v : V)
    (d : list (K * list V)) : list (K * list V) :=
  match d with
  | [] => [(k, [v])]
  | (k', vs) :: d' =>
      if decide (k = k') then (k', vs ++ [v]) :: d'
      else (k', vs) :: dict_append k v d'
  end.

(** An insertion-ordered [dict] of counters: [d[k] = d.get(k, 0) + 1]. *)
Fixpoint dict_incr {K : Type} `{EqDecision K} (k : K) (d : list (K * nat))
    : list (K * nat) :=
  match d with
  | [] => [(k, 1)]
  | (k', n) :: d' =>
      if decide (k = k') then (k', n + 1) :: d'
      else (k', n) :: dict_incr k d'
  end.

(** The pairs visited by
    [for i, x in enumerate(l): for y in l[i+1:]]. *)
Fixpoint all_pairs {A : Type} (l : list A) : list (A * A) :=
  match l with
  | [] => []
  | x :: l' => map (pair x) l' ++ all_pairs l'
  end.

(** ** graph_builder.py *)

Module GraphBuilder.
Import PyStr CitationExtractor.

Record node_attrs : Type := mkNodeAttrs {
  na_title : str;
  na_year : option Z;
  na_authors : list str;
  na_venue : str
}.

(** The value of the key ['type'] of an edge's attributes. *)
Inductive edge_type : Type :=
| CoCitation
| Coupling.

#[global] Instance edge_type_eq_dec : EqDecision edge_type.
Proof. solve_decision. Defined.

Record CitationGraph : Type := mkCitationGraph {
  nodes : gset str;
  edges : list (str * str);
  node_attributes : gmap str node_attrs;
  edge_attributes : gmap (str * str) edge_type
}.

Definition add_node (g : CitationGraph) (node_id : str)
    (attributes : option node_attrs) : CitationGraph :=
  mkCitationGraph ({[node_id]} ∪ nodes g) (edges g)
    (match attributes with
     | Some a => <[node_id := a]> (node_attributes g)
     | None => node_attributes g
     end)
    (edge_attributes g).

Definition add_edge (g : CitationGraph) (from_node to_node : str)
    (attributes : option edge_type) : CitationGraph :=
  mkCitationGraph (nodes g) (edges g ++ [(from_node, to_node)])
    (node_attributes g)
    (match attributes with
     | Some a => insert (from_node, to_node) a (edge_attributes g)
     | None => edge_attributes g
     end).

Fixpoint neighbors_of (es : list (str * str)) (node_id : str) : list str :=
  match es with
  | [] => []
  | (from_node, to_node) :: es' =>
      if decide (from_node = node_id) then to_node :: neighbors_of es' node_id
      else if decide (to_node = node_id)
           then from_node :: neighbors_of es' node_id
           else neighbors_of es' node_id
  end.

Definition get_neighbors (g : CitationGraph) (node_id : str) : list str :=
  neighbors_of (edges g) node_id.

Definition get_degree (g : CitationGraph) (node_id : str) : nat :=
  length (get_neighbors g node_id).

(** [context_citations]: the reference ids grouped by the first 100
    characters of their context. *)
Definition context_citations (citations : list ExtractedCitation)
    : list (str * list str) :=
  fold_left (λ d c, dict_append (take 100 (context c)) (reference_id c) d)
            citations [].

Definition add_co_citation_pair (g : CitationGraph) (p : str * str)
    : CitationGraph :=
  let '(ref1, ref2) := p in
  if decide (ref1 ∈ nodes g ∧ ref2 ∈ nodes g)
  then add_edge g ref1 ref2 (Some CoCitation)
  else g.

Definition add_co_citation_group (g : CitationGraph) (kv : str * list str)
    : CitationGraph :=
  let ref_ids := kv.2 in
  if decide (1 < length ref_ids)
  then fold_left add_co_citation_pair (all_pairs ref_ids) g
  else g.

Definition add_co_citation_edges (g : CitationGraph)
    (citations : list ExtractedCitation) : CitationGraph :=
  fold_left add_co_citation_group (context_citations citations) g.

(** [ref.get('venue', '').lower()] *)
Definition venue_key (ref : Reference) : str :=
  lower (default [] (ref_venue ref)).

(** [venue_refs]: the reference ids grouped by lower-cased venue; [i] is
    the index of the first reference of [references]. *)
Fixpoint venue_refs_from (i : nat) (references : list Reference)
    (d : list (str * list str)) : list (str * list str) :=
  match references with
  | [] => d
  | ref :: rest =>
      let venue := venue_key ref in
      venue_refs_from (S i) rest
        (if nonempty venue then dict_append venue (str_of_nat (i + 1)) d
         else d)
  end.

Definition venue_refs (references : list Reference) : list (str * list str) :=
  venue_refs_from 0 references [].

Definition add_coupling_pair (g : CitationGraph) (p : str * str)
    : CitationGraph :=
  let '(ref1, ref2) := p in
  if decide (ref1 ∈ nodes g ∧ ref2 ∈ nodes g)
  then
    if decide (((ref1, ref2) ∉ edges g) ∧ ((ref2, ref1) ∉ edges g))
    then add_edge g ref1 ref2 (Some Coupling)
    else g
  else g.

Definition add_coupling_group (g : CitationGraph) (kv : str * list str)
    : CitationGraph :=
  let ref_ids := kv.2 in
  if decide (1 < length ref_ids)
  then fold_left add_coupling_pair (all_pairs ref_ids) g
  else g.

Definition add_bibliographic_coupling_edges (g : CitationGraph)
    (references : list Reference) : CitationGraph :=
  fold_left add_coupling_group (venue_refs references) g.

(** [ref_map]: the pairs [(str(i+1), ref)], in the order of the list. *)
Definition ref_map (references : list Reference) : list (str * Reference) :=
  imap (λ i ref, (str_of_nat (i + 1), ref)) references.

Definition attributes_of (ref : Reference) : node_attrs :=
  mkNodeAttrs (default [] (ref_title ref)) (ref_year ref)
              (default [] (ref_authors ref)) (default [] (ref_venue ref)).

Definition empty_graph : CitationGraph := mkCitationGraph ∅ [] ∅ ∅.

Definition build_graph (citations : list ExtractedCitation)
    (references : list Reference) : CitationGraph :=
  let graph :=
    fold_left (λ g kv, add_node g kv.1 (Some (attributes_of kv.2)))
              (ref_map references) empty_graph in
  let graph := add_co_citation_edges graph citations in
  add_bibliographic_coupling_edges graph references.

End GraphBuilder.

(** ** Numbers, clock and formatted text *)

(** An [int] used where a [float] is expected. *)
Definition QN (n : nat) : Q := inject_Z (Z.of_nat n).

(** [x < y] on floats is decidable. *)
#[global] Instance Qlt_decision (x y : Q) : Decision (x < y)%Q :=
  match Qlt_le_dec x y with
  | left h => left h
  | right h => right (Qle_not_lt _ _ h)
  end.

(** [datetime.now()]: the year, and the rest of the instant. *)
Record datetime : Type := mkDatetime {
  year : Z;
  instant : nat
}.

(** The [n]-th reading of the clock. *)
Definition Clock : Type := nat → datetime.

(** An f-string: the template and the values of its fields. *)
Inductive farg : Type :=
| ArgQ (q : Q)
| ArgN (n : nat)
| ArgZ (z : Z)
| ArgS (s : str).

Record fstring : Type := F {
  template : string;
  fargs : list farg
}.

(** ** pattern_detector.py *)

Module PatternDetector.
Import PyStr CitationExtractor GraphBuilder.

Inductive pattern_type : Type :=
| ExcessiveClustering
| CitationCartel
| CitationConcentration
| TemporalAnomaly.

Record CitationPattern : Type := mkCitationPattern {
  ptype : pattern_type;
  description : fstring;
  suspicion_score : Q;
  evidence : list fstring;
  affected_references : list str
}.

Definition SELF_CITATION_THRESHOLD : Q := 3 # 10.
Definition CLUSTER_DENSITY_THRESHOLD : Q := 7 # 10.
Definition RECIPROCAL_CITATION_THRESHOLD : nat := 3.

Section with_order.
Context `{SetOrder}.

(** [(n1, n2) in graph.edges or (n2, n1) in graph.edges] *)
Definition linked (g : CitationGraph) (p : str * str) : bool :=
  bool_decide ((p.1, p.2) ∈ edges g ∨ (p.2, p.1) ∈ edges g).

(** One round of the loop of [_detect_clustering]; the state is
    [(total_clustering, nodes_with_neighbors)]. *)
Definition clustering_step (g : CitationGraph) (st : Q * nat) (node : str)
    : Q * nat :=
  let neighbors := get_neighbors g node in
  if decide (length neighbors < 2) then st
  else
    let nodes_with_neighbors := st.2 + 1 in
    let neighbor_edges := length (filter (λ p, linked g p = true)
                                         (all_pairs neighbors)) in
    let max_possible_edges :=
      (QN (length neighbors * (length neighbors - 1)) / 2)%Q in
    if Qlt_le_dec 0 max_possible_edges
    then ((st.1 + QN neighbor_edges / max_possible_edges)%Q,
          nodes_with_neighbors)
    else (st.1, nodes_with_neighbors).

Definition detect_clustering (g : CitationGraph) : option CitationPattern :=
  if decide (size (nodes g) < 3) then None
  else
    let '(total_clustering, nodes_with_neighbors) :=
      fold_left (clustering_step g) (set_iter (nodes g)) (0%Q, 0) in
    if decide (nodes_with_neighbors = 0) then None
    else
      let avg_clustering := (total_clustering / QN nodes_with_neighbors)%Q in
      if Qlt_le_dec CLUSTER_DENSITY_THRESHOLD avg_clustering
      then Some (mkCitationPattern ExcessiveClustering
                   (F "Citations show excessive clustering, possibly indicating citation ring" [])
                   (Qmin avg_clustering 1)
                   [F "Average clustering coefficient: {:.2f}"
                      [ArgQ avg_clustering];
                    F "Threshold exceeded: {}"
                      [ArgQ CLUSTER_DENSITY_THRESHOLD]]
                   (set_iter (nodes g)))
      else None.

(** The loop of [_find_ring_size] over the neighbours; [rec] is the
    recursive call and [None] its failure. *)
Fixpoint ring_loop (rec : str → option nat) (start_node : str)
    (visited : gset str) (max_ring : nat) (neighbors : list str)
    : option nat :=
  match neighbors with
  | [] => Some max_ring
  | neighbor :: rest =>
      if decide (neighbor = start_node) then Some (size visited + 1)
      else if decide (neighbor ∉ visited)
      then
        match rec neighbor with
        | Some ring_size =>
            ring_loop rec start_node visited (Nat.max max_ring ring_size) rest
        | None => None
        end
      else ring_loop rec start_node visited max_ring rest
  end.

(** [_find_ring_size].  [fuel] bounds the depth of the recursion, and
    [None] means that the bound was reached.  Every call gets its own
    copy of [visited]. *)
Fixpoint find_ring_size_fuel (fuel : nat) (g : CitationGraph)
    (start_node current_node : str) (visited : option (gset str))
    : option nat :=
  match fuel with
  | 0 => None
  | S fuel' =>
      let visited := default {[start_node]} visited in
      if decide (current_node ∈ visited) then Some (size visited)
      else
        let visited := {[current_node]} ∪ visited in
        ring_loop (λ neighbor, find_ring_size_fuel fuel' g start_node neighbor
                                 (Some visited))
                  start_node visited (size visited)
                  (get_neighbors g current_node)
  end.

(** Every call visits a node that is an end of an edge and was not
    visited before, so the depth never exceeds the number of ends. *)
Definition ring_fuel (g : CitationGraph) : nat := S (2 * length (edges g)).

Definition find_ring_size (g : CitationGraph) (start_node current_node : str)
    : nat :=
  default 0 (find_ring_size_fuel (ring_fuel g) g start_node current_node None).

Definition cartel_pattern (node neighbor : str) (ring_size : nat)
    : CitationPattern :=
  mkCitationPattern CitationCartel
    (F "Detected potential citation cartel of size {}" [ArgN ring_size])
    (Qmin (QN ring_size / 10) 1)
    [F "Ring size: {}" [ArgN ring_size];
     F "Reciprocal citations detected between {} and {}"
       [ArgS node; ArgS neighbor]]
    [node; neighbor].

(** The body of the inner loop of [_detect_citation_cartels]. *)
Definition cartels_of_neighbor (g : CitationGraph) (node neighbor : str)
    : list CitationPattern :=
  if decide (node ∈ get_neighbors g neighbor)
  then
    let ring_size := find_ring_size g node neighbor in
    if decide (RECIPROCAL_CITATION_THRESHOLD ≤ ring_size)
    then [cartel_pattern node neighbor ring_size]
    else []
  else [].

Definition cartels_of_node (g : CitationGraph) (node : str)
    : list CitationPattern :=
  flat_map (cartels_of_neighbor g node) (get_neighbors g node).

Definition detect_citation_cartels (g : CitationGraph)
    : list CitationPattern :=
  flat_map (cartels_of_node g) (set_iter (nodes g)).

(** [citation_counts] *)
Definition citation_counts (citations : list ExtractedCitation)
    : list (str * nat) :=
  fold_left (λ d c, dict_incr (reference_id c) d) citations [].

Definition detect_concentration (g : CitationGraph)
    (citations : list ExtractedCitation) : option CitationPattern :=
  match citations with
  | [] => None
  | _ =>
      let counts := citation_counts citations in
      match counts with
      | [] => None
      | _ =>
          let max_citations := list_max (map snd counts) in
          let total_citations := list_sum (map snd counts) in
          let concentration_ratio :=
            (QN max_citations / QN total_citations)%Q in
          if Qlt_le_dec (3 # 10) concentration_ratio
          then
            let top_refs :=
              map fst (filter (λ rc, rc.2 = max_citations) counts) in
            Some (mkCitationPattern CitationConcentration
                    (F "Abnormal concentration of citations on few references" [])
                    (Qmin (concentration_ratio * (15 # 10)) 1)
                    [F "Top reference(s) have {:.1%} of all citations"
                       [ArgQ concentration_ratio];
                     F "Max citations to single ref: {}/{}"
                       [ArgN max_citations; ArgN total_citations]]
                    top_refs)
          else None
      end
  end.

(** [if year:] holds for an integer other than 0. *)
Definition truthy_year (y : option Z) : option Z :=
  match y with
  | Some y => if decide (y = 0%Z) then None else Some y
  | None => None
  end.

Definition node_years (g : CitationGraph) : list Z :=
  omap (λ node, truthy_year (node_attributes g !! node ≫= na_year))
       (set_iter (nodes g)).

Definition max_year (years : list Z) : Z :=
  match years with
  | [] => 0%Z
  | y :: ys => fold_left Z.max ys y
  end.

(** [_detect_temporal_anomalies]; the clock is read once, and only when
    five years or more are known. [t] counts the readings made so far. *)
Definition detect_temporal_anomalies (clk : Clock) (t : nat)
    (g : CitationGraph) : option CitationPattern * nat :=
  let years := node_years g in
  if decide (length years < 5) then (None, t)
  else
    let current_year := year (clk t) in
    let recent_citations :=
      length (filter (λ y, (current_year - 3 ≤ y)%Z) years) in
    (if decide (recent_citations = 0)
     then Some (mkCitationPattern TemporalAnomaly
                  (F "No citations to recent work (last 3 years)" [])
                  (6 # 10)
                  [F "Most recent citation year: {}" [ArgZ (max_year years)];
                   F "Consider including more recent references" []]
                  [])
     else None, S t).

Definition detect_patterns (clk : Clock) (t : nat) (g : CitationGraph)
    (citations : list ExtractedCitation) : list CitationPattern * nat :=
  let patterns := option_list (detect_clustering g) in
  let patterns := patterns ++ detect_citation_cartels g in
  let patterns := patterns ++ option_list (detect_concentration g citations) in
  let '(temporal_pattern, t) := detect_temporal_anomalies clk t g in
  (patterns ++ option_list temporal_pattern, t).

End with_order.
End PatternDetector.

(** ** citation_graph_analyzer.py *)

Module CitationGraphAnalyzer.
Import PyStr CitationExtractor GraphBuilder PatternDetector.

Record CitationAnalysisResult : Type := mkCitationAnalysisResult {
  manuscript_id : string;
  total_citations : nat;
  unique_citations : nat;
  self_citations : nat;
  self_citation_rate : Q;
  citation_clusters : list (gset str);
  suspicious_patterns : list CitationPattern;
  citation_network_density : Q;
  temporal_distribution : list (Z * nat);
  author_citation_diversity : Q;
  analysis_timestamp : datetime;
  risk_score : Q;
  recommendations : list fstring
}.

(** [name.lower().split()[-1]]: indexing the empty list of words raises
    [IndexError]. *)
Definition last_name (name : str) : outcome str :=
  match last (split_ws (lower name)) with
  | Some w => Ok w
  | None => Raise IndexError
  end.

(** The inner loop of [_count_self_citations]: [true] when it leaves by
    [break]. *)
Fixpoint has_self_author (normalized_authors : gset str)
    (ref_authors : list str) : outcome bool :=
  match ref_authors with
  | [] => Ok false
  | ref_author :: rest =>
      ref_lastname ← last_name ref_author;
      if decide (ref_lastname ∈ normalized_authors) then Ok true
      else has_self_author normalized_authors rest
  end.

Fixpoint count_self_loop (normalized_authors : gset str)
    (references : list Reference) (self_count : nat) : outcome nat :=
  match references with
  | [] => Ok self_count
  | ref :: rest =>
      hit ← has_self_author normalized_authors (default [] (ref_authors ref));
      count_self_loop normalized_authors rest
        (if hit : bool then self_count + 1 else self_count)
  end.

Definition count_self_citations (citations : list ExtractedCitation)
    (references : list Reference) (author_names : list str) : outcome nat :=
  match author_names with
  | [] => Ok 0
  | _ =>
      names ← mapM last_name author_names;
      count_self_loop (list_to_set names) references 0
  end.

Section with_order.
Context `{SetOrder}.

(** The [while stack:] loop of [_explore_cluster].  The head of [stack]
    is its top; [fuel] bounds the number of rounds and [None] means that
    the bound was reached.  [visited] is the set shared with
    [_find_clusters], so it is returned with the cluster. *)
Fixpoint explore_loop (fuel : nat) (g : CitationGraph) (stack : list str)
    (visited cluster : gset str) : option (gset str * gset str) :=
  match fuel with
  | 0 => None
  | S fuel' =>
      match stack with
      | [] => Some (cluster, visited)
      | node :: stack' =>
          if decide (node ∈ visited)
          then explore_loop fuel' g stack' visited cluster
          else
            let visited := {[node]} ∪ visited in
            let cluster := {[node]} ∪ cluster in
            let pushed := filter (λ n, n ∉ visited) (get_neighbors g node) in
            explore_loop fuel' g (rev pushed ++ stack') visited cluster
      end
  end.

(** A round pops one entry, and the entries pushed while a node is
    visited are among its neighbours: no more than two per edge over the
    whole run, after the start node. *)
Definition explore_fuel (g : CitationGraph) : nat :=
  S (S (2 * length (edges g))).

Definition explore_cluster (g : CitationGraph) (start_node : str)
    (visited : gset str) : gset str * gset str :=
  default (∅, visited)
          (explore_loop (explore_fuel g) g [start_node] visited ∅).

(** One round of the loop of [_find_clusters]; the state is
    [(visited, clusters)]. *)
Definition clusters_step (g : CitationGraph)
    (st : gset str * list (gset str)) (node : str)
    : gset str * list (gset str) :=
  let '(visited, clusters) := st in
  if decide (node ∉ visited)
  then
    let '(cluster, visited) := explore_cluster g node visited in
    (visited, if decide (1 < size cluster) then clusters ++ [cluster]
              else clusters)
  else st.

Definition find_clusters (g : CitationGraph) : list (gset str) :=
  (fold_left (clusters_step g) (set_iter (nodes g)) (∅, [])).2.

End with_order.

Definition calculate_network_density (g : CitationGraph) : Q :=
  let num_nodes := size (nodes g) in
  if decide (num_nodes < 2) then 0%Q
  else
    let num_edges := length (edges g) in
    let max_edges := num_nodes * (num_nodes - 1) in
    if decide (0 < max_edges) then (QN num_edges / QN max_edges)%Q else 0%Q.

Definition analyze_temporal_distribution (references : list Reference)
    : list (Z * nat) :=
  fold_left (λ distribution ref,
               match truthy_year (ref_year ref) with
               | Some y => dict_incr y distribution
               | None => distribution
               end)
            references [].

(** The venues and the authors counted by [_calculate_citation_diversity]. *)
Definition venue_set (references : list Reference) : gset str :=
  list_to_set (omap (λ ref,
                       match ref_venue ref with
                       | Some v => if nonempty v then Some (lower v) else None
                       | None => None
                       end) references).

Definition author_set (references : list Reference) : gset str :=
  list_to_set (flat_map (λ ref, map lower (default [] (ref_authors ref)))
                        references).

Definition calculate_citation_diversity (citations : list ExtractedCitation)
    (references : list Reference) : Q :=
  match references with
  | [] => 0%Q
  | _ =>
      let venues := venue_set references in
      let authors := author_set references in
      let venue_diversity :=
        Qmin (QN (size venues) / QN (Nat.max (length references) 1)) 1 in
      let author_diversity :=
        Qmin (QN (size authors) / QN (length references * 2)) 1 in
      (venue_diversity * (6 # 10) + author_diversity * (4 # 10))%Q
  end.

(** [[p for p in patterns if p.suspicion_score > threshold]] *)
Definition above (threshold : Q) (patterns : list CitationPattern)
    : list CitationPattern :=
  filter (λ p, (threshold < suspicion_score p)%Q) patterns.

Definition calculate_citation_risk_score (self_citation_rate : Q)
    (patterns : list CitationPattern) (density diversity : Q) : Q :=
  let risk := 0%Q in
  let risk :=
    if Qlt_le_dec (3 # 10) self_citation_rate then (risk + (3 # 10))%Q
    else if Qlt_le_dec (2 # 10) self_citation_rate then (risk + (15 # 100))%Q
    else risk in
  let suspicious := above (5 # 10) patterns in
  let risk := (risk + Qmin (QN (length suspicious) * (15 # 100)) (4 # 10))%Q in
  let risk :=
    if Qlt_le_dec (7 # 10) density then (risk + (15 # 100))%Q else risk in
  let risk :=
    if Qlt_le_dec diversity (3 # 10) then (risk + (15 # 100))%Q else risk in
  Qmin risk 1.

(** [[y for y in temporal_dist.keys() if y >= datetime.now().year - 3]]:
    the clock is read once for every key. *)
Fixpoint recent_years (clk : Clock) (t : nat) (keys : list Z)
    : list Z * nat :=
  match keys with
  | [] => ([], t)
  | y :: rest =>
      let current_year := year (clk t) in
      let '(ys, t') := recent_years clk (S t) rest in
      (if decide (current_year - 3 ≤ y)%Z then y :: ys else ys, t')
  end.

Definition generate_recommendations (clk : Clock) (t : nat)
    (self_citation_rate : Q) (patterns : list CitationPattern)
    (diversity : Q) (temporal_dist : list (Z * nat))
    : list fstring * nat :=
  let r1 :=
    if Qlt_le_dec (3 # 10) self_citation_rate
    then [F "Self-citation rate is high ({:.1%}). Consider citing more diverse sources."
            [ArgQ self_citation_rate]]
    else [] in
  let r2 :=
    if Qlt_le_dec diversity (4 # 10)
    then [F "Citation diversity is low. Expand literature review to include more venues and authors." []]
    else [] in
  let '(r3, t) :=
    match temporal_dist with
    | [] => ([], t)
    | _ =>
        let '(recent, t') := recent_years clk t (map fst temporal_dist) in
        (match recent with
         | [] => [F "Consider including more recent references (last 3 years)." []]
         | _ => []
         end, t')
    end in
  let suspicious := above (6 # 10) patterns in
  let r4 :=
    match suspicious with
    | [] => []
    | _ => [F "Detected {} suspicious citation patterns. Review citation practices for potential manipulation."
              [ArgN (length suspicious)]]
    end in
  (r1 ++ r2 ++ r3 ++ r4, t).

Section with_order.
Context `{SetOrder}.

(** [analyze]; [t] counts the readings of the clock made before the call,
    and the result comes with the count after it. *)
Definition analyze (clk : Clock) (t : nat) (manuscript_text : str)
    (references : list Reference) (author_names : option (list str))
    : outcome (CitationAnalysisResult * nat) :=
  citations ← extract_citations manuscript_text references;
  let graph := build_graph citations references in
  let '(patterns, t) := detect_patterns clk t graph citations in
  let total := length citations in
  let unique :=
    size (list_to_set (map reference_id citations) : gset str) in
  self_count ← count_self_citations citations references
                 (default [] author_names);
  let rate := (QN self_count / QN (Nat.max total 1))%Q in
  let clusters := find_clusters graph in
  let density := calculate_network_density graph in
  let temporal_dist := analyze_temporal_distribution references in
  let diversity := calculate_citation_diversity citations references in
  let risk := calculate_citation_risk_score rate patterns density diversity in
  let '(recs, t) :=
    generate_recommendations clk t rate patterns diversity temporal_dist in
  mret (mkCitationAnalysisResult "manuscript" total unique self_count rate
          clusters (above (5 # 10) patterns) density temporal_dist diversity
          (clk t) risk recs, S t).

End with_order.
End CitationGraphAnalyzer.

(** The order of [elements]: one admissible iteration order. *)
#[global] Instance elements_order : SetOrder :=
  {| set_iter := elements; set_iter_perm := λ X, reflexivity _ |}.

(** ** Notions used in the statements *)

Module Notions.
Import PyStr CitationExtractor GraphBuilder PatternDetector
       CitationGraphAnalyzer.

(** The edge [e] joins [a] and [b], in either orientation. *)
Definition joins (a b : str) (e : str * str) : Prop :=
  e = (a, b) ∨ e = (b, a).

#[global] Instance joins_dec a b e : Decision (joins a b e).
Proof. unfold joins. apply _. Defined.

(** The edges of the graph whose ['type'] attribute is [ty]. *)
Definition edges_of_type (g : CitationGraph) (ty : edge_type)
    : list (str * str) :=
  filter (λ e, edge_attributes g !! e = Some ty) (edges g).

(** The number of edges of type [ty] between [a] and [b]. *)
Definition edge_count (g : CitationGraph) (ty : edge_type) (a b : str) : nat :=
  length (filter (joins a b) (edges_of_type g ty)).

(** Every edge joins two nodes of the graph. *)
Definition edges_in_nodes (g : CitationGraph) : Prop :=
  ∀ e, e ∈ edges g → e.1 ∈ nodes g ∧ e.2 ∈ nodes g.

(** Before the coupling pass every typed edge is a co-citation edge. *)
Definition only_co_citation (g : CitationGraph) : Prop :=
  ∀ e ty, edge_attributes g !! e = Some ty → ty = CoCitation.

(** A coupling edge is the only edge between its two ends. *)
Definition coupling_alone (g : CitationGraph) : Prop :=
  ∀ e, e ∈ edges g → edge_attributes g !! e = Some Coupling →
       length (filter (joins e.1 e.2) (edges g)) = 1.

(** The number of citations of the reference [r]. *)
Definition cited (citations : list ExtractedCitation) (r : str) : nat :=
  length (filter (λ c, reference_id c = r) citations).

(** The largest number of citations of one reference. *)
Definition max_cited (citations : list ExtractedCitation) : nat :=
  list_max (map (λ c, cited citations (reference_id c)) citations).

(** A non-empty string of decimal digits. *)
Definition digits (d : str) : Prop := d ≠ [] ∧ Forall (λ c, isdigit_char c = true) d.

(** White space followed by an id. *)
Definition spaced_id (wd : str * str) : Prop :=
  Forall (λ x, isspace x = true) wd.1 ∧ digits wd.2.

(** The text between the brackets of a list marker: a first id, then a
    comma, white space and an id, any number of times. *)
Definition list_body (d1 : str) (rest : list (str * str)) : str :=
  d1 ++ flat_map (λ wd, ","%char :: wd.1 ++ wd.2) rest.

(** The words of a regular expression. *)
Inductive matches : Re.regex → str → Prop :=
| matches_chr p c : p c = true → matches (Re.Chr p) [c]
| matches_eps : matches Re.Eps []
| matches_seq r1 r2 w1 w2 :
    matches r1 w1 → matches r2 w2 → matches (Re.Seq r1 r2) (w1 ++ w2)
| matches_star_nil r : matches (Re.Star r) []
| matches_star_cons r w1 w2 :
    matches r w1 → matches (Re.Star r) w2 → matches (Re.Star r) (w1 ++ w2)
| matches_group r w : matches r w → matches (Re.Group r) w.

(** Some character class of [r] holds the character [c]. *)
Fixpoint uses (r : Re.regex) (c : ascii) : bool :=
  match r with
  | Re.Chr p => p c
  | Re.Eps => false
  | Re.Seq r1 r2 => uses r1 c || uses r2 c
  | Re.Star r1 => uses r1 c
  | Re.Group r1 => uses r1 c
  end.


(** The input [rest] does not start with a character of the class [p]. *)
Definition stops (p : ascii → bool) (rest : str) : Prop :=
  match rest with
  | c :: _ => p c = false
  | [] => True
  end.

(** The first alternative of [r] on [w ++ rest] is [w], as far as the
    continuation accepts it: whatever the continuation answers on [rest],
    the matcher answers on [w ++ rest]. *)
Definition accepts (r : Re.regex) (w rest : str) : Prop :=
  ∀ (A : Type) (k : str → option str → option A) (g : option str) (x : A),
    k rest g = Some x → Re.exec r (w ++ rest) g k = Some x.

(** [r] matches no prefix of [rest]. *)
Definition rejects (r : Re.regex) (rest : str) : Prop :=
  ∀ (A : Type) (k : str → option str → option A) (g : option str),
    Re.exec r rest g k = None.

(** The text of a marker: the bracket, the body, the bracket. *)
Definition bracketed (open close : ascii) (body post : str) : str :=
  open :: body ++ close :: post.

(** The sentence [s] has, at the offset [p], a word of the expression
    [pattern]: a marker of that pattern starts there. *)
Definition marker_at (pattern : Re.regex) (s : str) (p : nat) : Prop :=
  ∃ w rest, drop p s = w ++ rest ∧ matches pattern w.

(** The citations recorded for the sentence [s] at the offset [pos]. *)
Definition at_marker (citations : list ExtractedCitation) (s : str)
    (pos : nat) : list ExtractedCitation :=
  filter (λ c, sentence c = s ∧ position c = pos) citations.

(** How often the sentence [s] occurs in the text. *)
Definition occurrences (s : str) (sentences : list str) : nat :=
  length (filter (λ x, x = s) sentences).

(** The matches of the range pattern in the sentences of the text. *)
Definition range_markers (text : str) : list Re.match_obj :=
  flat_map (Re.finditer pattern_range) (split_sentences text).

(** A list of citations is ordered by recorded position. *)
Definition by_position (cs : list ExtractedCitation) : Prop :=
  StronglySorted (λ c1 c2, position c1 ≤ position c2) cs.

(** A score lies in the unit interval. *)
Definition in_unit (q : Q) : Prop := (0 <= q)%Q ∧ (q <= 1)%Q.

(** The result without the time of the analysis and without the count of
    clock readings. *)
Definition erase_timestamp (r : CitationAnalysisResult * nat)
    : CitationAnalysisResult :=
  let r := r.1 in
  mkCitationAnalysisResult (manuscript_id r) (total_citations r)
    (unique_citations r) (self_citations r) (self_citation_rate r)
    (citation_clusters r) (suspicious_patterns r)
    (citation_network_density r) (temporal_distribution r)
    (author_citation_diversity r) (mkDatetime 0 0) (risk_score r)
    (recommendations r).

(** The value stored for [k] in a dictionary of counters, 0 when absent. *)
Fixpoint dget {K : Type} `{EqDecision K} (k : K) (d : list (K * nat)) : nat :=
  match d with
  | [] => 0
  | (k', n) :: d' => if decide (k = k') then n else dget k d'
  end.

(** The ends of the edges of a graph. *)
Definition endpoints (g : CitationGraph) : gset str :=
  list_to_set (flat_map (λ e, [e.1; e.2]) (edges g)).

(** The entries of the neighbour lists of the nodes outside [visited]. *)
Fixpoint pending (es : list (str * str)) (visited : gset str) : nat :=
  match es with
  | [] => 0
  | (a, b) :: es' =>
      (if decide (a ∈ visited) then 0 else 1) +
      (if decide (b ∈ visited ∨ a = b) then 0 else 1) +
      pending es' visited
  end.

(** Some edge joins [a] and [b]. *)
Definition adjacent (g : CitationGraph) (a b : str) : Prop :=
  (a, b) ∈ edges g ∨ (b, a) ∈ edges g.

(** The edge [e] has the end [x]. *)
Definition touches (x : str) (e : str * str) : Prop := e.1 = x ∨ e.2 = x.

#[global] Instance touches_dec x e : Decision (touches x e).
Proof. unfold touches. apply _. Defined.

(** The recommendation that reports [k] patterns. *)
Definition manipulation_warning (k : nat) : fstring :=
  F "Detected {} suspicious citation patterns. Review citation practices for potential manipulation."
    [ArgN k].

(** The years of the references, without the absent ones and the zeros. *)
Definition reference_years (references : list Reference) : list Z :=
  filter (λ y, y ≠ 0%Z) (omap ref_year references).

(** The references of the year [y]. *)
Definition with_year (references : list Reference) (y : Z) : list Reference :=
  filter (λ ref, ref_year ref = Some y) references.

(** [b] is reached from [a] along edges, in any orientation. *)
Definition connected (g : CitationGraph) : str → str → Prop :=
  rtc (adjacent g).

(** No edge leaves the set [V]. *)
Definition closed (g : CitationGraph) (V : gset str) : Prop :=
  ∀ a b, adjacent g a b → a ∈ V → b ∈ V.

(** The sets of a list are disjoint from one another. *)
Fixpoint pairwise_disjoint (cs : list (gset str)) : Prop :=
  match cs with
  | [] => True
  | C :: cs' => Forall (λ D, C ## D) cs' ∧ pairwise_disjoint cs'
  end.

(** What holds between two rounds of the loop of [_explore_cluster] that
    was entered with the set [V0] of visited nodes. *)
Definition explore_inv (g : CitationGraph) (start : str) (V0 : gset str)
    (stack : list str) (visited cluster : gset str) : Prop :=
  visited = V0 ∪ cluster
  ∧ (∀ c, c ∈ cluster → connected g start c)
  ∧ (∀ s, s ∈ stack → connected g start s)
  ∧ (∀ c n, c ∈ cluster → adjacent g c n → n ∈ visited ∨ n ∈ stack)
  ∧ (start ∈ cluster ∨ start ∈ stack).

(** What holds between two rounds of the loop of [_find_clusters] after
    the nodes [P]. *)
Definition clusters_inv (g : CitationGraph) (P : list str)
    (st : gset str * list (gset str)) : Prop :=
  closed g st.1
  ∧ (∀ x, x ∈ st.1 ↔ ∃ a, a ∈ P ∧ connected g a x)
  ∧ (∀ C, C ∈ st.2 →
       1 < size C ∧ ∃ a, a ∈ P ∧ ∀ x, x ∈ C ↔ connected g a x)
  ∧ (∀ a x, a ∈ P → connected g a x → a ≠ x →
       ∃ C, C ∈ st.2 ∧ a ∈ C ∧ x ∈ C)
  ∧ pairwise_disjoint st.2.

(** The list stored for [k] in a dictionary of lists, empty when absent. *)
Fixpoint dgroup {K V : Type} `{EqDecision K} (k : K) (d : list (K * list V))
    : list V :=
  match d with
  | [] => []
  | (k', vs) :: d' => if decide (k = k') then vs else dgroup k d'
  end.

(** The key under which [_add_co_citation_edges] files a citation. *)
Definition context_key (c : ExtractedCitation) : str := take 100 (context c).

(** The last word of a name, in lower case, when the name has a word. *)
Definition last_word (name : str) : option str := last (split_ws (lower name)).

(** Some author of the reference has the last word of one of [names]. *)
Definition shares_last_name (names : list str) (ref : Reference) : Prop :=
  Exists (λ a, is_Some (last_word a)
               ∧ Exists (λ nm, last_word nm = last_word a) names)
         (default [] (ref_authors ref)).

#[global] Instance shares_last_name_dec names ref :
  Decision (shares_last_name names ref).
Proof. unfold shares_last_name. apply _. Defined.



(** The recommendation to cite recent work. *)
Definition recency_warning : fstring :=
  F "Consider including more recent references (last 3 years)." [].

End Notions.

(** ** Sample inputs *)

Module Samples.
Import CitationExtractor.

(** A citation of the reference [r]. *)
Definition cite (r : string) : ExtractedCitation :=
  mkExtractedCitation (lit r) 0 [] [] Support.

(** A reference with one author, a year and a venue. *)
Definition reference (author : string) (y : Z) (venue : string) : Reference :=
  mkReference (Some [lit author]) None (Some y) (Some (lit venue)).

(** A clock in the year [y]. *)
Definition clock_in (y : Z) : Clock := λ n, mkDatetime y n.

(** The same clock, read later in the year. *)
Definition clock_later (y : Z) : Clock := λ n, mkDatetime y (n + 1000).

End Samples.

(** * Properties *)

Import PyStr Re CitationExtractor GraphBuilder PatternDetector
       CitationGraphAnalyzer Notions Samples.

(** ** Loops *)

Lemma fold_left_preserves {A B : Type} (f : A → B → A) (P : A → Prop) :
  (∀ a b, P a → P (f a b)) → ∀ l a, P a → P (fold_left f l a).
Proof.
  intros Hstep l. induction l as [|b l IH]; intros a Ha; simpl; auto.
Qed.

Lemma imap_cons_shift {A B : Type} (f : nat → A → B) (x : A) (l : list A) :
  imap f (x :: l) = f 0 x :: imap (λ i, f (S i)) l.
Proof. reflexivity. Qed.

(** ** The graph builder: nodes *)

Lemma nodes_add_edge g a b ty : nodes (add_edge g a b ty) = nodes g.
Proof. reflexivity. Qed.

Lemma nodes_add_co_citation_pair g p : nodes (add_co_citation_pair g p) = nodes g.
Proof.
  destruct p as [a b]. unfold add_co_citation_pair.
  case_decide; reflexivity.
Qed.

Lemma nodes_add_coupling_pair g p : nodes (add_coupling_pair g p) = nodes g.
Proof.
  destruct p as [a b]. unfold add_coupling_pair.
  repeat case_decide; reflexivity.
Qed.

Lemma nodes_fold_pairs (f : CitationGraph → str * str → CitationGraph) :
  (∀ g p, nodes (f g p) = nodes g) →
  ∀ l g, nodes (fold_left f l g) = nodes g.
Proof.
  intros Hf l. induction l as [|p l IH]; intros g; simpl; [done|].
  by rewrite IH, Hf.
Qed.

Lemma nodes_add_co_citation_edges g cits :
  nodes (add_co_citation_edges g cits) = nodes g.
Proof.
  unfold add_co_citation_edges. generalize (context_citations cits).
  intros l. revert g. induction l as [|kv l IH]; intros g; simpl; [done|].
  rewrite IH. unfold add_co_citation_group. case_decide; [|done].
  apply nodes_fold_pairs, nodes_add_co_citation_pair.
Qed.

Lemma nodes_add_bibliographic_coupling_edges g refs :
  nodes (add_bibliographic_coupling_edges g refs) = nodes g.
Proof.
  unfold add_bibliographic_coupling_edges. generalize (venue_refs refs).
  intros l. revert g. induction l as [|kv l IH]; intros g; simpl; [done|].
  rewrite IH. unfold add_coupling_group. case_decide; [|done].
  apply nodes_fold_pairs, nodes_add_coupling_pair.
Qed.

Lemma nodes_fold_add_node (l : list (str * Reference)) g :
  nodes (fold_left (λ g kv, add_node g kv.1 (Some (attributes_of kv.2))) l g)
  = list_to_set (map fst l) ∪ nodes g.
Proof.
  revert g. induction l as [|kv l IH]; intros g; simpl.
  - set_solver.
  - rewrite IH. simpl. set_solver.
Qed.

Lemma ref_map_keys_from (refs : list Reference) (k : nat) :
  map fst (imap (λ i ref, (str_of_nat (k + i + 1), ref)) refs)
  = map str_of_nat (seq (S k) (length refs)).
Proof.
  revert k. induction refs as [|r refs IH]; intros k; [done|].
  rewrite imap_cons_shift. simpl. f_equal.
  - f_equal. lia.
  - rewrite <- (IH (S k)). f_equal. apply imap_ext. intros i x _.
    do 2 f_equal. lia.
Qed.

Lemma ref_map_keys refs :
  map fst (ref_map refs) = map str_of_nat (seq 1 (length refs)).
Proof. apply (ref_map_keys_from refs 0). Qed.

Lemma nodes_build_graph cits refs :
  nodes (build_graph cits refs)
  = list_to_set (map str_of_nat (seq 1 (length refs))).
Proof.
  unfold build_graph.
  rewrite nodes_add_bibliographic_coupling_edges, nodes_add_co_citation_edges.
  rewrite nodes_fold_add_node, ref_map_keys. simpl. set_solver.
Qed.

(** C4, as amended: the nodes of the graph are the ids of the reference
    list, [str(1)] to [str(N)], whatever the citations are. *)
Theorem C4_nodes_are_reference_ids cits refs (id : str) :
  id ∈ nodes (build_graph cits refs)
  ↔ ∃ i, 1 ≤ i ≤ length refs ∧ id = str_of_nat i.
Proof.
  rewrite nodes_build_graph, elem_of_list_to_set, list_elem_of_fmap.
  split.
  - intros (i & -> & Hi). apply elem_of_seq in Hi. exists i. split; [lia|done].
  - intros (i & Hi & ->). exists i. split; [done|]. apply elem_of_seq. lia.
Qed.

(** C4 as stated fails in both directions: a reference that is never
    cited is a node, and a cited id outside the reference list is not. *)
Lemma C4_counterexample :
  let refs := [mkReference (Some [lit "Smith"]) None None None] in
  extract_citations (lit "") refs = Ok []
  ∧ lit "1" ∈ nodes (build_graph [] refs)
  ∧ (∀ cits, extract_citations (lit "See [7].") refs = Ok cits →
       (∃ c, c ∈ cits ∧ reference_id c = lit "7")
       ∧ lit "7" ∉ nodes (build_graph cits refs)).
Proof.
  split; [reflexivity|]. split.
  - rewrite nodes_build_graph. simpl. set_solver.
  - intros cits Hc. vm_compute in Hc. injection Hc as <-. split.
    + eexists. split; [apply list_elem_of_here|reflexivity].
    + rewrite nodes_build_graph. simpl. set_solver.
Qed.

(** ** Dictionaries of counters *)

Section counters.
Context {K : Type} `{EqDecision K}.
Implicit Types (k : K) (d : list (K * nat)).

Lemma dget_incr_same k d : dget k (dict_incr k d) = S (dget k d).
Proof.
  induction d as [|[k' n] d IH]; cbn [dget dict_incr].
  - by rewrite decide_True.
  - destruct (decide (k = k')) as [->|Hne]; cbn [dget].
    + rewrite decide_True by done. lia.
    + by rewrite decide_False.
Qed.

Lemma dget_incr_other k k' d : k ≠ k' → dget k' (dict_incr k d) = dget k' d.
Proof.
  intros Hne. induction d as [|[k1 n] d IH]; cbn [dget dict_incr].
  - by rewrite decide_False.
  - destruct (decide (k = k1)) as [->|Hne1]; cbn [dget].
    + by rewrite !decide_False by done.
    + destruct (decide (k' = k1)); done.
Qed.

Lemma keys_incr k d :
  map fst (dict_incr k d)
  = if decide (k ∈ map fst d) then map fst d else map fst d ++ [k].
Proof.
  induction d as [|[k1 n] d IH]; cbn [dict_incr map fst].
  - rewrite decide_False; [done|]. apply not_elem_of_nil.
  - destruct (decide (k = k1)) as [->|Hne]; cbn [map fst].
    + rewrite decide_True; [done|]. apply list_elem_of_here.
    + rewrite IH. destruct (decide (k ∈ map fst d)) as [Hin|Hnin].
      * rewrite decide_True; [done|]. by apply list_elem_of_further.
      * rewrite decide_False; [done|].
        intros Hin. apply elem_of_cons in Hin as [?|?]; done.
Qed.

Lemma keys_incr_NoDup k d : NoDup (map fst d) → NoDup (map fst (dict_incr k d)).
Proof.
  intros Hnd. rewrite keys_incr. case_decide; [done|].
  apply NoDup_app. split; [done|]. split.
  - intros x Hx Hk. apply list_elem_of_singleton in Hk as ->. done.
  - apply NoDup_singleton.
Qed.

Lemma sum_incr k d :
  list_sum (map snd (dict_incr k d)) = S (list_sum (map snd d)).
Proof.
  induction d as [|[k1 n] d IH]; cbn [dict_incr]; [done|].
  case_decide; simpl in *; [lia|]. rewrite IH. lia.
Qed.

Lemma dget_elem k n d : NoDup (map fst d) → (k, n) ∈ d → dget k d = n.
Proof.
  induction d as [|[k1 n1] d IH]; cbn [dget map fst]; intros Hnd Hin.
  - by apply elem_of_nil in Hin.
  - apply NoDup_cons in Hnd as [Hk1 Hnd].
    apply elem_of_cons in Hin as [Heq|Hin].
    + injection Heq as <- <-. by rewrite decide_True.
    + rewrite decide_False; [by apply IH|]. intros <-. apply Hk1.
      apply list_elem_of_fmap. by exists (k, n).
Qed.

Lemma elem_dget k d : k ∈ map fst d → (k, dget k d) ∈ d.
Proof.
  induction d as [|[k1 n1] d IH]; cbn [dget map fst]; intros Hin.
  - by apply elem_of_nil in Hin.
  - destruct (decide (k = k1)) as [->|Hne]; [apply list_elem_of_here|].
    apply list_elem_of_further, IH.
    apply elem_of_cons in Hin as [?|?]; done.
Qed.

(** The loop that fills a dictionary of counters from a list of keys. *)
Lemma dget_fold k (l : list K) d :
  dget k (fold_left (λ d x, dict_incr x d) l d)
  = dget k d + length (filter (λ x, x = k) l).
Proof.
  revert d. induction l as [|x l IH]; intros d; simpl; [lia|].
  rewrite IH. destruct (decide (x = k)) as [->|Hne].
  - rewrite dget_incr_same, filter_cons_True by done. simpl. lia.
  - rewrite dget_incr_other, filter_cons_False by done. done.
Qed.

Lemma keys_fold_NoDup (l : list K) d :
  NoDup (map fst d) → NoDup (map fst (fold_left (λ d x, dict_incr x d) l d)).
Proof.
  revert d. induction l as [|x l IH]; intros d Hd; simpl; [done|].
  by apply IH, keys_incr_NoDup.
Qed.

Lemma keys_fold k (l : list K) d :
  k ∈ map fst (fold_left (λ d x, dict_incr x d) l d)
  ↔ k ∈ map fst d ∨ k ∈ l.
Proof.
  revert d. induction l as [|x l IH]; intros d; simpl.
  - rewrite elem_of_nil. tauto.
  - rewrite IH, keys_incr, elem_of_cons. case_decide.
    + split; [tauto|]. intros [?|[->|?]]; auto.
    + rewrite elem_of_app, list_elem_of_singleton. tauto.
Qed.

Lemma sum_fold (l : list K) d :
  list_sum (map snd (fold_left (λ d x, dict_incr x d) l d))
  = list_sum (map snd d) + length l.
Proof.
  revert d. induction l as [|x l IH]; intros d; simpl; [lia|].
  rewrite IH, sum_incr. lia.
Qed.

End counters.

(** ** The concentration detector *)

Lemma citation_counts_fold cits :
  citation_counts cits
  = fold_left (λ d x, dict_incr x d) (map reference_id cits) [].
Proof.
  unfold citation_counts. generalize (@nil (str * nat)).
  induction cits as [|c cits IH]; intros d; simpl; [done|]. apply IH.
Qed.

Lemma cited_filter cits r :
  cited cits r = length (filter (λ x, x = r) (map reference_id cits)).
Proof.
  unfold cited. induction cits as [|c cits IH]; simpl; [done|].
  destruct (decide (reference_id c = r)) as [Heq|Hne].
  - rewrite !filter_cons_True by done. simpl. by rewrite IH.
  - rewrite !filter_cons_False by done. done.
Qed.

Lemma citation_counts_get cits r : dget r (citation_counts cits) = cited cits r.
Proof. by rewrite citation_counts_fold, dget_fold, cited_filter. Qed.

Lemma citation_counts_keys cits r :
  r ∈ map fst (citation_counts cits) ↔ r ∈ map reference_id cits.
Proof.
  rewrite citation_counts_fold, keys_fold. simpl. rewrite elem_of_nil. tauto.
Qed.

Lemma citation_counts_NoDup cits : NoDup (map fst (citation_counts cits)).
Proof. rewrite citation_counts_fold. apply keys_fold_NoDup, NoDup_nil_2. Qed.

Lemma citation_counts_entry cits r n :
  (r, n) ∈ citation_counts cits ↔ r ∈ map reference_id cits ∧ n = cited cits r.
Proof.
  split.
  - intros Hin. split.
    + apply citation_counts_keys, list_elem_of_fmap. by exists (r, n).
    + rewrite <- citation_counts_get. symmetry.
      apply dget_elem; [apply citation_counts_NoDup|done].
  - intros [Hr ->]. rewrite <- citation_counts_get.
    by apply elem_dget, citation_counts_keys.
Qed.

(** The sum of the counters is the number of citations. *)
Lemma citation_counts_sum cits :
  list_sum (map snd (citation_counts cits)) = length cits.
Proof. rewrite citation_counts_fold, sum_fold. simpl. by rewrite length_map. Qed.

Lemma le_list_max (l : list nat) (x : nat) : x ∈ l → x ≤ list_max l.
Proof.
  intros Hin. assert (List.Forall (λ k, k ≤ list_max l) l) as Hall
    by (apply list_max_le; reflexivity).
  rewrite List.Forall_forall in Hall. by apply Hall, list_elem_of_In.
Qed.

Lemma list_max_bound (l : list nat) (n : nat) :
  (∀ x, x ∈ l → x ≤ n) → list_max l ≤ n.
Proof.
  intros Hall. apply list_max_le, List.Forall_forall.
  intros x Hx. by apply Hall, list_elem_of_In.
Qed.

(** The largest counter is the largest number of citations of a reference. *)
Lemma citation_counts_max cits :
  list_max (map snd (citation_counts cits)) = max_cited cits.
Proof.
  unfold max_cited. apply Nat.le_antisymm.
  - apply list_max_bound. intros n Hn.
    apply list_elem_of_fmap in Hn as ([r n'] & -> & Hin). simpl.
    apply citation_counts_entry in Hin as [Hr ->].
    apply list_elem_of_fmap in Hr as (c & -> & Hc).
    apply le_list_max, list_elem_of_fmap. by exists c.
  - apply list_max_bound. intros n Hn.
    apply list_elem_of_fmap in Hn as (c & -> & Hc).
    apply le_list_max, list_elem_of_fmap.
    exists (reference_id c, cited cits (reference_id c)).
    split; [done|]. apply citation_counts_entry.
    split; [|done]. apply list_elem_of_fmap. by exists c.
Qed.

(** The divisor of the concentration ratio is never 0. *)
Lemma citation_counts_total_pos cits :
  cits ≠ [] → 0 < list_sum (map snd (citation_counts cits)).
Proof.
  intros Hne. rewrite citation_counts_sum. destruct cits; [done|simpl; lia].
Qed.

Lemma citation_counts_nonempty cits : cits ≠ [] → citation_counts cits ≠ [].
Proof.
  intros Hne Heq. pose proof (citation_counts_total_pos cits Hne) as Hpos.
  rewrite Heq in Hpos. simpl in Hpos. lia.
Qed.

Lemma max_cited_pos cits : cits ≠ [] → 0 < max_cited cits.
Proof.
  destruct cits as [|c cits]; [done|]. intros _.
  apply Nat.lt_le_trans with (cited (c :: cits) (reference_id c)).
  - unfold cited. rewrite filter_cons_True by done. simpl. lia.
  - apply le_list_max, list_elem_of_fmap. exists c.
    split; [done|apply list_elem_of_here].
Qed.

(** The detector, with its dictionary replaced by the counts it holds. *)
Lemma detect_concentration_unfold g cits :
  cits ≠ [] →
  detect_concentration g cits =
  let share := (QN (max_cited cits) / QN (length cits))%Q in
  if Qlt_le_dec (3 # 10) share
  then Some (mkCitationPattern CitationConcentration
               (F "Abnormal concentration of citations on few references" [])
               (Qmin (share * (15 # 10)) 1)
               [F "Top reference(s) have {:.1%} of all citations" [ArgQ share];
                F "Max citations to single ref: {}/{}"
                  [ArgN (max_cited cits); ArgN (length cits)]]
               (map fst (filter (λ rc, rc.2 = max_cited cits)
                                (citation_counts cits))))
  else None.
Proof.
  intros Hne. unfold detect_concentration.
  pose proof (citation_counts_nonempty cits Hne) as Hcounts.
  rewrite citation_counts_max, citation_counts_sum.
  destruct cits as [|c cits']; [done|].
  destruct (citation_counts (c :: cits')); [done|]. reflexivity.
Qed.

Lemma top_refs_spec cits r :
  cits ≠ [] →
  r ∈ map fst (filter (λ rc, rc.2 = max_cited cits) (citation_counts cits))
  ↔ cited cits r = max_cited cits.
Proof.
  intros Hne. rewrite list_elem_of_fmap. split.
  - intros ([r' n] & -> & Hin). apply list_elem_of_filter in Hin as [Hmax Hin].
    apply citation_counts_entry in Hin as [_ Hn]. simpl in *. congruence.
  - intros Hmax. exists (r, cited cits r). split; [done|].
    apply list_elem_of_filter. split; [done|].
    apply citation_counts_entry. split; [|done].
    pose proof (max_cited_pos cits Hne) as Hpos. rewrite <- Hmax in Hpos.
    unfold cited in Hpos.
    destruct (filter (λ c, reference_id c = r) cits) as [|c l] eqn:Hf;
      [simpl in Hpos; lia|].
    assert (c ∈ filter (λ c, reference_id c = r) cits) as Hc
      by (rewrite Hf; apply list_elem_of_here).
    apply list_elem_of_filter in Hc as [<- Hc].
    apply list_elem_of_fmap. by exists c.
Qed.

Lemma top_refs_NoDup cits :
  NoDup (map fst (filter (λ rc, rc.2 = max_cited cits) (citation_counts cits))).
Proof.
  pose proof (citation_counts_NoDup cits) as Hnd. revert Hnd.
  generalize (citation_counts cits). intros d.
  induction d as [|[r n] d IH]; simpl; intros Hnd; [apply NoDup_nil_2|].
  apply NoDup_cons in Hnd as [Hr Hnd].
  destruct (decide (n = max_cited cits)) as [Heq|Hneq].
  - rewrite filter_cons_True by done. simpl. apply NoDup_cons. split; [|auto].
    intros Hin. apply Hr. apply list_elem_of_fmap in Hin as (x & -> & Hx).
    apply list_elem_of_filter in Hx as [_ Hx].
    apply list_elem_of_fmap. by exists x.
  - rewrite filter_cons_False by done. auto.
Qed.

(** C7: for a non-empty list of citations the concentration detector
    emits a pattern exactly when the largest share of one reference in
    the citations exceeds 0.3; the pattern is a [citation_concentration],
    it lists the references that reach the largest count, each once, and
    its suspicion score is [min(share * 1.5, 1.0)]. *)
Theorem C7_concentration g cits (Hne : cits ≠ []) :
  let share := (QN (max_cited cits) / QN (length cits))%Q in
  (is_Some (detect_concentration g cits) ↔ (3 # 10 < share)%Q)
  ∧ ∀ p, detect_concentration g cits = Some p →
      ptype p = CitationConcentration
      ∧ (∀ r, r ∈ affected_references p ↔ cited cits r = max_cited cits)
      ∧ NoDup (affected_references p)
      ∧ suspicion_score p = Qmin (share * (15 # 10)) 1.
Proof.
  intros share. rewrite (detect_concentration_unfold g cits Hne).
  cbv zeta. fold share. destruct (Qlt_le_dec (3 # 10) share) as [Hlt|Hle].
  - split.
    + split; [done|]. intros _. by eexists.
    + intros p [= <-]. simpl. split; [done|]. split; [|split; [|done]].
      * intros r. by apply top_refs_spec.
      * apply top_refs_NoDup.
  - split.
    + split; [intros [? [=]]|]. intros Hlt. by apply Qle_not_lt in Hle.
    + intros p [=].
Qed.

(** The two examples of the specification: counts 5,1,1,1,1 and
    2,2,2,2,2. *)
Lemma C7_witness :
  let cits := map cite ["1"; "1"; "1"; "1"; "1"; "2"; "3"; "4"; "5"]%string in
  cits ≠ []
  ∧ is_Some (detect_concentration empty_graph cits)
  ∧ ∀ p, detect_concentration empty_graph cits = Some p →
      affected_references p = [lit "1"] ∧ (suspicion_score p == 5 # 6)%Q.
Proof.
  intros cits. assert (cits ≠ []) as Hne by done. split; [done|].
  destruct (C7_concentration empty_graph cits Hne) as [Hiff Hp]. split.
  - apply Hiff. vm_compute. reflexivity.
  - intros p Hsome. destruct (Hp p Hsome) as (_ & _ & _ & Hs).
    rewrite Hs. vm_compute in Hsome. injection Hsome as <-. simpl.
    split; [reflexivity|]. vm_compute. reflexivity.
Defined.

Example concentration_even_counts :
  detect_concentration empty_graph
    (map cite ["1"; "2"; "3"; "4"; "5"; "1"; "2"; "3"; "4"; "5"]%string) = None.
Proof. vm_compute. reflexivity. Qed.

(** ** The graph: neighbours and ends of edges *)

Lemma neighbors_of_ends es x n :
  n ∈ neighbors_of es x → ∃ e, e ∈ es ∧ (n = e.1 ∨ n = e.2).
Proof.
  induction es as [|[a b] es IH]; simpl; intros Hin.
  - by apply elem_of_nil in Hin.
  - assert (n ∈ neighbors_of es x → ∃ e, e ∈ (a, b) :: es ∧ (n = e.1 ∨ n = e.2))
      as Hrest.
    { intros H'. destruct (IH H') as (e & He & Hn). exists e.
      split; [by apply list_elem_of_further|done]. }
    repeat case_decide; try (by apply Hrest);
      apply elem_of_cons in Hin as [->|Hin]; try (by apply Hrest);
      exists (a, b); (split; [apply list_elem_of_here|simpl; auto]).
Qed.

Lemma neighbors_endpoints g x n : n ∈ get_neighbors g x → n ∈ endpoints g.
Proof.
  intros Hin. apply neighbors_of_ends in Hin as (e & He & Hn).
  unfold endpoints. apply elem_of_list_to_set, list_elem_of_In, in_flat_map.
  exists e. split; [by apply list_elem_of_In|].
  destruct Hn as [->| ->]; simpl; auto.
Qed.

Lemma neighbors_of_edge es a b :
  (a, b) ∈ es → b ∈ neighbors_of es a ∧ a ∈ neighbors_of es b.
Proof.
  induction es as [|[c d] es IH]; intros Hin.
  - by apply elem_of_nil in Hin.
  - apply elem_of_cons in Hin as [Heq|Hin].
    + injection Heq as <- <-. simpl. rewrite decide_True by done. split.
      * apply list_elem_of_here.
      * destruct (decide (a = b)) as [->|Hne]; [apply list_elem_of_here|].
        rewrite decide_True by done. apply list_elem_of_here.
    + destruct (IH Hin) as [Hb Ha]. simpl.
      split; repeat case_decide; auto using list_elem_of_further.
Qed.

Lemma size_list_to_set_le (l : list str) :
  size (list_to_set l : gset str) ≤ length l.
Proof.
  induction l as [|x l IH].
  - rewrite list_to_set_nil, size_empty. done.
  - rewrite list_to_set_cons, size_union_alt, size_singleton.
    assert (size ((list_to_set l : gset str) ∖ {[x]})
            ≤ size (list_to_set l : gset str))
      by apply subseteq_size, subseteq_difference_l, reflexivity.
    simpl. lia.
Qed.

Lemma size_endpoints g : size (endpoints g) ≤ 2 * length (edges g).
Proof.
  unfold endpoints. etransitivity; [apply size_list_to_set_le|].
  generalize (edges g). intros es.
  induction es as [|e es IH]; simpl; lia.
Qed.

Lemma size_lt_by_element (X Y : gset str) (x : str) :
  X ⊆ Y → x ∈ Y → x ∉ X → size X < size Y.
Proof.
  intros Hsub Hy Hx. apply subset_size. split; [done|].
  intros Hyx. by apply Hx, Hyx.
Qed.

(** ** The ring search *)

Section ring.
Context `{SetOrder}.

Lemma ring_loop_total rec start vis ns :
  (∀ n, n ∈ ns → n ∉ vis → is_Some (rec n)) →
  ∀ max_ring, is_Some (ring_loop rec start vis max_ring ns).
Proof.
  induction ns as [|n ns IH]; intros Hrec max_ring; simpl; [by eexists|].
  assert (∀ m, is_Some (ring_loop rec start vis m ns)) as Hrest.
  { apply IH. intros n' Hn'. apply Hrec. by apply list_elem_of_further. }
  case_decide; [by eexists|]. case_decide; [|done].
  destruct (Hrec n) as [r ->]; [apply list_elem_of_here|done|done].
Qed.

(** The loop ends as soon as it meets the start node: the ring sizes
    found before are dropped. *)
Lemma ring_loop_start rec start vis ns :
  start ∈ ns →
  (∀ n, n ∈ ns → n ∉ vis → is_Some (rec n)) →
  ∀ max_ring, ring_loop rec start vis max_ring ns = Some (size vis + 1).
Proof.
  induction ns as [|n ns IH]; intros Hin Hrec max_ring; simpl.
  - by apply elem_of_nil in Hin.
  - case_decide; [done|].
    apply elem_of_cons in Hin as [->|Hin]; [done|].
    assert (∀ m, ring_loop rec start vis m ns = Some (size vis + 1)) as Hrest.
    { apply IH; [done|]. intros n' Hn'. apply Hrec.
      by apply list_elem_of_further. }
    case_decide; [|done].
    destruct (Hrec n) as [r ->]; [apply list_elem_of_here|done|done].
Qed.

(** Enough fuel gives a result: the nodes that can still be visited are
    ends of edges outside [visited]. *)
Lemma find_ring_size_fuel_total g start fuel :
  ∀ cur vis,
    size (endpoints g ∖ ({[cur]} ∪ vis)) < fuel →
    is_Some (find_ring_size_fuel fuel g start cur (Some vis)).
Proof.
  induction fuel as [|fuel IH]; intros cur vis Hlt; [lia|].
  cbn [find_ring_size_fuel default from_option]; unfold id. case_decide; [by eexists|].
  apply ring_loop_total. intros n Hn Hvis. apply IH.
  apply neighbors_endpoints in Hn.
  assert (size (endpoints g ∖ ({[n]} ∪ ({[cur]} ∪ vis)))
          < size (endpoints g ∖ ({[cur]} ∪ vis))) as Hsub
    by (apply size_lt_by_element with n; set_solver).
  lia.
Qed.

Lemma find_ring_size_self g a : find_ring_size g a a = 1.
Proof.
  unfold find_ring_size, ring_fuel. cbn [find_ring_size_fuel default from_option]; unfold id.
  rewrite decide_True by set_solver. apply (size_singleton (C:=gset str)).
Qed.

(** The first call of the search, on an edge between two distinct
    nodes, answers 3: the neighbours of [b] contain [a], and meeting the
    start node returns the two visited nodes plus one. *)
Lemma find_ring_size_edge g a b :
  a ≠ b → a ∈ get_neighbors g b → find_ring_size g a b = 3.
Proof.
  intros Hne Hin. unfold find_ring_size, ring_fuel.
  cbn [find_ring_size_fuel default from_option]; unfold id.
  rewrite decide_False by set_solver.
  rewrite ring_loop_start; [|done|].
  - cbn [default from_option]; unfold id.
    rewrite size_union by set_solver. by rewrite !size_singleton.
  - intros n Hn Hvis. apply find_ring_size_fuel_total.
    apply neighbors_endpoints in Hn. pose proof (size_endpoints g) as Hsz.
    assert (size (endpoints g ∖ ({[n]} ∪ ({[b]} ∪ {[a]})))
            < size (endpoints g)) as Hsub
      by (apply size_lt_by_element with n; set_solver).
    lia.
Qed.

End ring.

(** ** The cartel detector *)


Lemma elem_of_flat_map_intro {A B : Type} (f : A → list B) (l : list A) x y :
  x ∈ l → y ∈ f x → y ∈ flat_map f l.
Proof.
  intros Hx Hy. apply list_elem_of_In, in_flat_map. exists x.
  split; by apply list_elem_of_In.
Qed.

Lemma set_iter_elem `{SetOrder} (X : gset str) (x : str) :
  x ∈ set_iter X ↔ x ∈ X.
Proof. by rewrite (set_iter_perm X), elem_of_elements. Qed.

Lemma cartel_pattern_emitted `{SetOrder} g (a b : str) :
  a ∈ nodes g → b ∈ get_neighbors g a → a ∈ get_neighbors g b →
  find_ring_size g a b = 3 →
  cartel_pattern a b 3 ∈ detect_citation_cartels g.
Proof.
  intros Hnode Hb Ha Hring. unfold detect_citation_cartels.
  apply elem_of_flat_map_intro with a; [by apply set_iter_elem|].
  unfold cartels_of_node.
  apply elem_of_flat_map_intro with b; [done|].
  unfold cartels_of_neighbor. rewrite decide_True by done.
  rewrite Hring.
  rewrite decide_True by (unfold RECIPROCAL_CITATION_THRESHOLD; lia).
  apply list_elem_of_here.
Qed.




(** ** The graph builder: edges and their types *)

Lemma joins_sym a b e : joins a b e ↔ joins b a e.
Proof. unfold joins. tauto. Qed.

Lemma joins_ends a b e : joins a b e → ∀ e', joins e.1 e.2 e' ↔ joins a b e'.
Proof. intros [->| ->] e'; simpl; [done|apply joins_sym]. Qed.

Lemma filter_ext_iff {A : Type} (P Q : A → Prop)
    `{∀ x, Decision (P x)} `{∀ x, Decision (Q x)} (l : list A) :
  (∀ x, P x ↔ Q x) → filter P l = filter Q l.
Proof.
  intros HPQ. induction l as [|x l IH]; [done|].
  destruct (decide (P x)) as [HP|HP].
  - assert (Q x) as HQ by (by apply HPQ).
    rewrite (filter_cons_True P), (filter_cons_True Q) by done. by rewrite IH.
  - assert (¬ Q x) as HQ by (by rewrite <- HPQ).
    rewrite (filter_cons_False P), (filter_cons_False Q) by done. done.
Qed.

Lemma filter_none {A : Type} (P : A → Prop) `{∀ x, Decision (P x)}
    (l : list A) :
  (∀ x, x ∈ l → ¬ P x) → filter P l = [].
Proof.
  induction l as [|x l IH]; intros Hl; [done|].
  rewrite filter_cons_False by apply Hl, list_elem_of_here.
  apply IH. intros y Hy. by apply Hl, list_elem_of_further.
Qed.

Lemma only_co_citation_pair g p :
  only_co_citation g → only_co_citation (add_co_citation_pair g p).
Proof.
  intros Hg. destruct p as [a b]. unfold add_co_citation_pair.
  case_decide; [|done]. intros e ty. simpl.
  destruct (decide (e = (a, b))) as [->|Hne].
  - rewrite lookup_insert_eq. congruence.
  - rewrite lookup_insert_ne by done. apply Hg.
Qed.

Lemma only_co_citation_edges g cits :
  only_co_citation g → only_co_citation (add_co_citation_edges g cits).
Proof.
  unfold add_co_citation_edges. revert g.
  apply fold_left_preserves. intros g kv Hg. unfold add_co_citation_group.
  case_decide; [|done]. revert g Hg. apply fold_left_preserves.
  intros g p. apply only_co_citation_pair.
Qed.

Lemma edge_attributes_fold_add_node (l : list (str * Reference)) g :
  edge_attributes
    (fold_left (λ g kv, add_node g kv.1 (Some (attributes_of kv.2))) l g)
  = edge_attributes g.
Proof. revert g. induction l as [|kv l IH]; intros g; simpl; [done|]. by rewrite IH. Qed.

Lemma only_co_citation_alone g : only_co_citation g → coupling_alone g.
Proof. intros Hg e _ Hty. by apply Hg in Hty. Qed.

Lemma coupling_alone_pair g p :
  coupling_alone g → coupling_alone (add_coupling_pair g p).
Proof.
  intros Hg. destruct p as [a b]. unfold add_coupling_pair.
  case_decide; [|done]. case_decide as Hfree; [|done].
  destruct Hfree as [Hab Hba]. intros e. simpl.
  rewrite elem_of_app, list_elem_of_singleton, filter_app, length_app.
  intros [He| ->] Hty.
  - assert (e ≠ (a, b)) as Hne by congruence.
    rewrite lookup_insert_ne in Hty by done.
    rewrite (Hg e He Hty). rewrite filter_cons_False, filter_nil; [done|].
    intros [Heq|Heq]; destruct e as [x y]; simpl in Heq;
      injection Heq as -> ->; done.
  - simpl. rewrite filter_cons_True by (by left). rewrite filter_nil.
    rewrite filter_none; [done|].
    intros x Hx [->| ->]; done.
Qed.

Lemma coupling_alone_edges g refs :
  coupling_alone g → coupling_alone (add_bibliographic_coupling_edges g refs).
Proof.
  unfold add_bibliographic_coupling_edges. revert g.
  apply fold_left_preserves. intros g kv Hg. unfold add_coupling_group.
  case_decide; [|done]. revert g Hg. apply fold_left_preserves.
  intros g p. apply coupling_alone_pair.
Qed.

Lemma coupling_alone_build_graph cits refs :
  coupling_alone (build_graph cits refs).
Proof.
  unfold build_graph.
  apply coupling_alone_edges, only_co_citation_alone, only_co_citation_edges.
  intros e ty. rewrite edge_attributes_fold_add_node. simpl.
  by rewrite lookup_empty.
Qed.

Lemma length_one_elem {A : Type} (l : list A) (x : A) :
  length l = 1 → x ∈ l → l = [x].
Proof.
  destruct l as [|y [|z l]]; simpl; intros Hlen Hin; try lia.
  by apply list_elem_of_singleton in Hin as ->.
Qed.

(** C6, as amended: between two references the graph of [build_graph]
    has at most one coupling edge, counting both orientations, and where
    it has one it has no co-citation edge. *)
Theorem C6_coupling_at_most_once cits refs (a b : str) :
  let g := build_graph cits refs in
  edge_count g Coupling a b ≤ 1
  ∧ (0 < edge_count g Coupling a b → edge_count g CoCitation a b = 0).
Proof.
  intros g. unfold edge_count, edges_of_type.
  destruct (filter (joins a b)
              (filter (λ e, edge_attributes g !! e = Some Coupling) (edges g)))
    as [|e l] eqn:Hf; [simpl; split; lia|].
  assert (e ∈ filter (joins a b)
            (filter (λ e, edge_attributes g !! e = Some Coupling) (edges g)))
    as He by (rewrite Hf; apply list_elem_of_here).
  rewrite <- Hf. clear Hf l.
  apply list_elem_of_filter in He as [Hj He].
  apply list_elem_of_filter in He as [Hty He].
  pose proof (coupling_alone_build_graph cits refs e He Hty) as Hone.
  rewrite (filter_ext_iff _ (joins a b)) in Hone by by apply joins_ends.
  assert (filter (joins a b) (edges g) = [e]) as Hall.
  { apply length_one_elem; [done|]. by apply list_elem_of_filter. }
  rewrite !list_filter_filter.
  rewrite (filter_ext_iff
             (λ x, joins a b x ∧ edge_attributes g !! x = Some Coupling)
             (λ x, edge_attributes g !! x = Some Coupling ∧ joins a b x))
    by (intros; tauto).
  rewrite (filter_ext_iff
             (λ x, joins a b x ∧ edge_attributes g !! x = Some CoCitation)
             (λ x, edge_attributes g !! x = Some CoCitation ∧ joins a b x))
    by (intros; tauto).
  rewrite <- !list_filter_filter, Hall.
  rewrite filter_cons_True by done.
  rewrite filter_cons_False by congruence. simpl. split; lia.
Qed.

(** C6 as stated fails for co-citation edges: a second citation of [1]
    in the sentence adds the edge (2, 1) to the edge (1, 2). *)
Lemma C6_counterexample :
  let refs := [reference "Smith" 2020 "Journal A";
               reference "Jones" 2021 "Conference B"] in
  ∃ cits, extract_citations (lit "See [1] and [2] and [1].") refs = Ok cits
    ∧ edges (build_graph cits refs)
      = [(lit "1", lit "2"); (lit "1", lit "1"); (lit "2", lit "1")]
    ∧ edge_count (build_graph cits refs) CoCitation (lit "1") (lit "2") = 2.
Proof.
  intros refs. eexists. split; [vm_compute; reflexivity|].
  split; vm_compute; reflexivity.
Qed.

(** ** Scores *)

Lemma QN_nonneg n : (0 <= QN n)%Q.
Proof. unfold QN. rewrite <- (Zle_Qle 0). lia. Qed.

Lemma Qdiv_nonneg (a b : Q) : (0 <= a)%Q → (0 <= b)%Q → (0 <= a / b)%Q.
Proof.
  intros Ha Hb. unfold Qdiv.
  by apply Qmult_le_0_compat; [|apply Qinv_le_0_compat].
Qed.

Lemma in_unit_min (q : Q) : (0 <= q)%Q → in_unit (Qmin q 1).
Proof.
  intros Hq. split; [apply Q.min_glb; [done|lra]|apply Q.le_min_r].
Qed.

Section scores.
Context `{SetOrder}.

Lemma detect_clustering_in_unit g p :
  detect_clustering g = Some p → in_unit (suspicion_score p).
Proof.
  unfold detect_clustering. case_decide; [done|].
  destruct (fold_left _ _ _) as [tc nwn]. case_decide; [done|].
  destruct (Qlt_le_dec _ _) as [Hlt|]; [|done]. intros [= <-]. simpl.
  apply in_unit_min. unfold CLUSTER_DENSITY_THRESHOLD in Hlt. lra.
Qed.

Lemma detect_citation_cartels_shape g p :
  p ∈ detect_citation_cartels g → ∃ a b n, p = cartel_pattern a b n.
Proof.
  unfold detect_citation_cartels. intros Hin.
  apply list_elem_of_In, in_flat_map in Hin as (a & _ & Hin).
  apply in_flat_map in Hin as (b & _ & Hin).
  unfold cartels_of_neighbor in Hin. repeat case_decide; try done.
  destruct Hin as [<-|[]]. by eexists _, _, _.
Qed.

Lemma detect_citation_cartels_in_unit g p :
  p ∈ detect_citation_cartels g → in_unit (suspicion_score p).
Proof.
  intros Hin. apply detect_citation_cartels_shape in Hin as (a & b & n & ->).
  simpl. apply in_unit_min, Qdiv_nonneg; [apply QN_nonneg|lra].
Qed.

Lemma detect_concentration_in_unit g cits p :
  detect_concentration g cits = Some p → in_unit (suspicion_score p).
Proof.
  destruct (decide (cits = [])) as [->|Hne]; [done|].
  rewrite detect_concentration_unfold by done. cbv zeta.
  destruct (Qlt_le_dec _ _) as [Hlt|]; [|done]. intros [= <-]. simpl.
  apply in_unit_min. lra.
Qed.

Lemma detect_temporal_anomalies_in_unit clk t g p :
  (detect_temporal_anomalies clk t g).1 = Some p → in_unit (suspicion_score p).
Proof.
  unfold detect_temporal_anomalies. case_decide; [done|]. simpl.
  case_decide; [|done]. intros [= <-]. simpl. split; lra.
Qed.

(** The suspicion score of every pattern is clamped to the unit interval. *)
Lemma detect_patterns_in_unit clk t g cits p :
  p ∈ (detect_patterns clk t g cits).1 → in_unit (suspicion_score p).
Proof.
  unfold detect_patterns.
  destruct (detect_temporal_anomalies clk t g) as [tp t'] eqn:Htp. simpl.
  rewrite !elem_of_app. intros [[[Hin|Hin]|Hin]|Hin].
  - destruct (detect_clustering g) eqn:Hc; simpl in Hin;
      [|by apply elem_of_nil in Hin].
    apply list_elem_of_singleton in Hin as ->.
    by eapply detect_clustering_in_unit.
  - by eapply detect_citation_cartels_in_unit.
  - destruct (detect_concentration g cits) eqn:Hc; simpl in Hin;
      [|by apply elem_of_nil in Hin].
    apply list_elem_of_singleton in Hin as ->.
    by eapply detect_concentration_in_unit.
  - destruct tp; simpl in Hin; [|by apply elem_of_nil in Hin].
    apply list_elem_of_singleton in Hin as ->.
    apply (detect_temporal_anomalies_in_unit clk t g). by rewrite Htp.
Qed.

End scores.

Lemma calculate_citation_diversity_in_unit cits refs :
  in_unit (calculate_citation_diversity cits refs).
Proof.
  unfold calculate_citation_diversity. destruct refs as [|r refs].
  - split; lra.
  - set (v := Qmin _ 1). set (a := Qmin _ 1).
    assert (in_unit v) as [Hv0 Hv1]
      by (apply in_unit_min, Qdiv_nonneg; apply QN_nonneg).
    assert (in_unit a) as [Ha0 Ha1]
      by (apply in_unit_min, Qdiv_nonneg; apply QN_nonneg).
    split; lra.
Qed.

Lemma calculate_citation_risk_score_in_unit rate patterns density diversity :
  in_unit (calculate_citation_risk_score rate patterns density diversity).
Proof.
  unfold calculate_citation_risk_score. cbv zeta. apply in_unit_min.
  set (m := Qmin _ (4 # 10)).
  assert (0 <= m)%Q as Hm.
  { apply Q.min_glb; [|lra]. apply Qmult_le_0_compat; [apply QN_nonneg|lra]. }
  repeat destruct (Qlt_le_dec _ _); lra.
Qed.

Lemma calculate_network_density_nonneg g :
  (0 <= calculate_network_density g)%Q.
Proof.
  unfold calculate_network_density. repeat case_decide; try lra.
  apply Qdiv_nonneg; apply QN_nonneg.
Qed.

(** ** The analyzer *)

(** What a normal return of [analyze] holds. *)
Lemma analyze_Ok `{SetOrder} clk t text refs names r t' :
  analyze clk t text refs names = Ok (r, t') →
  ∃ cits n,
    extract_citations text refs = Ok cits
    ∧ count_self_citations cits refs (default [] names) = Ok n
    ∧ let g := build_graph cits refs in
      let patterns := (detect_patterns clk t g cits).1 in
      let rate := (QN n / QN (Nat.max (length cits) 1))%Q in
      total_citations r = length cits
      ∧ self_citations r = n
      ∧ self_citation_rate r = rate
      ∧ citation_network_density r = calculate_network_density g
      ∧ author_citation_diversity r = calculate_citation_diversity cits refs
      ∧ suspicious_patterns r = above (5 # 10) patterns
      ∧ risk_score r
        = calculate_citation_risk_score rate patterns
            (calculate_network_density g)
            (calculate_citation_diversity cits refs).
Proof.
  unfold analyze. destruct (extract_citations text refs) as [cits|e]; [|done].
  cbn [mbind outcome_bind].
  destruct (detect_patterns _ _ _ _) as [patterns t1] eqn:Hp.
  destruct (count_self_citations _ _ _) as [n|e] eqn:Hn; [|done].
  cbn [mbind outcome_bind].
  destruct (generate_recommendations _ _ _ _ _ _) as [recs t2].
  intros [= <- <-]. exists cits, n. rewrite Hp. simpl.
  repeat split; done.
Qed.

(** C1, as amended: in every result of [analyze] the diversity score,
    the composite risk score and the suspicion score of every pattern
    lie in [0.0, 1.0]; the self-citation rate and the network density
    are not negative. *)
Theorem C1_scores `{SetOrder} clk t text refs names r t' :
  analyze clk t text refs names = Ok (r, t') →
  in_unit (author_citation_diversity r)
  ∧ in_unit (risk_score r)
  ∧ (∀ p, p ∈ suspicious_patterns r → in_unit (suspicion_score p))
  ∧ (0 <= self_citation_rate r)%Q
  ∧ (0 <= citation_network_density r)%Q.
Proof.
  intros Hok. apply analyze_Ok in Hok as (cits & n & _ & _ & Hr).
  destruct Hr as (_ & _ & -> & -> & -> & -> & ->).
  split; [apply calculate_citation_diversity_in_unit|].
  split; [apply calculate_citation_risk_score_in_unit|].
  split; [|split].
  - intros p Hp. apply list_elem_of_filter in Hp as [_ Hp].
    by eapply detect_patterns_in_unit.
  - apply Qdiv_nonneg; apply QN_nonneg.
  - apply calculate_network_density_nonneg.
Qed.

Lemma C1_witness :
  match analyze (clock_in 2026) 0
          (lit "This study [1] builds upon previous work [2,3].")
          [reference "Smith" 2020 "Journal A";
           reference "Jones" 2021 "Conference B";
           reference "Brown" 2019 "Journal A"]
          (Some [lit "Researcher"]) with
  | Ok (r, _) =>
      in_unit (author_citation_diversity r)
      ∧ in_unit (risk_score r)
      ∧ (∀ p, p ∈ suspicious_patterns r → in_unit (suspicion_score p))
      ∧ (0 <= self_citation_rate r)%Q
      ∧ (0 <= citation_network_density r)%Q
  | Raise _ => False
  end.
Proof.
  destruct (analyze _ _ _ _ _) as [[r t']|e] eqn:Heq.
  - exact (C1_scores _ _ _ _ _ _ _ Heq).
  - vm_compute in Heq. discriminate Heq.
Defined.

(** C1 as stated fails for two of the five scores.  Two references by
    the manuscript's author and no citation give the self-citation rate
    2/max(0,1) = 2; four citations of two references in one context give
    six co-citation edges on two nodes, the density 6/2 = 3. *)
Lemma C1_counterexample :
  let refs := [reference "A Smith" 2020 "J"; reference "B Smith" 2020 "J"] in
  ((λ rt, self_citation_rate rt.1)
     <$> analyze (clock_in 2026) 0 (lit "") refs (Some [lit "Smith"])
   = Ok (2 # 1)%Q)
  ∧ ¬ in_unit (2 # 1)
  ∧ ((λ rt, citation_network_density rt.1)
       <$> analyze (clock_in 2026) 0 (lit "See [1,2,1,2].") refs
             (Some [lit "Smith"])
     = Ok (6 # 2)%Q)
  ∧ ¬ in_unit (6 # 2).
Proof.
  intros refs. split; [vm_compute; reflexivity|].
  split; [intros [_ Hle]; by apply Hle|].
  split; [vm_compute; reflexivity|].
  intros [_ Hle]; by apply Hle.
Qed.

(** ** Blank author names *)



(** C2 fails on the code: the empty string is an [author_names] entry
    that the claim names, and [analyze] raises [IndexError] on it; so it
    does on a reference whose author name is empty. *)
Theorem C2_analyze_raises_on_empty_name :
  let refs := [reference "Smith" 2020 "Journal A";
               reference "Jones" 2021 "Conference B";
               reference "Brown" 2019 "Journal A"] in
  let text := lit "This study [1] builds upon previous work [2,3]." in
  analyze (clock_in 2026) 0 text refs (Some [lit "Researcher"; lit ""])
  = Raise IndexError
  ∧ analyze (clock_in 2026) 0 text (refs ++ [reference "" 2018 "Journal C"])
      (Some [lit "Researcher"])
    = Raise IndexError.
Proof. split; vm_compute; reflexivity. Qed.

(** ** Empty inputs *)

Lemma count_self_citations_no_references cits names n :
  count_self_citations cits [] names = Ok n → n = 0.
Proof.
  unfold count_self_citations. destruct names as [|x names]; [congruence|].
  destruct (mapM last_name (x :: names)); [|done].
  cbn [mbind outcome_bind count_self_loop]. congruence.
Qed.

Lemma count_self_citations_no_names cits refs n :
  count_self_citations cits refs [] = Ok n → n = 0.
Proof. unfold count_self_citations. congruence. Qed.

Lemma rate_zero (d : Q) : (QN 0 / d == 0)%Q.
Proof. unfold Qdiv. apply Qmult_0_l. Qed.

(** C3, as amended: in every result that [analyze] returns for an empty
    reference list the density, the diversity and the self-citation rate
    are 0, whatever the text and the author names of that input; and in
    every result that it returns for an input without author names the
    self-citation rate is 0, whatever the references.  (It does not
    return when an author name has no word, see C2.) *)
Theorem C3_empty_inputs `{SetOrder} clk t text refs names r t' :
  analyze clk t text refs names = Ok (r, t') →
  (refs = [] →
     citation_network_density r = 0%Q
     ∧ author_citation_diversity r = 0%Q
     ∧ (self_citation_rate r == 0)%Q)
  ∧ (default [] names = [] → (self_citation_rate r == 0)%Q).
Proof.
  intros Hok. apply analyze_Ok in Hok as (cits & n & _ & Hn & Hr).
  destruct Hr as (_ & _ & -> & -> & -> & _). split.
  - intros ->. apply count_self_citations_no_references in Hn as ->.
    split; [|split; [done|apply rate_zero]].
    unfold calculate_network_density. rewrite nodes_build_graph.
    rewrite decide_True; [done|]. cbn [length seq map].
    rewrite list_to_set_nil, size_empty. lia.
  - intros Hnames. rewrite Hnames in Hn.
    apply count_self_citations_no_names in Hn as ->. apply rate_zero.
Qed.

Lemma C3_witness :
  match analyze (clock_in 2026) 0 (lit "See [1].") [] None with
  | Ok (r, _) =>
      citation_network_density r = 0%Q
      ∧ author_citation_diversity r = 0%Q
      ∧ (self_citation_rate r == 0)%Q
  | Raise _ => False
  end.
Proof.
  destruct (analyze _ _ _ _ _) as [[r t']|e] eqn:Heq.
  - destruct (C3_empty_inputs _ _ _ _ _ _ _ Heq) as [Hrefs _]. by apply Hrefs.
  - vm_compute in Heq. discriminate Heq.
Defined.

(** C3 as stated fails: with no citation marker in the text, two
    references of one venue by the manuscript's author give density 1/2,
    diversity 1/2 and self-citation rate 2. *)
Lemma C3_counterexample :
  let refs := [reference "A Smith" 2020 "J"; reference "B Smith" 2020 "J"] in
  extract_citations (lit "No marker here.") refs = Ok []
  ∧ (λ rt, (citation_network_density rt.1, author_citation_diversity rt.1,
            self_citation_rate rt.1))
      <$> analyze (clock_in 2026) 0 (lit "No marker here.") refs
            (Some [lit "Smith"])
    = Ok (1 # 2, 400 # 800, 2 # 1)%Q.
Proof. intros refs. split; vm_compute; reflexivity. Qed.

(** ** Two runs *)

Section two_runs.
Context `{SetOrder}.
Variables clk1 clk2 : Clock.
Hypothesis same_year : ∀ n m, year (clk1 n) = year (clk2 m).

Lemma detect_temporal_anomalies_clock t1 t2 g :
  (detect_temporal_anomalies clk1 t1 g).1
  = (detect_temporal_anomalies clk2 t2 g).1.
Proof.
  unfold detect_temporal_anomalies. case_decide; [done|]. simpl.
  by rewrite (same_year t1 t2).
Qed.

Lemma detect_patterns_clock t1 t2 g cits :
  (detect_patterns clk1 t1 g cits).1 = (detect_patterns clk2 t2 g cits).1.
Proof.
  unfold detect_patterns.
  pose proof (detect_temporal_anomalies_clock t1 t2 g) as Htp.
  destruct (detect_temporal_anomalies clk1 t1 g) as [p1 u1].
  destruct (detect_temporal_anomalies clk2 t2 g) as [p2 u2].
  simpl in *. by subst.
Qed.

Lemma recent_years_clock keys :
  ∀ t1 t2, (recent_years clk1 t1 keys).1 = (recent_years clk2 t2 keys).1.
Proof.
  induction keys as [|y keys IH]; intros t1 t2; simpl; [done|].
  pose proof (IH (S t1) (S t2)) as Hrest.
  destruct (recent_years clk1 (S t1) keys) as [ys1 u1].
  destruct (recent_years clk2 (S t2) keys) as [ys2 u2].
  simpl in *. subst. by rewrite (same_year t1 t2).
Qed.

Lemma generate_recommendations_clock t1 t2 rate patterns diversity dist :
  (generate_recommendations clk1 t1 rate patterns diversity dist).1
  = (generate_recommendations clk2 t2 rate patterns diversity dist).1.
Proof.
  unfold generate_recommendations. destruct dist as [|kv dist]; [done|].
  pose proof (recent_years_clock (map fst (kv :: dist)) t1 t2) as Hrec.
  destruct (recent_years clk1 t1 _) as [ys1 u1].
  destruct (recent_years clk2 t2 _) as [ys2 u2].
  simpl in Hrec. by subst.
Qed.

(** C9: two calls of [analyze] on the same text, references and author
    names, at any two times of one year, end alike: either both raise the
    same exception, or they return results that are equal in every field
    except the time of the analysis. *)
Theorem C9_two_runs t1 t2 text refs names :
  erase_timestamp <$> analyze clk1 t1 text refs names
  = erase_timestamp <$> analyze clk2 t2 text refs names.
Proof.
  unfold analyze. destruct (extract_citations text refs) as [cits|e]; [|done].
  cbn [mbind outcome_bind].
  pose proof (detect_patterns_clock t1 t2 (build_graph cits refs) cits) as Hp.
  destruct (detect_patterns clk1 t1 _ _) as [p1 u1].
  destruct (detect_patterns clk2 t2 _ _) as [p2 u2].
  simpl in Hp. subst p2.
  destruct (count_self_citations _ _ _) as [n|e]; [|done].
  cbn [mbind outcome_bind].
  match goal with
  | |- context [generate_recommendations clk1 u1 ?r ?p ?d ?td] =>
      pose proof (generate_recommendations_clock u1 u2 r p d td) as Hr
  end.
  destruct (generate_recommendations clk1 u1 _ _ _ _) as [r1 v1].
  destruct (generate_recommendations clk2 u2 _ _ _ _) as [r2 v2].
  simpl in Hr. subst r2. reflexivity.
Qed.

End two_runs.

Lemma C9_witness :
  let refs := [reference "Smith" 2015 "Journal A";
               reference "Jones" 2016 "Conference B";
               reference "Brown" 2014 "Journal A";
               reference "Green" 2013 "Journal C";
               reference "White" 2012 "Journal D"] in
  let text := lit "This study [1] builds upon previous work [2,3]." in
  (∀ n m, year (clock_in 2026 n) = year (clock_later 2026 m))
  ∧ erase_timestamp <$> analyze (clock_in 2026) 0 text refs None
    = erase_timestamp <$> analyze (clock_later 2026) 7 text refs None
  ∧ analysis_timestamp ∘ fst <$> analyze (clock_in 2026) 0 text refs None
    ≠ analysis_timestamp ∘ fst <$> analyze (clock_later 2026) 7 text refs None.
Proof.
  intros refs text.
  assert (∀ n m, year (clock_in 2026 n) = year (clock_later 2026 m)) as Hy
    by (intros; reflexivity).
  split; [done|]. split.
  - exact (C9_two_runs (clock_in 2026) (clock_later 2026) Hy 0 7 text refs None).
  - vm_compute. discriminate.
Defined.

(** ** The matcher *)

(** A result of the matcher is a result of its continuation. *)
Lemma star_loop_result {A : Type}
    (body : str → option str → (str → option str → option A) → option A)
    (k : str → option str → option A) (x : A) :
  (∀ s g K, body s g K = Some x → ∃ s' g', K s' g' = Some x) →
  ∀ n s g, star_loop body k n s g = Some x → ∃ s' g', k s' g' = Some x.
Proof.
  intros Hbody n. induction n as [|n IH]; intros s g; simpl.
  - intros Hk. by exists s, g.
  - destruct (body s g _) as [y|] eqn:Hb.
    + intros [= ->]. apply Hbody in Hb as (s' & g' & Hk).
      case_decide; [|done]. by apply IH in Hk.
    + intros Hk. by exists s, g.
Qed.

Lemma exec_result {A : Type} (r : regex) (x : A) :
  ∀ s g k, exec r s g k = Some x → ∃ s' g', k s' g' = Some x.
Proof.
  induction r as [p| |r1 IH1 r2 IH2|r IH|r IH]; intros s g k; simpl.
  - destruct s as [|c s]; [done|]. destruct (p c); [|done]. by exists s, g.
  - by exists s, g.
  - intros Hx. apply IH1 in Hx as (s1 & g1 & Hx). by apply IH2 in Hx.
  - apply star_loop_result. intros s0 g0 K. apply IH.
  - intros Hx. apply IH in Hx as (s1 & g1 & Hx). by eexists _, _.
Qed.

Lemma match_at_start r pos s m : match_at r pos s = Some m → m_start m = pos.
Proof.
  unfold match_at. intros Hm.
  apply exec_result in Hm as (s' & g' & [= <-]). done.
Qed.

(** The matches of [finditer] start at strictly increasing offsets. *)
Lemma scan_sorted r s :
  ∀ pos skip,
    StronglySorted (λ m1 m2, m_start m1 < m_start m2) (scan r pos skip s)
    ∧ Forall (λ m, pos ≤ m_start m) (scan r pos skip s).
Proof.
  induction s as [|c s IH]; intros pos skip; simpl.
  - destruct skip; [|split; constructor].
    destruct (match_at r pos []) as [m|] eqn:Hm; [|split; constructor].
    apply match_at_start in Hm. split; repeat constructor. lia.
  - assert (∀ k, Forall (λ m, pos ≤ m_start m) (scan r (S pos) k s)) as Hweak.
    { intros k. destruct (IH (S pos) k) as [_ Hall].
      eapply Forall_impl; [exact Hall|]. simpl. intros; lia. }
    destruct skip as [|k]; [|split; [apply IH|apply Hweak]].
    destruct (match_at r pos (c :: s)) as [m|] eqn:Hm;
      [|split; [apply IH|apply Hweak]].
    apply match_at_start in Hm.
    destruct (IH (S pos) (m_end m - pos - 1)) as [Hs Hall]. split.
    + constructor; [done|]. apply List.Forall_forall. intros m' Hm'.
      rewrite List.Forall_forall in Hall. apply Hall in Hm'. lia.
    + constructor; [lia|apply Hweak].
Qed.

(** ** Loops that may raise *)

Lemma mapM_Ok {A B : Type} (f : A → outcome B) (l : list A) (ys : list B) :
  mapM f l = Ok ys → Forall2 (λ x y, f x = Ok y) l ys.
Proof.
  revert ys. induction l as [|x l IH]; intros ys; simpl.
  - intros [= <-]. constructor.
  - destruct (f x) as [y|e] eqn:Hx; [|done]. cbn [mbind outcome_bind].
    destruct (mapM f l) as [ys'|e]; [|done]. cbn [mbind outcome_bind].
    intros [= <-]. constructor; auto.
Qed.

Lemma mapM_Ok_Forall {A B : Type} (f : A → outcome B) (P : B → Prop)
    (l : list A) (ys : list B) :
  mapM f l = Ok ys → (∀ x y, x ∈ l → f x = Ok y → P y) → Forall P ys.
Proof.
  intros Hys%mapM_Ok HP. induction Hys as [|x y l ys Hxy _ IH].
  - constructor.
  - constructor; [eapply HP; [apply list_elem_of_here|done]|].
    apply IH. intros x' y' Hx'. apply HP. by apply list_elem_of_further.
Qed.

Lemma fmap_Ok {A B : Type} (f : A → B) (m : outcome A) (y : B) :
  f <$> m = Ok y → ∃ x, m = Ok x ∧ y = f x.
Proof. destruct m as [x|e]; [|done]. intros [= <-]. by exists x. Qed.

(** ** The extractor: order of the citations *)

Lemma citations_of_match_shape sentences i s m cs :
  citations_of_match sentences i s m = Ok cs →
  Forall (λ c, position c = m_start m ∧ sentence c = s) cs.
Proof.
  unfold citations_of_match. destruct (group1 m) as [g|e]; [|done].
  cbn [mbind outcome_bind].
  destruct (parse_reference_ids g) as [ids|e]; [|done].
  cbn [mbind outcome_bind]. intros [= <-].
  apply List.Forall_forall. intros c Hc.
  apply List.in_map_iff in Hc as (id & <- & _). done.
Qed.

Lemma blocks_bounded (ms : list match_obj)
    (css : list (list ExtractedCitation)) (b : nat) :
  Forall2 (λ m cs, Forall (λ c, position c = m_start m) cs) ms css →
  Forall (λ m, b ≤ m_start m) ms →
  Forall (λ c, b ≤ position c) (concat css).
Proof.
  intros Hall. induction Hall as [|m cs ms css Hm Hall IH]; simpl.
  - constructor.
  - intros Hb. apply Forall_cons in Hb as [Hb Hbs]. apply Forall_app. split.
    + eapply Forall_impl; [exact Hm|]. simpl. intros; lia.
    + by apply IH.
Qed.

Lemma blocks_by_position (ms : list match_obj)
    (css : list (list ExtractedCitation)) :
  StronglySorted (λ m1 m2, m_start m1 < m_start m2) ms →
  Forall2 (λ m cs, Forall (λ c, position c = m_start m) cs) ms css →
  by_position (concat css).
Proof.
  intros Hs Hall. induction Hall as [|m cs ms css Hm Hall IH]; simpl.
  - constructor.
  - apply StronglySorted_inv in Hs as [Hs Hlt].
    assert (Forall (λ c, m_start m ≤ position c) (concat css)) as Hrest.
    { apply (blocks_bounded ms); [done|].
      eapply Forall_impl; [exact Hlt|]. simpl. intros; lia. }
    specialize (IH Hs). unfold by_position in *. clear Hall.
    induction Hm as [|c cs' Hc Hm IHm]; simpl; [done|].
    constructor; [apply IHm|]. apply Forall_app. split.
    + eapply Forall_impl; [exact Hm|]. simpl. intros; lia.
    + eapply Forall_impl; [exact Hrest|]. simpl. intros; lia.
Qed.

(** One pattern in one sentence: the citations are ordered by position. *)
Lemma citations_of_sentence_by_position pattern sentences i s cs :
  citations_of_sentence pattern sentences i s = Ok cs →
  by_position cs ∧ Forall (λ c, sentence c = s) cs.
Proof.
  unfold citations_of_sentence. intros Hcs.
  apply fmap_Ok in Hcs as (css & Hcss & ->). apply mapM_Ok in Hcss.
  split.
  - apply (blocks_by_position (finditer pattern s)).
    + apply scan_sorted.
    + eapply Forall2_impl; [exact Hcss|]. simpl. intros m cs Hm.
      apply citations_of_match_shape in Hm.
      eapply Forall_impl; [exact Hm|]. simpl. tauto.
  - apply Forall_concat. apply (Forall2_Forall_r _ _ _ _ Hcss).
    apply Forall_true. intros m cs Hm. apply citations_of_match_shape in Hm.
    eapply Forall_impl; [exact Hm|]. simpl. tauto.
Qed.

Lemma imap_pair_snd {A : Type} (l : list A) : map snd (imap pair l) = l.
Proof.
  assert (∀ k, map snd (imap (λ i x, (k + i, x)) l) = l) as Hk.
  { induction l as [|x l IH]; intros k; [done|].
    rewrite imap_cons_shift. simpl. f_equal. rewrite <- (IH (S k)) at 2.
    f_equal. apply imap_ext. intros i y _. f_equal. lia. }
  apply (Hk 0).
Qed.

(** ** Decimal numerals *)

Lemma uint_digits (d : Decimal.uint) :
  Forall (λ c, isdigit_char c = true)
         (list_ascii_of_string (NilEmpty.string_of_uint d)).
Proof. induction d; simpl; constructor; done. Qed.

Lemma uint_value (d : Decimal.uint) (acc : nat) :
  fold_left (λ acc c, 10 * acc + digit_value c)
            (list_ascii_of_string (NilEmpty.string_of_uint d)) acc
  = Nat.of_uint_acc d acc.
Proof.
  revert acc. induction d; intros acc; cbn [NilEmpty.string_of_uint
    list_ascii_of_string fold_left Nat.of_uint_acc]; [done|..];
    rewrite IHd, Nat.tail_mul_spec; f_equal;
    match goal with
    | |- context [digit_value ?c] =>
        let v := eval vm_compute in (digit_value c) in
        change (digit_value c) with v
    end; lia.
Qed.

Lemma to_uint_nonnil (n : nat) : Nat.to_uint n ≠ Decimal.Nil.
Proof.
  intros Hnil. pose proof (Unsigned.of_to n) as Hn. rewrite Hnil in Hn.
  simpl in Hn. subst n. discriminate Hnil.
Qed.

Lemma str_of_nat_unfold (n : nat) :
  str_of_nat n
  = list_ascii_of_string (NilEmpty.string_of_uint (Nat.to_uint n)).
Proof.
  unfold str_of_nat. pose proof (to_uint_nonnil n).
  by destruct (Nat.to_uint n).
Qed.

Lemma str_of_nat_digits (n : nat) : digits (str_of_nat n).
Proof.
  rewrite str_of_nat_unfold. split; [|apply uint_digits].
  pose proof (to_uint_nonnil n). by destruct (Nat.to_uint n).
Qed.

Lemma isdigit_digits (d : str) : digits d → isdigit d = true.
Proof.
  intros [Hne Hall]. destruct d as [|c d]; [done|].
  unfold isdigit. apply List.forallb_forall. intros x Hx.
  rewrite Forall_forall in Hall. by apply Hall, list_elem_of_In.
Qed.

Lemma int_value_str_of_nat (n : nat) : int_value (str_of_nat n) = n.
Proof.
  unfold int_value. rewrite str_of_nat_unfold, uint_value.
  apply Unsigned.of_to.
Qed.

(** [int] on a string of digits: the value, up to the limit. *)
Lemma int_short (d : str) :
  digits d → length d ≤ MAX_STR_DIGITS → int d = Ok (int_value d).
Proof.
  intros Hd Hlen. unfold int. rewrite isdigit_digits by done.
  by apply Nat.leb_le in Hlen as ->.
Qed.

Lemma int_long (d : str) : MAX_STR_DIGITS < length d → int d = Raise ValueError.
Proof.
  intros Hlen. unfold int. destruct (isdigit d); [|done].
  by apply Nat.leb_gt in Hlen as ->.
Qed.

Lemma int_Ok (d : str) (n : nat) :
  int d = Ok n → n = int_value d ∧ length d ≤ MAX_STR_DIGITS.
Proof.
  unfold int. destruct (isdigit d); [|done].
  destruct (length d <=? MAX_STR_DIGITS) eqn:Hlen; [|done].
  apply Nat.leb_le in Hlen. by intros [= <-].
Qed.

Lemma int_raises (d : str) (e : exn) : int d = Raise e → e = ValueError.
Proof.
  unfold int. destruct (isdigit d); [|by intros [= <-]].
  destruct (_ <=? _); [done|by intros [= <-]].
Qed.

(** [int(str(n)) == n], as long as [str(n)] is within the limit. *)
Lemma int_str_of_nat (n : nat) :
  length (str_of_nat n) ≤ MAX_STR_DIGITS → int (str_of_nat n) = Ok n.
Proof.
  intros Hlen. rewrite int_short by (done || apply str_of_nat_digits).
  by rewrite int_value_str_of_nat.
Qed.

(** ** Splitting and stripping *)

Lemma split_on_go_last sep cur w :
  sep ∉ w → split_on_go sep cur w = [rev cur ++ w].
Proof.
  revert cur. induction w as [|c w IH]; intros cur Hw; simpl.
  - by rewrite app_nil_r.
  - rewrite decide_False by (intros ->; apply Hw, list_elem_of_here).
    rewrite IH by (intros Hin; by apply Hw, list_elem_of_further).
    simpl. by rewrite <- app_assoc.
Qed.

Lemma split_on_go_piece sep cur w rest :
  sep ∉ w →
  split_on_go sep cur (w ++ sep :: rest)
  = (rev cur ++ w) :: split_on_go sep [] rest.
Proof.
  revert cur. induction w as [|c w IH]; intros cur Hw; simpl.
  - rewrite decide_True by done. by rewrite app_nil_r.
  - rewrite decide_False by (intros ->; apply Hw, list_elem_of_here).
    rewrite IH by (intros Hin; by apply Hw, list_elem_of_further).
    simpl. by rewrite <- app_assoc.
Qed.

Lemma digits_not_char (d : str) (c : ascii) :
  isdigit_char c = false → Forall (λ x, isdigit_char x = true) d → c ∉ d.
Proof.
  intros Hc Hd Hin. rewrite Forall_forall in Hd. apply Hd in Hin. congruence.
Qed.

Lemma spaces_not_char (w : str) (c : ascii) :
  isspace c = false → Forall (λ x, isspace x = true) w → c ∉ w.
Proof.
  intros Hc Hw Hin. rewrite Forall_forall in Hw. apply Hw in Hin. congruence.
Qed.

Lemma isdigit_not_space (c : ascii) : isdigit_char c = true → isspace c = false.
Proof.
  unfold isdigit_char, isspace. generalize (code c). intros n Hn.
  apply andb_true_iff in Hn as [H1 H2].
  apply Nat.leb_le in H1, H2.
  apply orb_false_iff. split; apply andb_false_iff.
  - right. apply Nat.leb_gt. lia.
  - right. apply Nat.leb_gt. lia.
Qed.

Lemma lstrip_spaces (w s : str) :
  Forall (λ x, isspace x = true) w → lstrip (w ++ s) = lstrip s.
Proof.
  induction 1 as [|c w Hc Hw IH]; simpl; [done|]. by rewrite Hc.
Qed.

Lemma lstrip_digits (d : str) : digits d → lstrip d = d.
Proof.
  intros [Hne Hall]. destruct d as [|c d]; [done|]. simpl.
  apply Forall_cons in Hall as [Hc _]. by rewrite (isdigit_not_space c).
Qed.

Lemma digits_rev (d : str) : digits d → digits (rev d).
Proof.
  intros [Hne Hall]. split.
  - intros Hrev. apply Hne. by rewrite <- (rev_involutive d), Hrev.
  - by apply Forall_rev.
Qed.

(** [(w + d).strip() == d] for white space [w] and digits [d]. *)
Lemma strip_spaces_digits (w d : str) :
  Forall (λ x, isspace x = true) w → digits d → strip (w ++ d) = d.
Proof.
  intros Hw Hd. unfold strip, rstrip.
  rewrite (lstrip_spaces w d Hw), (lstrip_digits d Hd).
  rewrite (lstrip_digits (rev d)) by (by apply digits_rev).
  apply rev_involutive.
Qed.

Lemma strip_digits (d : str) : digits d → strip d = d.
Proof. intros Hd. by apply (strip_spaces_digits [] d). Qed.

(** ** Reference ids of a marker *)

Lemma filter_all {A : Type} (P : A → Prop) `{∀ x, Decision (P x)}
    (l : list A) :
  Forall P l → filter P l = l.
Proof.
  induction 1 as [|x l Hx Hl IH]; [done|].
  by rewrite filter_cons_True, IH.
Qed.

Lemma digits_app (a b : str) : digits a → digits b → digits (a ++ b).
Proof.
  intros [Ha Hall] [_ Hbll]. split; [by destruct a|]. by apply Forall_app.
Qed.

Lemma digits_ne_char (d : str) (c : ascii) :
  isdigit_char c = false → digits d → Forall (λ x, x ≠ c) d.
Proof.
  intros Hc [_ Hd]. eapply Forall_impl; [exact Hd|]. simpl. congruence.
Qed.

(** The id string of a range marker yields the ids from the first number
    to the second. *)
Lemma parse_reference_ids_dash (a b : str) (n m : nat) :
  digits a → digits b → int a = Ok n → int b = Ok m →
  parse_reference_ids (a ++ "-"%char :: b)
  = Ok (map str_of_nat (seq n (m + 1 - n))).
Proof.
  intros Ha Hb Hn Hm.
  unfold parse_reference_ids, contains_char, remove_char.
  rewrite bool_decide_eq_true_2
    by (apply elem_of_app; right; apply list_elem_of_here).
  rewrite filter_app, filter_cons_False by (intros Hne; by apply Hne).
  rewrite !filter_all by (by apply digits_ne_char).
  rewrite isdigit_digits by (by apply digits_app). simpl andb. cbv iota.
  unfold split_on. rewrite split_on_go_piece
    by (apply digits_not_char; [done|apply Ha]).
  rewrite split_on_go_last by (apply digits_not_char; [done|apply Hb]).
  simpl rev. simpl app. rewrite Hn, Hm. reflexivity.
Qed.

Lemma spaced_id_no_char (c : ascii) (wd : str * str) :
  isdigit_char c = false → isspace c = false → spaced_id wd →
  c ∉ wd.1 ++ wd.2.
Proof.
  intros Hd Hs [Hw [_ Hdig]]. intros Hin. apply elem_of_app in Hin as [Hin|Hin].
  - by apply (spaces_not_char wd.1 c).
  - by apply (digits_not_char wd.2 c).
Qed.

Lemma list_body_no_dash (d1 : str) (rest : list (str * str)) :
  digits d1 → Forall spaced_id rest → "-"%char ∉ list_body d1 rest.
Proof.
  intros [_ Hd1] Hrest. unfold list_body. intros Hin.
  apply elem_of_app in Hin as [Hin|Hin].
  - by apply (digits_not_char d1 "-"%char).
  - apply list_elem_of_In, in_flat_map in Hin as (wd & Hwd & Hin).
    rewrite Forall_forall in Hrest.
    apply list_elem_of_In, Hrest in Hwd.
    apply list_elem_of_In, elem_of_cons in Hin as [Heq|Hin]; [done|].
    by apply (spaced_id_no_char "-"%char wd).
Qed.

Lemma split_on_list_body (d1 : str) (rest : list (str * str)) :
  ","%char ∉ d1 → Forall spaced_id rest →
  split_on_go ","%char [] (list_body d1 rest)
  = d1 :: map (λ wd, wd.1 ++ wd.2) rest.
Proof.
  intros Hd1 Hrest. revert d1 Hd1.
  induction Hrest as [|wd rest Hwd Hrest IH]; intros d1 Hd1.
  - unfold list_body. simpl. rewrite app_nil_r. by apply split_on_go_last.
  - change (list_body d1 (wd :: rest))
      with (d1 ++ ","%char :: list_body (wd.1 ++ wd.2) rest).
    rewrite split_on_go_piece by done. simpl rev. simpl app. f_equal.
    apply (IH (wd.1 ++ wd.2)). by apply spaced_id_no_char.
Qed.

Lemma strip_spaced_ids (l : list (str * str)) :
  Forall spaced_id l →
  filter (λ i, nonempty i) (map strip (map (λ wd, wd.1 ++ wd.2) l))
  = map snd l.
Proof.
  induction 1 as [|[w d] l [Hw Hd] Hl IH]; [done|]. simpl in Hw, Hd.
  cbn [map fst snd]. rewrite strip_spaces_digits by done.
  rewrite filter_cons_True by (destruct Hd as [Hne _]; by destruct d).
  by rewrite IH.
Qed.

(** The id string of a list marker yields the listed ids. *)
Lemma parse_reference_ids_list (d1 : str) (rest : list (str * str)) :
  digits d1 → Forall spaced_id rest →
  parse_reference_ids (list_body d1 rest) = Ok (d1 :: map snd rest).
Proof.
  intros Hd1 Hrest. unfold parse_reference_ids, contains_char.
  rewrite (bool_decide_eq_false_2 ("-"%char ∈ _))
    by (by apply list_body_no_dash).
  simpl andb. cbv iota.
  destruct rest as [|wd rest].
  - unfold list_body. simpl. rewrite app_nil_r.
    rewrite bool_decide_eq_false_2
      by (apply digits_not_char; [done|apply Hd1]).
    by rewrite strip_digits.
  - rewrite bool_decide_eq_true_2.
    2:{ unfold list_body. apply elem_of_app. right. simpl.
        apply list_elem_of_here. }
    unfold split_on. rewrite split_on_list_body;
      [|apply digits_not_char; [done|apply Hd1]|done].
    cbn [mret outcome_ret]. f_equal.
    rewrite map_cons, strip_digits by done.
    rewrite filter_cons_True by (destruct Hd1 as [Hne _]; by destruct d1).
    f_equal. by apply strip_spaced_ids.
Qed.

(** ** The matcher on markers *)

Lemma accepts_chr (p : ascii → bool) (c : ascii) (rest : str) :
  p c = true → accepts (Chr p) [c] rest.
Proof. intros Hc A k g x Hk. simpl. by rewrite Hc. Qed.

Lemma accepts_lit (c : ascii) (rest : str) : accepts (Lit c) [c] rest.
Proof. apply accepts_chr. by apply bool_decide_eq_true_2. Qed.

Lemma accepts_seq (r1 r2 : regex) (w1 w2 rest : str) :
  accepts r1 w1 (w2 ++ rest) → accepts r2 w2 rest →
  accepts (Seq r1 r2) (w1 ++ w2) rest.
Proof.
  intros H1 H2 A k g x Hk. simpl. rewrite <- app_assoc.
  apply H1. by apply H2.
Qed.

Lemma rejects_chr (p : ascii → bool) (rest : str) :
  stops p rest → rejects (Chr p) rest.
Proof.
  intros Hstop A k g. simpl. destruct rest as [|c rest]; [done|].
  simpl in Hstop. by rewrite Hstop.
Qed.

Lemma rejects_seq (r1 r2 : regex) (rest : str) :
  rejects r1 rest → rejects (Seq r1 r2) rest.
Proof. intros H1 A k g. simpl. apply H1. Qed.

(** The star takes the pieces [ws] one after the other and stops where
    its body matches nothing; [good] holds of what follows each piece. *)
Lemma star_loop_pieces {A : Type} (r : regex) (good : str → Prop)
    (k : str → option str → option A) (x : A) (rest : str) (g : option str)
    (ws : list str) :
  Forall (λ w, w ≠ []) ws →
  (∀ w t, w ∈ ws → good (w ++ t)) →
  good rest →
  (∀ w after, w ∈ ws → good after → accepts r w after) →
  rejects r rest →
  k rest g = Some x →
  ∀ n, length (concat ws ++ rest) ≤ n →
       star_loop (exec r) k n (concat ws ++ rest) g = Some x.
Proof.
  intros Hne Hgood Hrest Hacc Hrej Hk.
  induction ws as [|w ws IH]; intros n Hn.
  - simpl. destruct n as [|n]; simpl; [done|]. by rewrite Hrej.
  - apply Forall_cons in Hne as [Hw Hne]. simpl in *.
    rewrite <- app_assoc in *. destruct n as [|n].
    { rewrite length_app in Hn. destruct w; [done|simpl in Hn; lia]. }
    assert (good (concat ws ++ rest)) as Hafter.
    { destruct ws as [|w' ws']; [done|]. simpl. rewrite <- app_assoc.
      apply Hgood. apply list_elem_of_further, list_elem_of_here. }
    simpl. erewrite (Hacc w); [done|apply list_elem_of_here|done|].
    rewrite decide_True
      by (rewrite (length_app w); destruct w; [done|simpl; lia]).
    apply IH; [done| | |].
    + intros w' t Hw'. apply Hgood. by apply list_elem_of_further.
    + intros w' after Hw'. apply Hacc. by apply list_elem_of_further.
    + rewrite (length_app w) in Hn. destruct w; [done|simpl in Hn; lia].
Qed.

Lemma accepts_star (r : regex) (good : str → Prop) (ws : list str)
    (rest : str) :
  Forall (λ w, w ≠ []) ws →
  (∀ w t, w ∈ ws → good (w ++ t)) →
  good rest →
  (∀ w after, w ∈ ws → good after → accepts r w after) →
  rejects r rest →
  accepts (Star r) (concat ws) rest.
Proof.
  intros Hne Hgood Hrest Hacc Hrej A k g x Hk. simpl.
  by apply (star_loop_pieces r good).
Qed.

(** A class under the star, or the plus, takes the longest run. *)
Lemma accepts_star_chr (p : ascii → bool) (w rest : str) :
  Forall (λ c, p c = true) w → stops p rest → accepts (Star (Chr p)) w rest.
Proof.
  intros Hw Hstop.
  assert (w = concat (map (λ c, [c]) w)) as ->.
  { clear Hw. induction w as [|c w IH]; [done|]. simpl. by rewrite <- IH. }
  apply (accepts_star _ (λ _, True)); [|done|done| |].
  - apply Forall_fmap, Forall_true. done.
  - intros w' after Hw' _. apply list_elem_of_fmap in Hw' as (c & -> & Hc).
    apply accepts_chr. rewrite Forall_forall in Hw. by apply Hw.
  - by apply rejects_chr.
Qed.

Lemma accepts_plus_chr (p : ascii → bool) (w rest : str) :
  w ≠ [] → Forall (λ c, p c = true) w → stops p rest →
  accepts (Plus (Chr p)) w rest.
Proof.
  intros Hne Hw Hstop. destruct w as [|c w]; [done|].
  apply Forall_cons in Hw as [Hc Hw].
  apply (accepts_seq (Chr p) (Star (Chr p)) [c] w rest).
  - by apply accepts_chr.
  - by apply accepts_star_chr.
Qed.

(** A pattern of the form bracket, group, bracket on a marker. *)
Lemma match_at_bracketed (open close : ascii) (G : regex) (pos : nat)
    (body post : str) :
  accepts G body (close :: post) →
  match_at (Seqs [Lit open; Group G; Lit close]) pos
           (bracketed open close body post)
  = Some (MatchObj pos (pos + (length body + 2)) (Some body)).
Proof.
  intros HG. unfold match_at, bracketed. cbn [Seqs].
  cbn [exec Lit]. rewrite bool_decide_eq_true_2 by done.
  apply HG. rewrite bool_decide_eq_true_2 by done. f_equal.
  cbn [length]. rewrite !length_app. cbn [length]. f_equal.
  - lia.
  - f_equal. replace (length body + S (length post) - S (length post))
      with (length body) by lia.
    by rewrite take_app_length.
Qed.

(** ** Range and list markers *)

Lemma accepts_range_body (sn sm rest : str) :
  digits sn → digits sm → stops isdigit_char rest →
  accepts (Seqs [Plus digit; Lit "-"; Plus digit])
          (sn ++ "-"%char :: sm) rest.
Proof.
  intros [Hn Hnd] [Hm Hmd] Hrest. cbn [Seqs].
  apply (accepts_seq _ _ sn ("-"%char :: sm) rest).
  - by apply accepts_plus_chr.
  - apply (accepts_seq _ _ ["-"%char] sm rest); [apply accepts_lit|].
    by apply accepts_plus_chr.
Qed.

Lemma accepts_list_item (wd : str * str) (after : str) :
  spaced_id wd → stops isdigit_char after →
  accepts (Seqs [Lit ","; Star space; Plus digit])
          (","%char :: wd.1 ++ wd.2) after.
Proof.
  intros [Hw [Hd Hdd]] Hafter. cbn [Seqs].
  apply (accepts_seq _ _ [","%char] (wd.1 ++ wd.2) after); [apply accepts_lit|].
  apply accepts_seq.
  - apply accepts_star_chr; [done|].
    destruct wd.2 as [|c d]; [done|]. simpl.
    apply Forall_cons in Hdd as [Hc _]. by apply isdigit_not_space.
  - by apply accepts_plus_chr.
Qed.

Lemma accepts_list_body (d1 : str) (rest : list (str * str)) (post : str) :
  digits d1 → Forall spaced_id rest →
  accepts (Seq (Plus digit) (Star (Seqs [Lit ","; Star space; Plus digit])))
          (list_body d1 rest) ("]"%char :: post).
Proof.
  intros [Hd Hdd] Hrest. unfold list_body. rewrite flat_map_concat_map.
  apply accepts_seq.
  - apply accepts_plus_chr; [done|done|].
    destruct rest as [|wd rest]; simpl; done.
  - apply (accepts_star _ (stops isdigit_char)).
    + apply Forall_fmap, Forall_true. done.
    + intros w t Hw. apply list_elem_of_fmap in Hw as (wd & -> & _). done.
    + done.
    + intros w after Hw Hafter.
      apply list_elem_of_fmap in Hw as (wd & -> & Hwd).
      apply accepts_list_item; [|done].
      rewrite Forall_forall in Hrest. by apply Hrest.
    + cbn [Seqs]. apply rejects_seq, rejects_chr. done.
Qed.

(** The range pattern on a range marker, and the list pattern on a list
    marker: the match starts at the bracket and its group is the body. *)
Lemma match_at_range (a b : str) (pos : nat) (post : str) :
  digits a → digits b →
  match_at pattern_range pos (bracketed "[" "]" (a ++ "-"%char :: b) post)
  = Some (MatchObj pos (pos + (length (a ++ "-"%char :: b) + 2))
                   (Some (a ++ "-"%char :: b))).
Proof. intros Ha Hb. by apply match_at_bracketed, accepts_range_body. Qed.

Lemma match_at_list (d1 : str) (rest : list (str * str)) (pos : nat)
    (post : str) :
  digits d1 → Forall spaced_id rest →
  match_at pattern_list pos (bracketed "[" "]" (list_body d1 rest) post)
  = Some (MatchObj pos (pos + (length (list_body d1 rest) + 2))
                   (Some (list_body d1 rest))).
Proof. intros Hd Hrest. by apply match_at_bracketed, accepts_list_body. Qed.

(** The citations built from a match whose group parses to [ids]. *)
Lemma citations_of_match_ids sentences i s (m : match_obj) (g : str)
    (ids : list str) :
  m_group1 m = Some g → parse_reference_ids g = Ok ids →
  citations_of_match sentences i s m
  = Ok (map (λ id, mkExtractedCitation id (m_start m)
                     (extract_context sentences i 2) s (classify_citation s))
            ids).
Proof.
  intros Hg Hids. unfold citations_of_match, group1. rewrite Hg.
  cbn [mbind outcome_bind]. by rewrite Hids.
Qed.

(** The examples of the specification, through the whole extractor. *)
Example extract_range_marker :
  map reference_id <$> extract_citations (lit "As shown in [2-4].") []
  = Ok [lit "2"; lit "3"; lit "4"].
Proof. vm_compute. reflexivity. Qed.

Example extract_list_marker :
  map reference_id
    <$> extract_citations (lit "This study [1] builds upon previous work [2,3].") []
  = Ok [lit "1"; lit "2"; lit "3"].
Proof. vm_compute. reflexivity. Qed.

(** ** The matcher is sound *)

Lemma star_loop_sound {A : Type} (r : regex)
    (k : str → option str → option A) (x : A) :
  (∀ s g K, exec r s g K = Some x →
            ∃ w s' g', s = w ++ s' ∧ matches r w ∧ K s' g' = Some x) →
  ∀ n s g, star_loop (exec r) k n s g = Some x →
           ∃ w s' g', s = w ++ s' ∧ matches (Star r) w ∧ k s' g' = Some x.
Proof.
  intros Hbody n. induction n as [|n IH]; intros s g; simpl.
  - intros Hk. exists [], s, g. repeat split; [constructor|done].
  - destruct (exec r s g _) as [y|] eqn:Hb.
    + intros [= ->]. apply Hbody in Hb as (w1 & s1 & g1 & -> & Hw1 & Hk).
      case_decide; [|done]. apply IH in Hk as (w2 & s2 & g2 & -> & Hw2 & Hk).
      exists (w1 ++ w2), s2, g2. rewrite <- app_assoc.
      repeat split; [by constructor|done].
    + intros Hk. exists [], s, g. repeat split; [constructor|done].
Qed.

(** A result of the matcher comes from a word of the expression at the
    start of the input, and from the continuation on the rest. *)
Lemma exec_sound {A : Type} (r : regex) (x : A) :
  ∀ s g k, exec r s g k = Some x →
           ∃ w s' g', s = w ++ s' ∧ matches r w ∧ k s' g' = Some x.
Proof.
  induction r as [p| |r1 IH1 r2 IH2|r IH|r IH]; intros s g k; simpl.
  - destruct s as [|c s]; [done|]. destruct (p c) eqn:Hc; [|done].
    intros Hk. exists [c], s, g. repeat split; [by constructor|done].
  - intros Hk. exists [], s, g. repeat split; [constructor|done].
  - intros Hx. apply IH1 in Hx as (w1 & s1 & g1 & -> & Hw1 & Hx).
    apply IH2 in Hx as (w2 & s2 & g2 & -> & Hw2 & Hx).
    exists (w1 ++ w2), s2, g2. rewrite <- app_assoc.
    repeat split; [by constructor|done].
  - apply star_loop_sound. intros s0 g0 K. apply IH.
  - intros Hx. apply IH in Hx as (w & s' & g' & -> & Hw & Hx).
    eexists w, s', _. repeat split; [by constructor|exact Hx].
Qed.

(** A match of a pattern of the form bracket, group, bracket. *)
Lemma match_at_bracketed_inv (open close : ascii) (G : regex) (pos : nat)
    (s : str) (m : match_obj) :
  match_at (Seqs [Lit open; Group G; Lit close]) pos s = Some m →
  ∃ w post,
    s = bracketed open close w post ∧ matches G w
    ∧ m = MatchObj pos (pos + (length w + 2)) (Some w).
Proof.
  unfold match_at. cbn [Seqs]. cbn [exec Lit].
  destruct s as [|a s1]; [done|]. case_bool_decide as Ha; [subst a|done].
  intros Hm. apply exec_sound in Hm as (w & s' & g' & -> & Hw & Hm).
  destruct s' as [|c post]; [done|].
  case_bool_decide as Hc; [subst c|done]. injection Hm as <-.
  exists w, post. split; [done|]. split; [done|].
  cbn [length]. rewrite !length_app. cbn [length]. f_equal.
  - lia.
  - f_equal. replace (length w + S (length post) - S (length post))
      with (length w) by lia.
    by rewrite take_app_length.
Qed.

Lemma matches_uses (r : regex) (w : str) :
  matches r w → ∀ c, c ∈ w → uses r c = true.
Proof.
  induction 1 as [p c Hc| |r1 r2 w1 w2 _ IH1 _ IH2| |r w1 w2 _ IH1 _ IH2
                  |r w _ IH]; intros c' Hin; simpl.
  - by apply list_elem_of_singleton in Hin as ->.
  - by apply elem_of_nil in Hin.
  - apply orb_true_iff. apply elem_of_app in Hin as [Hin|Hin]; auto.
  - by apply elem_of_nil in Hin.
  - apply elem_of_app in Hin as [Hin|Hin]; [by apply IH1|by apply IH2].
  - by apply IH.
Qed.

Lemma matches_chr_inv (p : ascii → bool) (w : str) :
  matches (Chr p) w → ∃ c, w = [c] ∧ p c = true.
Proof. inversion 1; subst. by eexists. Qed.

Lemma matches_seq_inv (r1 r2 : regex) (w : str) :
  matches (Seq r1 r2) w → ∃ w1 w2, w = w1 ++ w2 ∧ matches r1 w1 ∧ matches r2 w2.
Proof. inversion 1; subst. by eexists _, _. Qed.

Lemma matches_star_chr_inv (p : ascii → bool) (w : str) :
  matches (Star (Chr p)) w → Forall (λ c, p c = true) w.
Proof.
  intros Hm. remember (Star (Chr p)) as r eqn:Hr.
  induction Hm as [| | | |r' w1 w2 H1 _ _ IH2|]; try done.
  injection Hr as ->. apply matches_chr_inv in H1 as (c & -> & Hc).
  constructor; [done|]. by apply IH2.
Qed.

Lemma matches_plus_chr_inv (p : ascii → bool) (w : str) :
  matches (Plus (Chr p)) w → w ≠ [] ∧ Forall (λ c, p c = true) w.
Proof.
  intros Hm. apply matches_seq_inv in Hm as (w1 & w2 & -> & H1 & H2).
  apply matches_chr_inv in H1 as (c & -> & Hc).
  apply matches_star_chr_inv in H2. split; [done|]. by constructor.
Qed.

(** The words of the group of the range pattern. *)
Lemma matches_range_body (w : str) :
  matches (Seqs [Plus digit; Lit "-"; Plus digit]) w →
  ∃ a b, w = a ++ "-"%char :: b ∧ digits a ∧ digits b.
Proof.
  cbn [Seqs]. intros Hm.
  apply matches_seq_inv in Hm as (a & w2 & -> & Ha & Hm).
  apply matches_seq_inv in Hm as (d & b & -> & Hd & Hb).
  apply matches_chr_inv in Hd as (c & -> & Hc).
  apply bool_decide_eq_true_1 in Hc as ->.
  apply matches_plus_chr_inv in Ha, Hb. by exists a, b.
Qed.

(** ** The extractor, block by block *)

Lemma parse_reference_ids_no_dash (w : str) :
  "-"%char ∉ w → ∃ ids, parse_reference_ids w = Ok ids.
Proof.
  intros Hw. unfold parse_reference_ids, contains_char.
  rewrite (bool_decide_eq_false_2 ("-"%char ∈ w)) by done. simpl andb.
  cbv iota. case_bool_decide; by eexists.
Qed.

(** A match that the scanner reports is the match at one of the offsets
    of the string. *)
Lemma scan_offset (r : regex) (m : match_obj) (s : str) :
  ∀ pos skip, m ∈ scan r pos skip s →
    ∃ k, k ≤ length s ∧ match_at r (pos + k) (drop k s) = Some m.
Proof.
  induction s as [|c s IH]; intros pos skip; simpl.
  - destruct skip; [|by intros ?%elem_of_nil].
    destruct (match_at r pos []) as [m'|] eqn:Hm; [|by intros ?%elem_of_nil].
    intros ->%list_elem_of_singleton. exists 0. by rewrite Nat.add_0_r.
  - assert (Hrest : ∀ k', m ∈ scan r (S pos) k' s →
              ∃ k, k ≤ S (length s)
                   ∧ match_at r (pos + k) (drop k (c :: s)) = Some m).
    { intros k' (k & Hk & Hm)%IH. exists (S k). split; [lia|].
      by replace (pos + S k) with (S pos + k) by lia. }
    destruct skip as [|k']; [|apply Hrest].
    destruct (match_at r pos (c :: s)) as [m'|] eqn:Hm; [|apply Hrest].
    intros [->|Hin]%elem_of_cons; [|by eapply Hrest].
    exists 0. split; [lia|]. by rewrite Nat.add_0_r.
Qed.

(** A match starts with a word of the expression. *)
Lemma match_at_word (r : regex) (pos : nat) (s : str) (m : match_obj) :
  match_at r pos s = Some m →
  ∃ w rest, s = w ++ rest ∧ matches r w
            ∧ m_start m = pos ∧ m_end m = pos + length w.
Proof.
  unfold match_at. intros Hm.
  apply exec_sound in Hm as (w & rest & g & -> & Hw & [= <-]).
  exists w, rest. repeat split; [done|]. simpl. rewrite length_app. lia.
Qed.

Lemma scan_marker_at (r : regex) (m : match_obj) (s : str) :
  m ∈ finditer r s → marker_at r s (m_start m).
Proof.
  intros (k & _ & Hm)%scan_offset.
  apply match_at_word in Hm as (w & rest & Hs & Hw & -> & _).
  by exists w, rest.
Qed.

Lemma mapM_total {A B : Type} (f : A → outcome B) (l : list A) :
  (∀ x, x ∈ l → ∃ y, f x = Ok y) → ∃ ys, mapM f l = Ok ys.
Proof.
  induction l as [|x l IH]; intros Hf; simpl; [by eexists|].
  destruct (Hf x) as [y ->]; [apply list_elem_of_here|].
  destruct IH as [ys ->].
  { intros x' Hx'. by apply Hf, list_elem_of_further. }
  by eexists.
Qed.

(** A pattern whose group holds no dash never leads to [int]: its
    citations are always built. *)
Lemma citations_of_pattern_no_dash (open close : ascii) (G : regex)
    (sentences : list str) :
  uses G "-"%char = false →
  ∃ cs, citations_of_pattern sentences (Seqs [Lit open; Group G; Lit close])
        = Ok cs.
Proof.
  intros HG. unfold citations_of_pattern.
  destruct (mapM_total
              (λ '(i, sentence),
                 citations_of_sentence (Seqs [Lit open; Group G; Lit close])
                   sentences i sentence)
              (imap pair sentences)) as [blocks ->]; [|by eexists].
  intros [i s] _. unfold citations_of_sentence.
  destruct (mapM_total (citations_of_match sentences i s)
              (finditer (Seqs [Lit open; Group G; Lit close]) s))
    as [css ->]; [|by eexists].
  intros m (k & _ & Hm)%scan_offset.
  apply match_at_bracketed_inv in Hm as (w & post & _ & Hw & ->).
  destruct (parse_reference_ids_no_dash w) as [ids Hids].
  { intros Hin. apply (matches_uses _ _ Hw) in Hin. congruence. }
  eexists. by apply citations_of_match_ids with (g := w).
Qed.

(** Without a match of the range pattern [int] is not reached, and
    [extract_citations] returns. *)
Lemma extract_citations_no_range (text : str) (references : list Reference) :
  range_markers text = [] →
  ∃ cits, extract_citations text references = Ok cits.
Proof.
  intros Hnone. unfold extract_citations.
  destruct (mapM_total (citations_of_pattern (split_sentences text))
              CITATION_PATTERNS) as [per_pattern ->]; [|by eexists].
  intros pattern Hp. unfold CITATION_PATTERNS in Hp.
  repeat (apply elem_of_cons in Hp as [->|Hp]);
    [| |..|by apply elem_of_nil in Hp];
    try (by apply citations_of_pattern_no_dash).
  unfold citations_of_pattern.
  destruct (mapM_total
              (λ '(i, sentence),
                 citations_of_sentence pattern_range (split_sentences text)
                   i sentence)
              (imap pair (split_sentences text))) as [blocks ->];
    [|by eexists].
  intros [i s] His. unfold citations_of_sentence.
  assert (Hs : s ∈ split_sentences text).
  { rewrite <- (imap_pair_snd (split_sentences text)).
    apply list_elem_of_fmap. by exists (i, s). }
  assert (finditer pattern_range s = []) as ->; [|by eexists].
  unfold range_markers in Hnone.
  destruct (finditer pattern_range s) as [|m ms] eqn:Hf; [done|].
  assert (Hm : m ∈ flat_map (finditer pattern_range) (split_sentences text)).
  { apply list_elem_of_In, in_flat_map. exists s.
    split; [by apply list_elem_of_In|]. rewrite Hf. by left. }
  rewrite Hnone in Hm. by apply elem_of_nil in Hm.
Qed.

(** The result of [extract_citations], laid out as the loops produce it:
    one block for every pattern and every sentence. *)
Lemma extract_citations_blocks text refs cits :
  extract_citations text refs = Ok cits →
  ∃ blocks : list (list (list ExtractedCitation)),
    cits = concat (map (λ pb, concat pb) blocks)
    ∧ Forall2 (λ pattern pb,
                 Forall2 (λ '(i, s) b,
                            citations_of_sentence pattern
                              (split_sentences text) i s = Ok b)
                         (imap pair (split_sentences text)) pb)
              CITATION_PATTERNS blocks.
Proof.
  unfold extract_citations. intros Hc.
  apply fmap_Ok in Hc as (per_pattern & Hpp & ->). apply mapM_Ok in Hpp.
  revert Hpp. generalize CITATION_PATTERNS. intros patterns Hpp.
  induction Hpp as [|p cs ps css Hp Hpp IH].
  - exists []. split; [done|constructor].
  - destruct IH as (blocks & Hcat & Hall).
    unfold citations_of_pattern in Hp.
    apply fmap_Ok in Hp as (pb & Hpb & ->). apply mapM_Ok in Hpb.
    exists (pb :: blocks). split; [simpl; by rewrite Hcat|].
    constructor; [|done].
    eapply Forall2_impl; [exact Hpb|]. by intros [i s] b.
Qed.

(** One pattern in one sentence: the citations are ordered by position,
    and each is recorded at the offset of a marker of the pattern. *)
Lemma citations_of_sentence_markers pattern sentences i s cs :
  citations_of_sentence pattern sentences i s = Ok cs →
  by_position cs
  ∧ Forall (λ c, sentence c = s ∧ marker_at pattern s (position c)) cs.
Proof.
  intros Hcs. split; [by eapply citations_of_sentence_by_position|].
  unfold citations_of_sentence in Hcs.
  apply fmap_Ok in Hcs as (css & Hcss & ->).
  apply Forall_concat.
  apply (mapM_Ok_Forall _ _ _ _ Hcss). intros m cs Hm Hcs.
  apply citations_of_match_shape in Hcs.
  eapply Forall_impl; [exact Hcs|]. simpl. intros c [Hpos Hsen].
  split; [done|]. rewrite Hpos. by apply scan_marker_at.
Qed.

(** C5, as amended: [extract_citations] returns the citations pattern by
    pattern, in the order of [CITATION_PATTERNS]; for one pattern
    sentence by sentence, in the order of the text; and for one pattern
    and one sentence ordered by position.  The block of a pattern and a
    sentence holds citations of that sentence only, each recorded at an
    offset of the sentence where a marker of that pattern starts. *)
Theorem C5_order_within_sentence text refs cits :
  extract_citations text refs = Ok cits →
  ∃ blocks : list (list (list ExtractedCitation)),
    cits = concat (map (λ pb, concat pb) blocks)
    ∧ Forall2 (λ pattern pb,
                 Forall2 (λ s b,
                            by_position b
                            ∧ Forall (λ c, sentence c = s
                                           ∧ marker_at pattern s (position c))
                                     b)
                         (split_sentences text) pb)
              CITATION_PATTERNS blocks.
Proof.
  intros (blocks & Hcat & Hall)%extract_citations_blocks.
  exists blocks. split; [done|].
  eapply Forall2_impl; [exact Hall|]. simpl. intros pattern pb Hpb.
  rewrite <- (imap_pair_snd (split_sentences text)) at 1.
  apply Forall2_fmap_l.
  eapply Forall2_impl; [exact Hpb|]. intros [i s] b. simpl.
  apply citations_of_sentence_markers.
Qed.

Lemma C5_witness :
  match extract_citations (lit "Long sentence here [1]. X [2] then [3].") []
  with
  | Ok cits =>
      ∃ blocks : list (list (list ExtractedCitation)),
        cits = concat (map (λ pb, concat pb) blocks)
        ∧ Forall2 (λ pattern pb,
                     Forall2 (λ s b,
                                by_position b
                                ∧ Forall (λ c, sentence c = s
                                               ∧ marker_at pattern s
                                                   (position c))
                                         b)
                             (split_sentences
                                (lit "Long sentence here [1]. X [2] then [3]."))
                             pb)
                  CITATION_PATTERNS blocks
  | Raise _ => False
  end.
Proof.
  destruct (extract_citations _ _) as [cits|e] eqn:Heq.
  - exact (C5_order_within_sentence _ _ _ Heq).
  - vm_compute in Heq. discriminate Heq.
Defined.

(** C5 as stated fails: the marker of the first sentence is recorded at
    offset 19 and comes before the marker of the second sentence,
    recorded at offset 2; and in one sentence a bracket marker comes
    before an author-year marker that precedes it in the text. *)
Lemma C5_counterexample :
  map position <$> extract_citations (lit "Long sentence here [1]. X [2].") []
    = Ok [19; 2]
  ∧ ¬ 19 ≤ 2
  ∧ map position <$> extract_citations (lit "As (Smith and Jones, 2020) and [1] say") []
    = Ok [31; 3; 3]
  ∧ ¬ 31 ≤ 3.
Proof.
  split; [vm_compute; reflexivity|]. split; [lia|].
  split; [vm_compute; reflexivity|lia].
Qed.

(** ** The searches never run out of fuel *)

Lemma pending_visit (es : list (str * str)) (node : str) (vis : gset str) :
  node ∉ vis →
  length (neighbors_of es node) + pending es ({[node]} ∪ vis) ≤ pending es vis.
Proof.
  intros Hnode. induction es as [|[a b] es IH]; simpl; [lia|].
  repeat case_decide; simpl; try lia; set_solver.
Qed.

Lemma pending_bound (es : list (str * str)) (vis : gset str) :
  pending es vis ≤ 2 * length es.
Proof.
  induction es as [|[a b] es IH]; simpl; [lia|].
  repeat case_decide; lia.
Qed.

Lemma explore_loop_total (g : CitationGraph) (fuel : nat) :
  ∀ stack vis cl,
    length stack + pending (edges g) vis < fuel →
    is_Some (explore_loop fuel g stack vis cl).
Proof.
  induction fuel as [|fuel IH]; intros stack vis cl Hlt; [lia|].
  simpl. destruct stack as [|node stack]; [by eexists|].
  simpl in Hlt. case_decide as Hvis.
  - apply IH. lia.
  - apply IH. rewrite length_app, length_rev.
    pose proof (pending_visit (edges g) node vis Hvis) as Hp.
    pose proof (length_filter (λ n, n ∉ {[node]} ∪ vis)
                  (get_neighbors g node)) as Hf.
    unfold get_neighbors in *. lia.
Qed.

(** [_explore_cluster] is defined: [explore_fuel] rounds are enough. *)
Lemma explore_cluster_defined (g : CitationGraph) (start : str)
    (vis : gset str) :
  is_Some (explore_loop (explore_fuel g) g [start] vis ∅).
Proof.
  apply explore_loop_total. unfold explore_fuel.
  pose proof (pending_bound (edges g) vis). simpl. lia.
Qed.

(** [_find_ring_size] is defined: [ring_fuel] levels are enough. *)
Lemma find_ring_size_defined (g : CitationGraph) (a b : str) :
  is_Some (find_ring_size_fuel (ring_fuel g) g a b None).
Proof.
  change (find_ring_size_fuel (ring_fuel g) g a b None)
    with (find_ring_size_fuel (ring_fuel g) g a b (Some {[a]})).
  apply find_ring_size_fuel_total. unfold ring_fuel.
  pose proof (size_endpoints g) as Hsz.
  assert (size (endpoints g ∖ ({[b]} ∪ {[a]})) ≤ size (endpoints g))
    by apply subseteq_size, subseteq_difference_l, reflexivity.
  lia.
Qed.

(** ** When the analyzer returns *)







(** ** Edges join nodes *)

Lemma edges_in_nodes_add_edge g a b ty :
  edges_in_nodes g → a ∈ nodes g → b ∈ nodes g →
  edges_in_nodes (add_edge g a b ty).
Proof.
  intros Hg Ha Hb e. simpl. rewrite elem_of_app, list_elem_of_singleton.
  intros [He| ->]; [by apply Hg|done].
Qed.

Lemma edges_in_nodes_build_graph cits refs :
  edges_in_nodes (build_graph cits refs).
Proof.
  unfold build_graph, add_bibliographic_coupling_edges, add_co_citation_edges.
  apply fold_left_preserves.
  { intros g kv Hg. unfold add_coupling_group. case_decide; [|done].
    revert g Hg. apply fold_left_preserves. intros g [a b] Hg.
    unfold add_coupling_pair. case_decide as Hn; [|done].
    case_decide; [|done]. destruct Hn. by apply edges_in_nodes_add_edge. }
  apply fold_left_preserves.
  { intros g kv Hg. unfold add_co_citation_group. case_decide; [|done].
    revert g Hg. apply fold_left_preserves. intros g [a b] Hg.
    unfold add_co_citation_pair. case_decide as Hn; [|done].
    destruct Hn. by apply edges_in_nodes_add_edge. }
  apply fold_left_preserves.
  { intros g kv Hg e He. destruct (Hg e He). simpl. set_solver. }
  intros e He. by apply elem_of_nil in He.
Qed.

(** In the graph of [build_graph] every edge between two distinct
    references is reported as a cartel. *)
Corollary build_graph_cartel `{SetOrder} cits refs (a b : str) :
  (a, b) ∈ edges (build_graph cits refs) → a ≠ b →
  cartel_pattern a b 3 ∈ detect_citation_cartels (build_graph cits refs).
Proof.
  intros Hedge Hne.
  destruct (edges_in_nodes_build_graph cits refs _ Hedge) as [Ha _].
  destruct (neighbors_of_edge _ _ _ Hedge) as [Hnb Hna].
  apply cartel_pattern_emitted; [done..|]. by apply find_ring_size_edge.
Qed.

(** ** The only exception *)




(** ** A marker in its sentence *)

(** A scan over [pre ++ rest] gets to [rest] when no match that starts
    in [pre] runs into [rest]. *)
Lemma scan_before (r : regex) (rest : str) :
  (∀ p suffix m, suffix ≠ [] → match_at r p (suffix ++ rest) = Some m →
                 m_end m ≤ p + length suffix) →
  ∀ pre pos skip, skip ≤ length pre →
    ∃ ms, scan r pos skip (pre ++ rest)
          = ms ++ scan r (pos + length pre) 0 rest
          ∧ Forall (λ m, m_start m < pos + length pre) ms.
Proof.
  intros Hend pre. induction pre as [|c pre IH]; intros pos skip Hskip.
  - simpl in Hskip. assert (skip = 0) as -> by lia. exists [].
    rewrite Nat.add_0_r. split; [done|constructor].
  - replace (pos + length (c :: pre)) with (S pos + length pre)
      by (simpl; lia).
    cbn [app scan]. destruct skip as [|k].
    + destruct (match_at r pos (c :: pre ++ rest)) as [m|] eqn:Hm.
      * pose proof (Hend pos (c :: pre) m ltac:(done) Hm) as He.
        pose proof (match_at_start _ _ _ _ Hm) as Hs. simpl in He.
        destruct (IH (S pos) (m_end m - pos - 1)) as (ms & -> & Hms); [lia|].
        exists (m :: ms). split; [done|].
        constructor; [lia|done].
      * destruct (IH (S pos) 0) as (ms & -> & Hms); [lia|]. by exists ms.
    + destruct (IH (S pos) k) as (ms & -> & Hms); [simpl in Hskip; lia|].
      by exists ms.
Qed.

(** A match of a bracketed pattern whose group holds no opening bracket
    does not run over an opening bracket. *)
Lemma bracketed_match_ends_before (open close : ascii) (G : regex)
    (p : nat) (suffix rest : str) (m : match_obj) :
  uses G "["%char = false → close ≠ "["%char → suffix ≠ [] →
  match_at (Seqs [Lit open; Group G; Lit close]) p
           (suffix ++ "["%char :: rest) = Some m →
  m_end m ≤ p + length suffix.
Proof.
  intros HG Hclose Hne Hm.
  apply match_at_bracketed_inv in Hm as (w & post & Heq & Hw & ->).
  unfold bracketed in Heq. destruct suffix as [|a suffix]; [done|].
  injection Heq as -> Heq. simpl.
  apply app_eq_app in Heq as [l [[-> Hl]|[-> Hl]]].
  - destruct l as [|x l]; [injection Hl as Hc _; done|].
    rewrite length_app. simpl. lia.
  - destruct l as [|x l]; [injection Hl as Hc _; done|].
    injection Hl as <- _.
    assert (uses G "["%char = true) as Hu.
    { apply (matches_uses _ _ Hw), elem_of_app. right. apply list_elem_of_here. }
    congruence.
Qed.

(** The citations of blocks that start elsewhere are not at [pos]. *)
Lemma blocks_not_at (ms : list match_obj)
    (css : list (list ExtractedCitation)) (pos : nat) :
  Forall2 (λ m cs, Forall (λ c, position c = m_start m) cs) ms css →
  Forall (λ m, m_start m ≠ pos) ms →
  filter (λ c, position c = pos) (concat css) = [].
Proof.
  intros Hall. induction Hall as [|m cs ms css Hm Hall IH]; [done|].
  intros Hne. apply Forall_cons in Hne as [Hm' Hne]. simpl.
  rewrite filter_app, IH by done. rewrite app_nil_r.
  apply filter_none. intros c Hc. rewrite Forall_forall in Hm.
  rewrite (Hm c Hc). done.
Qed.

Lemma mapM_app_Ok {A B : Type} (f : A → outcome B) (l1 l2 : list A)
    (ys : list B) :
  mapM f (l1 ++ l2) = Ok ys →
  ∃ ys1 ys2, ys = ys1 ++ ys2 ∧ mapM f l1 = Ok ys1 ∧ mapM f l2 = Ok ys2.
Proof.
  revert ys. induction l1 as [|x l1 IH]; intros ys; simpl.
  - intros Hys. by exists [], ys.
  - destruct (f x) as [y|e]; [|done]. cbn [mbind outcome_bind].
    destruct (mapM f (l1 ++ l2)) as [ys'|e] eqn:Hrest; [|done].
    cbn [mbind outcome_bind]. intros [= <-].
    destruct (IH ys' eq_refl) as (ys1 & ys2 & -> & -> & ->).
    by exists (y :: ys1), ys2.
Qed.

Lemma match_blocks sentences i s (ms : list match_obj)
    (css : list (list ExtractedCitation)) :
  mapM (citations_of_match sentences i s) ms = Ok css →
  Forall2 (λ m cs, Forall (λ c, position c = m_start m) cs) ms css.
Proof.
  intros Hcss. apply mapM_Ok in Hcss.
  eapply Forall2_impl; [exact Hcss|]. simpl. intros m cs Hm.
  apply citations_of_match_shape in Hm.
  eapply Forall_impl; [exact Hm|]. simpl. tauto.
Qed.

(** The citations that a bracketed pattern yields at an opening bracket:
    those of its match there, if it has one. *)
Lemma at_bracket (open close : ascii) (G : regex) sentences i
    (pre rest : str) (cs : list ExtractedCitation) :
  uses G "["%char = false → close ≠ "["%char →
  citations_of_sentence (Seqs [Lit open; Group G; Lit close]) sentences i
    (pre ++ "["%char :: rest) = Ok cs →
  match match_at (Seqs [Lit open; Group G; Lit close]) (length pre)
              ("["%char :: rest) with
  | Some mo =>
      citations_of_match sentences i (pre ++ "["%char :: rest) mo
      = Ok (filter (λ c, position c = length pre) cs)
  | None => filter (λ c, position c = length pre) cs = []
  end.
Proof.
  intros HG Hclose Hcs.
  set (pattern := Seqs [Lit open; Group G; Lit close]) in *.
  unfold citations_of_sentence in Hcs.
  apply fmap_Ok in Hcs as (css & Hcss & ->). unfold finditer in Hcss.
  destruct (scan_before pattern ("["%char :: rest)) with (pre := pre)
    (pos := 0) (skip := 0) as (ms & Hscan & Hms); [|lia|].
  { intros p suffix m. by apply bracketed_match_ends_before. }
  rewrite Hscan in Hcss. simpl in Hscan, Hms, Hcss.
  apply mapM_app_Ok in Hcss as (css1 & css2 & -> & Hcss1 & Hcss2).
  rewrite concat_app, filter_app.
  rewrite (blocks_not_at ms css1);
    [|by eapply match_blocks|eapply Forall_impl; [exact Hms|]; simpl; lia].
  cbn [app].
  assert (∀ k later css',
            mapM (citations_of_match sentences i (pre ++ "["%char :: rest))
                 (scan pattern (S (length pre)) k later) = Ok css' →
            filter (λ c, position c = length pre) (concat css') = []) as Hlater.
  { intros k later css' Hcss'.
    apply (blocks_not_at _ _ _ (match_blocks _ _ _ _ _ Hcss')).
    destruct (scan_sorted pattern later (S (length pre)) k) as [_ Hall].
    eapply Forall_impl; [exact Hall|]. simpl. lia. }
  destruct (match_at pattern (length pre) ("["%char :: rest)) as [mo|] eqn:Hmo.
  - simpl in Hcss2.
    destruct (citations_of_match _ _ _ mo) as [cs|e] eqn:Hcs; [|done].
    cbn [mbind outcome_bind] in Hcss2.
    destruct (mapM _ (scan _ _ _ rest)) as [css'|e] eqn:Hrest; [|done].
    cbn [mbind outcome_bind] in Hcss2. injection Hcss2 as <-.
    cbn [concat]. rewrite filter_app.
    rewrite (Hlater _ _ _ Hrest), app_nil_r. f_equal. symmetry.
    apply filter_all. apply citations_of_match_shape in Hcs.
    eapply Forall_impl; [exact Hcs|]. simpl. intros c [Hc _].
    rewrite Hc. by apply match_at_start in Hmo.
  - by rewrite (Hlater _ _ _ Hcss2).
Qed.

(** The list pattern does not match a range marker, nor the range
    pattern a list marker, nor an author-year pattern at a bracket. *)
Lemma match_at_list_on_range (sn sm post : str) (p : nat) :
  digits sn → digits sm →
  match_at pattern_list p (bracketed "[" "]" (sn ++ "-"%char :: sm) post) = None.
Proof.
  intros [_ Hn] [_ Hm].
  destruct (match_at _ _ _) as [mo|] eqn:Hmo; [exfalso|done].
  apply match_at_bracketed_inv in Hmo as (w & post' & Heq & Hw & _).
  assert ("-"%char ∉ w) as Hdash.
  { intros Hin. by apply (matches_uses _ _ Hw) in Hin. }
  unfold bracketed in Heq. injection Heq as Heq.
  apply app_eq_app in Heq as [l [[Hb Hl]|[-> Hl]]].
  - destruct l as [|x l].
    + rewrite app_nil_r in Hb. subst w. apply Hdash, elem_of_app.
      right. apply list_elem_of_here.
    + injection Hl as Hx _. subst x.
      assert ("]"%char ∈ sn ++ "-"%char :: sm) as Hin
        by (rewrite Hb; apply elem_of_app; right; apply list_elem_of_here).
      apply elem_of_app in Hin as [Hin|Hin];
        [by apply (digits_not_char sn "]"%char)|].
      apply elem_of_cons in Hin as [?|Hin]; [done|].
      by apply (digits_not_char sm "]"%char).
  - apply Hdash. rewrite <- app_assoc. apply elem_of_app. right.
    apply list_elem_of_here.
Qed.

Lemma match_at_range_on_list (d1 : str) (rest : list (str * str))
    (post : str) (p : nat) :
  digits d1 → Forall spaced_id rest →
  match_at pattern_range p (bracketed "[" "]" (list_body d1 rest) post) = None.
Proof.
  intros Hd Hrest.
  destruct (match_at _ _ _) as [mo|] eqn:Hmo; [exfalso|done].
  apply match_at_bracketed_inv in Hmo as (w & post' & Heq & Hw & _).
  pose proof (list_body_no_dash d1 rest Hd Hrest) as Hdash.
  assert ("]"%char ∉ w) as Hclose.
  { intros Hin. by apply (matches_uses _ _ Hw) in Hin. }
  apply matches_range_body in Hw as (a & b & -> & _ & _).
  unfold bracketed in Heq. injection Heq as Heq.
  apply app_eq_app in Heq as [l [[Hb Hl]|[Hw Hl]]].
  - apply Hdash. rewrite Hb, <- !app_assoc. apply elem_of_app. right.
    apply list_elem_of_here.
  - destruct l as [|x l].
    + rewrite app_nil_r in Hw. apply Hdash. rewrite <- Hw.
      apply elem_of_app. right. apply list_elem_of_here.
    + injection Hl as Hx _. subst x. apply Hclose. rewrite Hw.
      apply elem_of_app. right. apply list_elem_of_here.
Qed.

Lemma match_at_paren_on_bracket (G : regex) (rest : str) (p : nat) :
  match_at (Seqs [Lit "("; Group G; Lit ")"]) p ("["%char :: rest) = None.
Proof.
  destruct (match_at _ _ _) as [mo|] eqn:Hmo; [exfalso|done].
  apply match_at_bracketed_inv in Hmo as (w & post' & Heq & _). done.
Qed.

Lemma at_bracket_list sentences i (pre rest : str) cs :
  citations_of_sentence pattern_list sentences i (pre ++ "["%char :: rest)
  = Ok cs →
  match match_at pattern_list (length pre) ("["%char :: rest) with
  | Some mo =>
      citations_of_match sentences i (pre ++ "["%char :: rest) mo
      = Ok (filter (λ c, position c = length pre) cs)
  | None => filter (λ c, position c = length pre) cs = []
  end.
Proof. by apply (at_bracket "[" "]"). Qed.

Lemma at_bracket_range sentences i (pre rest : str) cs :
  citations_of_sentence pattern_range sentences i (pre ++ "["%char :: rest)
  = Ok cs →
  match match_at pattern_range (length pre) ("["%char :: rest) with
  | Some mo =>
      citations_of_match sentences i (pre ++ "["%char :: rest) mo
      = Ok (filter (λ c, position c = length pre) cs)
  | None => filter (λ c, position c = length pre) cs = []
  end.
Proof. by apply (at_bracket "[" "]"). Qed.

(** An author-year pattern yields nothing at a bracket. *)
Lemma at_bracket_paren (G : regex) sentences i (pre rest : str) cs :
  uses G "["%char = false →
  citations_of_sentence (Seqs [Lit "("; Group G; Lit ")"]) sentences i
    (pre ++ "["%char :: rest) = Ok cs →
  filter (λ c, position c = length pre) cs = [].
Proof.
  intros HG Hcs. apply (at_bracket "(" ")") in Hcs; [|done|done].
  by rewrite match_at_paren_on_bracket in Hcs.
Qed.

Lemma citations_of_match_Ok_ids sentences i s (m : match_obj) (g : str)
    (ids : list str) (cs : list ExtractedCitation) :
  m_group1 m = Some g → parse_reference_ids g = Ok ids →
  citations_of_match sentences i s m = Ok cs →
  map reference_id cs = ids.
Proof.
  intros Hg Hids. rewrite (citations_of_match_ids _ _ _ _ _ _ Hg Hids).
  intros [= <-]. rewrite map_map. simpl. apply map_id.
Qed.

(** What each pattern yields at a range marker. *)
Lemma at_range_marker sentences i (pre post a b : str) (n m : nat) :
  digits a → digits b → int a = Ok n → int b = Ok m →
  let s := pre ++ bracketed "[" "]" (a ++ "-"%char :: b) post in
  let here := filter (λ c, position c = length pre) in
  (∀ cs, citations_of_sentence pattern_list sentences i s = Ok cs →
         here cs = [])
  ∧ (∀ cs, citations_of_sentence pattern_range sentences i s = Ok cs →
           map reference_id (here cs) = map str_of_nat (seq n (m + 1 - n)))
  ∧ (∀ cs, citations_of_sentence pattern_et_al sentences i s = Ok cs →
           here cs = [])
  ∧ (∀ cs, citations_of_sentence pattern_and sentences i s = Ok cs →
           here cs = []).
Proof.
  intros Ha Hb Hn Hm. cbv zeta.
  pose proof (match_at_list_on_range a b post (length pre) Ha Hb) as Hl.
  pose proof (match_at_range a b (length pre) post Ha Hb) as Hr.
  unfold bracketed in *.
  split; [|split; [|split]]; intros cs Hcs.
  - apply at_bracket_list in Hcs. by rewrite Hl in Hcs.
  - apply at_bracket_range in Hcs. rewrite Hr in Hcs.
    eapply citations_of_match_Ok_ids; [..|exact Hcs];
      [done|by apply parse_reference_ids_dash].
  - by apply at_bracket_paren in Hcs.
  - by apply at_bracket_paren in Hcs.
Qed.

(** What each pattern yields at a list marker. *)
Lemma at_list_marker sentences i (pre post d1 : str)
    (rest : list (str * str)) :
  digits d1 → Forall spaced_id rest →
  let s := pre ++ bracketed "[" "]" (list_body d1 rest) post in
  let here := filter (λ c, position c = length pre) in
  (∀ cs, citations_of_sentence pattern_list sentences i s = Ok cs →
         map reference_id (here cs) = d1 :: map snd rest)
  ∧ (∀ cs, citations_of_sentence pattern_range sentences i s = Ok cs →
           here cs = [])
  ∧ (∀ cs, citations_of_sentence pattern_et_al sentences i s = Ok cs →
           here cs = [])
  ∧ (∀ cs, citations_of_sentence pattern_and sentences i s = Ok cs →
           here cs = []).
Proof.
  intros Hd Hrest. cbv zeta.
  pose proof (match_at_list d1 rest (length pre) post Hd Hrest) as Hl.
  pose proof (match_at_range_on_list d1 rest post (length pre) Hd Hrest)
    as Hr.
  unfold bracketed in *.
  split; [|split; [|split]]; intros cs Hcs.
  - apply at_bracket_list in Hcs. rewrite Hl in Hcs.
    eapply citations_of_match_Ok_ids; [..|exact Hcs];
      [done|by apply parse_reference_ids_list].
  - apply at_bracket_range in Hcs. by rewrite Hr in Hcs.
  - by apply at_bracket_paren in Hcs.
  - by apply at_bracket_paren in Hcs.
Qed.

(** ** The citations of a marker, in the result *)

Lemma filter_ext_Forall {A : Type} (P Q : A → Prop)
    `{∀ x, Decision (P x)} `{∀ x, Decision (Q x)} (l : list A) :
  Forall (λ x, P x ↔ Q x) l → filter P l = filter Q l.
Proof.
  induction 1 as [|x l Hx _ IH]; [done|].
  rewrite !filter_cons, IH. repeat case_decide; tauto.
Qed.

Lemma concat_replicate_nil {A : Type} (k : nat) :
  concat (replicate k (@nil A)) = [].
Proof. induction k as [|k IH]; [done|]. by simpl. Qed.

(** The block of one pattern: every occurrence of the sentence [s] gives
    the ids that the pattern yields at [pos] in [s]. *)
Lemma block_at_marker pattern sentences (L : list (nat * str))
    (pb : list (list ExtractedCitation)) (s : str) (pos : nat)
    (ids : list str) :
  Forall2 (λ '(i, sj) b, citations_of_sentence pattern sentences i sj = Ok b)
          L pb →
  (∀ i b, citations_of_sentence pattern sentences i s = Ok b →
          map reference_id (filter (λ c, position c = pos) b) = ids) →
  map reference_id (at_marker (concat pb) s pos)
  = concat (replicate (occurrences s (map snd L)) ids).
Proof.
  intros Hall Hids. induction Hall as [|[i sj] b L pb Hb _ IH]; [done|].
  unfold at_marker, occurrences in *. cbn [concat map snd].
  rewrite filter_app, map_app, IH, (filter_cons _ sj).
  pose proof (citations_of_sentence_by_position _ _ _ _ _ Hb) as [_ Hsen].
  destruct (decide (sj = s)) as [->|Hne]; cbn [length replicate concat].
  - f_equal. rewrite <- (Hids i b Hb). f_equal. apply filter_ext_Forall.
    eapply Forall_impl; [exact Hsen|]. simpl. tauto.
  - rewrite filter_none; [done|]. intros c Hc [Hs _].
    rewrite Forall_forall in Hsen. apply Hsen in Hc. congruence.
Qed.

(** The whole result: pattern after pattern. *)
Lemma at_marker_patterns text refs cits (s : str) (pos : nat)
    (l1 l2 l3 l4 : list str) :
  extract_citations text refs = Ok cits →
  let sentences := split_sentences text in
  let here := filter (λ c, position c = pos) in
  (∀ i b, citations_of_sentence pattern_list sentences i s = Ok b →
          map reference_id (here b) = l1) →
  (∀ i b, citations_of_sentence pattern_range sentences i s = Ok b →
          map reference_id (here b) = l2) →
  (∀ i b, citations_of_sentence pattern_et_al sentences i s = Ok b →
          map reference_id (here b) = l3) →
  (∀ i b, citations_of_sentence pattern_and sentences i s = Ok b →
          map reference_id (here b) = l4) →
  map reference_id (at_marker cits s pos)
  = concat (replicate (occurrences s sentences) l1)
    ++ concat (replicate (occurrences s sentences) l2)
    ++ concat (replicate (occurrences s sentences) l3)
    ++ concat (replicate (occurrences s sentences) l4).
Proof.
  intros (blocks & -> & Hall)%extract_citations_blocks. cbv zeta.
  intros H1 H2 H3 H4. unfold CITATION_PATTERNS in Hall.
  apply Forall2_cons_inv_l in Hall as (pb1 & bs1 & Hb1 & Hall & ->).
  apply Forall2_cons_inv_l in Hall as (pb2 & bs2 & Hb2 & Hall & ->).
  apply Forall2_cons_inv_l in Hall as (pb3 & bs3 & Hb3 & Hall & ->).
  apply Forall2_cons_inv_l in Hall as (pb4 & bs4 & Hb4 & Hall & ->).
  apply Forall2_nil_inv_l in Hall as ->.
  cbn [map concat]. rewrite app_nil_r.
  unfold at_marker. rewrite !filter_app, !map_app.
  fold (at_marker (concat pb1) s pos). fold (at_marker (concat pb2) s pos).
  fold (at_marker (concat pb3) s pos). fold (at_marker (concat pb4) s pos).
  rewrite (block_at_marker _ _ _ _ _ _ l1 Hb1 H1),
    (block_at_marker _ _ _ _ _ _ l2 Hb2 H2),
    (block_at_marker _ _ _ _ _ _ l3 Hb3 H3),
    (block_at_marker _ _ _ _ _ _ l4 Hb4 H4).
  by rewrite imap_pair_snd.
Qed.

Lemma range_marker_ids text refs cits (pre post a b : str) (n m : nat) :
  extract_citations text refs = Ok cits →
  digits a → digits b → int a = Ok n → int b = Ok m →
  let s := pre ++ bracketed "[" "]" (a ++ "-"%char :: b) post in
  map reference_id (at_marker cits s (length pre))
  = concat (replicate (occurrences s (split_sentences text))
                      (map str_of_nat (seq n (m + 1 - n)))).
Proof.
  intros Hcits Ha Hb Hn Hm. cbv zeta.
  rewrite (at_marker_patterns text refs cits _ _ []
             (map str_of_nat (seq n (m + 1 - n))) [] [] Hcits).
  - by rewrite concat_replicate_nil, !app_nil_r.
  - intros i cs Hcs.
    by rewrite (proj1 (at_range_marker _ i pre post a b n m Ha Hb Hn Hm)
                  cs Hcs).
  - intros i cs. apply (at_range_marker _ i pre post a b n m Ha Hb Hn Hm).
  - intros i cs Hcs.
    by rewrite (proj1 (proj2 (proj2
                  (at_range_marker _ i pre post a b n m Ha Hb Hn Hm)))
                  cs Hcs).
  - intros i cs Hcs.
    by rewrite (proj2 (proj2 (proj2
                  (at_range_marker _ i pre post a b n m Ha Hb Hn Hm)))
                  cs Hcs).
Qed.

Lemma list_marker_ids text refs cits (pre post d1 : str)
    (rest : list (str * str)) :
  extract_citations text refs = Ok cits →
  digits d1 → Forall spaced_id rest →
  let s := pre ++ bracketed "[" "]" (list_body d1 rest) post in
  map reference_id (at_marker cits s (length pre))
  = concat (replicate (occurrences s (split_sentences text))
                      (d1 :: map snd rest)).
Proof.
  intros Hcits Hd Hrest. cbv zeta.
  rewrite (at_marker_patterns text refs cits _ _ (d1 :: map snd rest)
             [] [] [] Hcits).
  - by rewrite concat_replicate_nil, !app_nil_r.
  - intros i cs. apply (at_list_marker _ i pre post d1 rest Hd Hrest).
  - intros i cs Hcs.
    by rewrite (proj1 (proj2 (at_list_marker _ i pre post d1 rest Hd Hrest))
                  cs Hcs).
  - intros i cs Hcs.
    by rewrite (proj1 (proj2 (proj2
                  (at_list_marker _ i pre post d1 rest Hd Hrest))) cs Hcs).
  - intros i cs Hcs.
    by rewrite (proj2 (proj2 (proj2
                  (at_list_marker _ i pre post d1 rest Hd Hrest))) cs Hcs).
Qed.

(** C8, as amended: whenever [extract_citations] returns, the citations
    that its result records for a sentence at the offset of a marker are
    these.  For a range marker whose two numerals, of at most
    [MAX_STR_DIGITS] digits, denote [n ≤ m]: one citation for every
    integer from [n] to [m], in order, [m - n + 1] in all.  For a list
    marker: one citation for every listed id, in order.  And so once for
    every occurrence of the sentence in the text, a citation recording
    the text of its sentence and not the place. *)
Theorem C8_markers text refs cits (pre post : str) :
  extract_citations text refs = Ok cits →
  (∀ a b n m,
     digits a → digits b → int a = Ok n → int b = Ok m → n ≤ m →
     let s := pre ++ bracketed "[" "]" (a ++ "-"%char :: b) post in
     map reference_id (at_marker cits s (length pre))
     = concat (replicate (occurrences s (split_sentences text))
                         (map str_of_nat (seq n (m - n + 1)))))
  ∧ (∀ d1 rest,
       digits d1 → Forall spaced_id rest →
       let s := pre ++ bracketed "[" "]" (list_body d1 rest) post in
       map reference_id (at_marker cits s (length pre))
       = concat (replicate (occurrences s (split_sentences text))
                           (d1 :: map snd rest))).
Proof.
  intros Hcits. split.
  - intros a b n m Ha Hb Hn Hm Hnm. cbv zeta.
    replace (m - n + 1) with (m + 1 - n) by lia.
    by apply (range_marker_ids text refs).
  - intros d1 rest Hd Hrest. by apply (list_marker_ids text refs).
Qed.

Lemma C8_witness :
  match extract_citations (lit "Intro [7]. See [02-4] and more. See [02-4] and more. End.") [] with
  | Ok cits =>
      map reference_id
        (at_marker cits
           (lit "See " ++ bracketed "[" "]" (lit "02" ++ "-"%char :: lit "4")
                            (lit " and more"))
           (length (lit "See ")))
      = [lit "2"; lit "3"; lit "4"; lit "2"; lit "3"; lit "4"]
  | Raise _ => False
  end.
Proof.
  destruct (extract_citations _ _) as [cits|e] eqn:Heq.
  - assert (Ha : digits (lit "02")) by (split; [done|by repeat constructor]).
    assert (Hb : digits (lit "4")) by (split; [done|by repeat constructor]).
    assert (Hn : int (lit "02") = Ok 2) by (vm_compute; reflexivity).
    assert (Hm : int (lit "4") = Ok 4) by (vm_compute; reflexivity).
    assert (Hnm : 2 ≤ 4) by lia.
    exact (proj1 (C8_markers _ _ _ (lit "See ") (lit " and more") Heq)
             (lit "02") (lit "4") 2 4 Ha Hb Hn Hm Hnm).
  - vm_compute in Heq. discriminate Heq.
Defined.

(** C8 as stated fails: a numeral of more than [MAX_STR_DIGITS] digits
    in a range marker makes [int], and with it [extract_citations],
    raise [ValueError]: the marker yields no citation. *)
Lemma C8_counterexample :
  let big := replicate (S MAX_STR_DIGITS) "1"%char in
  digits big
  ∧ extract_citations (lit "See [1-" ++ big ++ lit "].") []
    = Raise ValueError.
Proof.
  cbv zeta. split.
  - split; [done|]. apply Forall_replicate. done.
  - vm_compute. reflexivity.
Qed.

(** * Further properties of the four components *)

(** ** Counts of the result *)

Lemma analyze_counts `{SetOrder} clk t text refs names r t' :
  analyze clk t text refs names = Ok (r, t') →
  ∃ cits n,
    extract_citations text refs = Ok cits
    ∧ count_self_citations cits refs (default [] names) = Ok n
    ∧ total_citations r = length cits
    ∧ unique_citations r
      = size (list_to_set (map reference_id cits) : gset str)
    ∧ self_citations r = n.
Proof.
  unfold analyze. destruct (extract_citations text refs) as [cits|e]; [|done].
  cbn [mbind outcome_bind].
  destruct (detect_patterns _ _ _ _) as [patterns t1].
  destruct (count_self_citations _ _ _) as [n|e] eqn:Hn; [|done].
  cbn [mbind outcome_bind].
  destruct (generate_recommendations _ _ _ _ _ _) as [recs t2].
  intros [= <- <-]. by exists cits, n.
Qed.

(** X1: in every result of [analyze] the number of unique citations is
    at most the number of citations, and the two are equal when no
    reference id is cited twice. *)
Theorem X1_unique_le_total `{SetOrder} clk t text refs names r t' :
  analyze clk t text refs names = Ok (r, t') →
  unique_citations r ≤ total_citations r
  ∧ (∀ cits, extract_citations text refs = Ok cits →
             NoDup (map reference_id cits) →
             unique_citations r = total_citations r).
Proof.
  intros Hok. apply analyze_counts in Hok as (cits & n & Hc & _ & -> & -> & _).
  split.
  - etransitivity; [apply size_list_to_set_le|]. by rewrite length_map.
  - intros cits' Hc' Hnd. rewrite Hc in Hc'. injection Hc' as <-.
    by rewrite size_list_to_set, length_map.
Qed.

Lemma X1_witness :
  match analyze (clock_in 2026) 0
          (lit "This study [1] builds upon previous work [2,3].")
          [reference "Smith" 2020 "Journal A";
           reference "Jones" 2021 "Conference B";
           reference "Brown" 2019 "Journal A"]
          (Some [lit "Researcher"]) with
  | Ok (r, _) => unique_citations r ≤ total_citations r
  | Raise _ => False
  end.
Proof.
  destruct (analyze _ _ _ _ _) as [[r t']|e] eqn:Heq.
  - exact (proj1 (X1_unique_le_total _ _ _ _ _ _ _ Heq)).
  - vm_compute in Heq. discriminate Heq.
Defined.

Lemma count_self_loop_bound (normalized : gset str)
    (references : list Reference) :
  ∀ k n, count_self_loop normalized references k = Ok n →
         k ≤ n ≤ k + length references.
Proof.
  induction references as [|ref refs IH]; intros k n; simpl.
  - intros [= <-]. lia.
  - destruct (has_self_author _ _) as [hit|e]; [|done].
    cbn [mbind outcome_bind]. intros Hn. apply IH in Hn.
    destruct hit; lia.
Qed.

(** X2: the number of self-citations of a result never exceeds the
    number of references: a reference counts once, however many of its
    authors match and however often it is cited. *)
Theorem X2_self_citations_le_references `{SetOrder}
    clk t text refs names r t' :
  analyze clk t text refs names = Ok (r, t') →
  self_citations r ≤ length refs.
Proof.
  intros Hok. apply analyze_counts in Hok as (cits & n & _ & Hn & _ & _ & ->).
  unfold count_self_citations in Hn.
  destruct (default [] names) as [|x l]; [injection Hn as <-; lia|].
  destruct (mapM last_name (x :: l)); [|done].
  cbn [mbind outcome_bind] in Hn. apply count_self_loop_bound in Hn. lia.
Qed.

Lemma X2_witness :
  match analyze (clock_in 2026) 0 (lit "")
          [reference "A Smith" 2020 "J"; reference "B Smith" 2020 "J"]
          (Some [lit "Smith"]) with
  | Ok (r, _) => self_citations r ≤ 2
  | Raise _ => False
  end.
Proof.
  destruct (analyze _ _ _ _ _) as [[r t']|e] eqn:Heq.
  - exact (X2_self_citations_le_references _ _ _ _ _ _ _ Heq).
  - vm_compute in Heq. discriminate Heq.
Defined.

(** ** Exceptions *)




(** ** Reversed ranges *)

(** X6: a range marker whose first number is greater than the second
    yields no citation: its id string parses to no id, [range(start,
    end + 1)] being empty, and whenever [extract_citations] returns, its
    result records no citation at the offset of the marker. *)
Theorem X6_reversed_range text refs cits (pre post a b : str) (n m : nat) :
  extract_citations text refs = Ok cits →
  digits a → digits b → int a = Ok n → int b = Ok m → m < n →
  parse_reference_ids (a ++ "-"%char :: b) = Ok []
  ∧ at_marker cits (pre ++ bracketed "[" "]" (a ++ "-"%char :: b) post)
                   (length pre) = [].
Proof.
  intros Hcits Ha Hb Hn Hm Hnm. split.
  - rewrite (parse_reference_ids_dash a b n m) by done.
    by replace (m + 1 - n) with 0 by lia.
  - pose proof (range_marker_ids text refs cits pre post a b n m
                  Hcits Ha Hb Hn Hm) as Hids.
    cbv zeta in Hids. replace (m + 1 - n) with 0 in Hids by lia.
    cbn [seq map] in Hids. rewrite concat_replicate_nil in Hids.
    by apply fmap_nil_inv in Hids.
Qed.

Lemma X6_witness :
  match extract_citations (lit "See [5-2] here, and [7].") [] with
  | Ok cits =>
      at_marker cits
        (lit "See " ++ bracketed "[" "]" (lit "5" ++ "-"%char :: lit "2")
                         (lit " here, and [7]."))
        (length (lit "See ")) = []
  | Raise _ => False
  end.
Proof.
  destruct (extract_citations _ _) as [cits|e] eqn:Heq.
  - assert (Ha : digits (lit "5")) by (split; [done|by repeat constructor]).
    assert (Hb : digits (lit "2")) by (split; [done|by repeat constructor]).
    assert (Hn : int (lit "5") = Ok 5) by (vm_compute; reflexivity).
    assert (Hm : int (lit "2") = Ok 2) by (vm_compute; reflexivity).
    assert (Hnm : 2 < 5) by lia.
    exact (proj2 (X6_reversed_range _ _ _ (lit "See ")
                    (lit " here, and [7].") _ _ 5 2 Heq Ha Hb Hn Hm Hnm)).
  - vm_compute in Heq. discriminate Heq.
Defined.

(** ** Neighbours *)

Lemma neighbors_of_spec es x n :
  n ∈ neighbors_of es x ↔ (x, n) ∈ es ∨ (n, x) ∈ es.
Proof.
  induction es as [|[a b] es IH]; simpl.
  - rewrite !elem_of_nil. tauto.
  - repeat case_decide; rewrite ?elem_of_cons, IH, ?elem_of_cons;
      naive_solver.
Qed.

Lemma neighbors_of_length es x :
  length (neighbors_of es x) = length (filter (touches x) es).
Proof.
  induction es as [|[a b] es IH]; simpl; [done|].
  unfold touches at 1. rewrite filter_cons. simpl.
  repeat case_decide; simpl; rewrite ?IH; naive_solver.
Qed.

(** X7: the neighbours of a node are the other ends of the edges that touch
    it, whatever the orientation of the edge: the relation is symmetric,
    and the degree is the number of edges with the node as an end, a loop
    counting once. *)
Theorem X7_get_neighbors g x n :
  (n ∈ get_neighbors g x ↔ adjacent g x n)
  ∧ (n ∈ get_neighbors g x ↔ x ∈ get_neighbors g n)
  ∧ get_degree g x = length (filter (touches x) (edges g)).
Proof.
  unfold get_degree, get_neighbors, adjacent.
  rewrite !neighbors_of_spec, neighbors_of_length. tauto.
Qed.

(** ** The nodes of the graph and their attributes *)

Lemma str_of_nat_inj : Inj (=) (=) str_of_nat.
Proof.
  intros n m Heq. by rewrite <- (int_value_str_of_nat n), Heq,
    int_value_str_of_nat.
Qed.

Lemma node_attributes_add_edge g a b ty :
  node_attributes (add_edge g a b ty) = node_attributes g.
Proof. done. Qed.

Lemma node_attributes_add_co_citation_pair g p :
  node_attributes (add_co_citation_pair g p) = node_attributes g.
Proof. destruct p. unfold add_co_citation_pair. by case_decide. Qed.

Lemma node_attributes_add_coupling_pair g p :
  node_attributes (add_coupling_pair g p) = node_attributes g.
Proof. destruct p. unfold add_coupling_pair. by repeat case_decide. Qed.

Lemma node_attributes_fold {A : Type} (f : CitationGraph → A → CitationGraph) :
  (∀ g p, node_attributes (f g p) = node_attributes g) →
  ∀ l g, node_attributes (fold_left f l g) = node_attributes g.
Proof.
  intros Hf l. induction l as [|p l IH]; intros g; simpl; [done|].
  by rewrite IH, Hf.
Qed.

Lemma node_attributes_edges g cits refs :
  node_attributes
    (add_bibliographic_coupling_edges (add_co_citation_edges g cits) refs)
  = node_attributes g.
Proof.
  unfold add_bibliographic_coupling_edges, add_co_citation_edges.
  rewrite node_attributes_fold.
  - apply node_attributes_fold. intros g' kv. unfold add_co_citation_group.
    case_decide; [|done].
    apply node_attributes_fold, node_attributes_add_co_citation_pair.
  - intros g' kv. unfold add_coupling_group. case_decide; [|done].
    apply node_attributes_fold, node_attributes_add_coupling_pair.
Qed.

Lemma node_attributes_fold_add_node (l : list (str * Reference)) :
  NoDup (map fst l) →
  ∀ g k,
    node_attributes
      (fold_left (λ g kv, add_node g kv.1 (Some (attributes_of kv.2))) l g)
    !! k
    = match list_find (λ kv, kv.1 = k) l with
      | Some (_, kv) => Some (attributes_of kv.2)
      | None => node_attributes g !! k
      end.
Proof.
  induction l as [|[k0 r0] l IH]; intros Hnd g k; simpl; [done|].
  apply NoDup_cons in Hnd as [Hk0 Hnd]. rewrite IH by done.
  case_decide as Hk; simpl in *.
  - subst k0. destruct (list_find _ l) as [[j kv]|] eqn:Hfind; simpl.
    + apply list_find_Some in Hfind as (Hj & Hkv & _). exfalso. apply Hk0.
      rewrite <- Hkv. apply list_elem_of_fmap. exists kv. split; [done|].
      by eapply list_elem_of_lookup_2.
    + by rewrite lookup_insert_eq.
  - destruct (list_find _ l) as [[j kv]|]; simpl; [done|].
    by rewrite lookup_insert_ne.
Qed.

Lemma ref_map_lookup refs i :
  ref_map refs !! i = (λ ref, (str_of_nat (i + 1), ref)) <$> refs !! i.
Proof. unfold ref_map. by rewrite list_lookup_imap. Qed.

Lemma ref_map_NoDup refs : NoDup (map fst (ref_map refs)).
Proof.
  rewrite ref_map_keys. apply (@NoDup_fmap_2 _ _ str_of_nat str_of_nat_inj), NoDup_seq.
Qed.

Lemma ref_map_find refs i ref :
  refs !! i = Some ref →
  list_find (λ kv : str * Reference, kv.1 = str_of_nat (i + 1)) (ref_map refs)
  = Some (i, (str_of_nat (i + 1), ref)).
Proof.
  intros Hi. apply list_find_Some. split; [|split; [done|]].
  - by rewrite ref_map_lookup, Hi.
  - intros j [k r] Hj Hlt. rewrite ref_map_lookup in Hj.
    destruct (refs !! j); simplify_eq/=. intros Heq.
    apply str_of_nat_inj in Heq. lia.
Qed.

Lemma node_attributes_build_graph cits refs i ref :
  refs !! i = Some ref →
  node_attributes (build_graph cits refs) !! str_of_nat (i + 1)
  = Some (attributes_of ref).
Proof.
  intros Hi. unfold build_graph. rewrite node_attributes_edges.
  rewrite node_attributes_fold_add_node by apply ref_map_NoDup.
  by rewrite (ref_map_find _ _ _ Hi).
Qed.

Lemma node_attributes_outside cits refs (id : str) :
  id ∉ nodes (build_graph cits refs) →
  node_attributes (build_graph cits refs) !! id = None.
Proof.
  rewrite nodes_build_graph, <- ref_map_keys. intros Hid.
  unfold build_graph. rewrite node_attributes_edges.
  rewrite node_attributes_fold_add_node by apply ref_map_NoDup.
  destruct (list_find _ _) as [[j kv]|] eqn:Hfind; [|done].
  apply list_find_Some in Hfind as (Hj & Hkv & _). exfalso. apply Hid.
  apply elem_of_list_to_set. rewrite <- Hkv. apply list_elem_of_fmap.
  exists kv. split; [done|]. by eapply list_elem_of_lookup_2.
Qed.

(** X8: the graph has one node for each reference, and the attributes
    stored for the node [str(i+1)] are those of the [i]-th reference, an
    absent field read as its default; nothing is stored for another id. *)
Theorem X8_build_graph_nodes cits refs :
  let g := build_graph cits refs in
  size (nodes g) = length refs
  ∧ (∀ i ref, refs !! i = Some ref →
       str_of_nat (i + 1) ∈ nodes g
       ∧ node_attributes g !! str_of_nat (i + 1) = Some (attributes_of ref))
  ∧ (∀ id, id ∉ nodes g → node_attributes g !! id = None).
Proof.
  cbv zeta. split; [|split].
  - rewrite nodes_build_graph, size_list_to_set, length_map, length_seq;
      [done|]. apply (@NoDup_fmap_2 _ _ str_of_nat str_of_nat_inj), NoDup_seq.
  - intros i ref Hi. split; [|by apply node_attributes_build_graph].
    rewrite nodes_build_graph. apply elem_of_list_to_set, list_elem_of_fmap.
    exists (i + 1). split; [done|]. apply elem_of_seq.
    apply lookup_lt_Some in Hi. lia.
  - apply node_attributes_outside.
Qed.

(** X9: in the graph built from citations and references, every edge and
    every neighbour relation stays inside the node set. *)
Theorem X9_neighbors_are_nodes cits refs (x n : str) :
  n ∈ get_neighbors (build_graph cits refs) x →
  x ∈ nodes (build_graph cits refs) ∧ n ∈ nodes (build_graph cits refs).
Proof.
  unfold get_neighbors. rewrite neighbors_of_spec.
  intros [He|He]; apply edges_in_nodes_build_graph in He; simpl in He; tauto.
Qed.

Lemma X9_witness :
  let g := build_graph [] [reference "Smith" 2020 "Journal A";
                           reference "Jones" 2021 "Journal A"] in
  lit "2" ∈ get_neighbors g (lit "1")
  ∧ lit "1" ∈ nodes g ∧ lit "2" ∈ nodes g.
Proof.
  cbv zeta.
  assert (Hn : lit "2"
               ∈ get_neighbors
                   (build_graph [] [reference "Smith" 2020 "Journal A";
                                    reference "Jones" 2021 "Journal A"])
                   (lit "1"))
    by (apply (bool_decide_unpack _); vm_compute; exact I).
  split; [exact Hn|]. exact (X9_neighbors_are_nodes _ _ _ _ Hn).
Defined.

(** ** The cartel detector, exactly *)

Lemma elem_of_flat_map {A B : Type} (f : A → list B) (l : list A) (y : B) :
  y ∈ flat_map f l ↔ ∃ x, x ∈ l ∧ y ∈ f x.
Proof.
  rewrite list_elem_of_In, in_flat_map. by setoid_rewrite list_elem_of_In.
Qed.

Lemma cartels_of_neighbor_spec `{SetOrder} g (a b : str) p :
  b ∈ get_neighbors g a →
  p ∈ cartels_of_neighbor g a b ↔ a ≠ b ∧ p = cartel_pattern a b 3.
Proof.
  intros Hb. assert (Ha : a ∈ get_neighbors g b).
  { unfold get_neighbors in *. rewrite neighbors_of_spec in *. tauto. }
  unfold cartels_of_neighbor. case_decide; [|done].
  destruct (decide (a = b)) as [->|Hne].
  - rewrite find_ring_size_self. unfold RECIPROCAL_CITATION_THRESHOLD.
    case_decide; [lia|]. rewrite elem_of_nil. tauto.
  - rewrite find_ring_size_edge by done.
    unfold RECIPROCAL_CITATION_THRESHOLD. case_decide; [|lia].
    rewrite list_elem_of_singleton. tauto.
Qed.

Lemma detect_citation_cartels_spec `{SetOrder} g p :
  p ∈ detect_citation_cartels g
  ↔ ∃ a b, a ∈ nodes g ∧ adjacent g a b ∧ a ≠ b ∧ p = cartel_pattern a b 3.
Proof.
  unfold detect_citation_cartels, cartels_of_node, adjacent.
  rewrite elem_of_flat_map. split.
  - intros (a & Ha & Hp). apply elem_of_flat_map in Hp as (b & Hb & Hp).
    apply cartels_of_neighbor_spec in Hp as [Hne ->]; [|done].
    exists a, b. rewrite set_iter_elem in Ha.
    unfold get_neighbors in Hb. by rewrite neighbors_of_spec in Hb.
  - intros (a & b & Ha & Hb & Hne & ->). exists a.
    rewrite set_iter_elem. split; [done|]. apply elem_of_flat_map.
    assert (b ∈ get_neighbors g a)
      by (unfold get_neighbors; by rewrite neighbors_of_spec).
    exists b. split; [done|]. by apply cartels_of_neighbor_spec.
Qed.

Lemma cartel_score `{SetOrder} g p :
  p ∈ detect_citation_cartels g → (suspicion_score p == 3 # 10)%Q.
Proof.
  rewrite detect_citation_cartels_spec. by intros (a & b & _ & _ & _ & ->).
Qed.

Lemma above_cartels `{SetOrder} q g :
  (3 # 10 <= q)%Q → above q (detect_citation_cartels g) = [].
Proof.
  intros Hq. apply filter_none. intros p Hp. apply cartel_score in Hp. lra.
Qed.

Lemma flat_map_filter {A B : Type} (f : A → list B) (h : A → B)
    (P : A → Prop) `{∀ x, Decision (P x)} (l : list A) :
  (∀ x, x ∈ l → f x = if decide (P x) then [h x] else []) →
  flat_map f l = map h (filter P l).
Proof.
  induction l as [|x l IH]; intros Hf; [done|]. simpl.
  rewrite (Hf x) by apply list_elem_of_here.
  rewrite IH by (intros y Hy; by apply Hf, list_elem_of_further).
  rewrite filter_cons. by case_decide.
Qed.

Lemma cartels_of_node_eq `{SetOrder} g (a : str) :
  cartels_of_node g a
  = map (λ b, cartel_pattern a b 3) (filter (λ b, b ≠ a) (get_neighbors g a)).
Proof.
  unfold cartels_of_node. apply flat_map_filter. intros b Hb.
  assert (Ha : a ∈ get_neighbors g b).
  { unfold get_neighbors in *. rewrite neighbors_of_spec in *. tauto. }
  unfold cartels_of_neighbor. rewrite decide_True by done.
  unfold RECIPROCAL_CITATION_THRESHOLD.
  destruct (decide (a = b)) as [->|Hne].
  - rewrite find_ring_size_self, decide_False by lia.
    by rewrite decide_False by (by intros ?).
  - rewrite find_ring_size_edge, decide_True by (done || lia).
    by rewrite decide_True by congruence.
Qed.

(** X10: the cartel detector reports, node after node, one pattern for
    every entry of the node's neighbour list other than the node itself:
    so a neighbour joined by several edges is reported as often, and each
    pair of neighbours from both ends.  Every pattern has the ring
    size 3, whatever the graph, and the suspicion score 0.3, so no cartel
    is among the patterns above 0.5 that the risk score counts. *)
Theorem X10_cartels `{SetOrder} g :
  detect_citation_cartels g
  = flat_map (λ a, map (λ b, cartel_pattern a b 3)
                       (filter (λ b, b ≠ a) (get_neighbors g a)))
             (set_iter (nodes g))
  ∧ (∀ p, p ∈ detect_citation_cartels g
          ↔ ∃ a b, a ∈ nodes g ∧ adjacent g a b ∧ a ≠ b
                   ∧ p = cartel_pattern a b 3)
  ∧ (∀ p, p ∈ detect_citation_cartels g → (suspicion_score p == 3 # 10)%Q)
  ∧ above (5 # 10) (detect_citation_cartels g) = [].
Proof.
  split; [|split; [|split]].
  - unfold detect_citation_cartels. apply flat_map_ext.
    intros a. apply cartels_of_node_eq.
  - intros p. apply detect_citation_cartels_spec.
  - intros p. apply cartel_score.
  - by apply above_cartels.
Qed.

(** ** The patterns that count *)

Lemma detect_patterns_split `{SetOrder} clk t g cits :
  (detect_patterns clk t g cits).1
  = option_list (detect_clustering g) ++ detect_citation_cartels g
    ++ option_list (detect_concentration g cits)
    ++ option_list (detect_temporal_anomalies clk t g).1.
Proof.
  unfold detect_patterns. destruct (detect_temporal_anomalies clk t g).
  simpl. by rewrite <- !app_assoc.
Qed.

Lemma detect_clustering_ptype `{SetOrder} g p :
  detect_clustering g = Some p → ptype p = ExcessiveClustering.
Proof.
  unfold detect_clustering. case_decide; [done|].
  destruct (fold_left _ _ _) as [total n]. case_decide; [done|].
  destruct (Qlt_le_dec _ _); [|done]. by intros [= <-].
Qed.

Lemma detect_concentration_ptype g cits p :
  detect_concentration g cits = Some p → ptype p = CitationConcentration.
Proof.
  unfold detect_concentration. destruct cits; [done|].
  destruct (citation_counts _); [done|].
  destruct (Qlt_le_dec _ _); [|done]. by intros [= <-].
Qed.

Lemma detect_temporal_anomalies_pattern `{SetOrder} clk t g p :
  (detect_temporal_anomalies clk t g).1 = Some p →
  ptype p = TemporalAnomaly ∧ suspicion_score p = 6 # 10.
Proof.
  unfold detect_temporal_anomalies. case_decide; [done|]. simpl.
  case_decide; [|done]. by intros [= <-].
Qed.

Lemma analyze_fields `{SetOrder} clk t text refs names r t' :
  analyze clk t text refs names = Ok (r, t') →
  ∃ cits n,
    extract_citations text refs = Ok cits
    ∧ count_self_citations cits refs (default [] names) = Ok n
    ∧ let g := build_graph cits refs in
      let pt := detect_patterns clk t g cits in
      let rate := (QN n / QN (Nat.max (length cits) 1))%Q in
      let diversity := calculate_citation_diversity cits refs in
      self_citation_rate r = rate
      ∧ citation_clusters r = find_clusters g
      ∧ suspicious_patterns r = above (5 # 10) pt.1
      ∧ citation_network_density r = calculate_network_density g
      ∧ temporal_distribution r = analyze_temporal_distribution refs
      ∧ author_citation_diversity r = diversity
      ∧ risk_score r
        = calculate_citation_risk_score rate pt.1
            (calculate_network_density g) diversity
      ∧ recommendations r
        = (generate_recommendations clk pt.2 rate pt.1 diversity
             (analyze_temporal_distribution refs)).1.
Proof.
  unfold analyze. destruct (extract_citations text refs) as [cits|e]; [|done].
  cbn [mbind outcome_bind].
  destruct (detect_patterns _ _ _ _) as [patterns t1] eqn:Hp.
  destruct (count_self_citations _ _ _) as [n|e] eqn:Hn; [|done].
  cbn [mbind outcome_bind].
  destruct (generate_recommendations _ _ _ _ _ _) as [recs t2] eqn:Hrecs.
  intros [= <- <-]. exists cits, n. cbv zeta. rewrite Hp. simpl.
  rewrite Hrecs. repeat split; done.
Qed.

Lemma length_filter_option_list {A : Type} (P : A → Prop)
    `{∀ x, Decision (P x)} (o : option A) :
  length (filter P (option_list o)) ≤ 1.
Proof.
  destruct o as [x|]; simpl; [|lia].
  rewrite filter_cons, filter_nil. case_decide; simpl; lia.
Qed.

Lemma above_split `{SetOrder} q clk t g cits :
  (3 # 10 <= q)%Q →
  above q (detect_patterns clk t g cits).1
  = above q (option_list (detect_clustering g))
    ++ above q (option_list (detect_concentration g cits))
    ++ above q (option_list (detect_temporal_anomalies clk t g).1).
Proof.
  intros Hq. rewrite detect_patterns_split. unfold above at 1.
  rewrite !filter_app. fold (above q (detect_citation_cartels g)).
  by rewrite above_cartels.
Qed.

Lemma elem_of_above_option q o p :
  p ∈ above q (option_list o) → o = Some p ∧ (q < suspicion_score p)%Q.
Proof.
  unfold above. rewrite list_elem_of_filter. destruct o as [p'|]; simpl.
  - rewrite list_elem_of_singleton. by intros [? ->].
  - rewrite elem_of_nil. tauto.
Qed.

Lemma length_above_5 `{SetOrder} clk t g cits :
  length (above (5 # 10) (detect_patterns clk t g cits).1) ≤ 3.
Proof.
  rewrite above_split by lra. rewrite !length_app. unfold above.
  pose proof (length_filter_option_list
                (λ p, (5 # 10 < suspicion_score p)%Q) (detect_clustering g)).
  pose proof (length_filter_option_list
                (λ p, (5 # 10 < suspicion_score p)%Q)
                (detect_concentration g cits)).
  pose proof (length_filter_option_list
                (λ p, (5 # 10 < suspicion_score p)%Q)
                (detect_temporal_anomalies clk t g).1).
  lia.
Qed.

(** X11: a result lists at most three suspicious patterns, and never a
    citation cartel: the cartel detector scores 0.3, below the 0.5 that a
    pattern needs to be listed and to count in the risk score. *)
Theorem X11_suspicious_patterns `{SetOrder} clk t text refs names r t' :
  analyze clk t text refs names = Ok (r, t') →
  length (suspicious_patterns r) ≤ 3
  ∧ ∀ p, p ∈ suspicious_patterns r →
      ptype p = ExcessiveClustering ∨ ptype p = CitationConcentration
      ∨ ptype p = TemporalAnomaly.
Proof.
  intros Hok. apply analyze_fields in Hok as (cits & n & _ & _ & Hr).
  destruct Hr as (_ & _ & -> & _). split; [apply length_above_5|].
  rewrite above_split by lra.
  intros p. rewrite !elem_of_app.
  intros [Hp|[Hp|Hp]]; apply elem_of_above_option in Hp as [Hp _].
  - left. by eapply detect_clustering_ptype.
  - right; left. by eapply detect_concentration_ptype.
  - right; right. by apply detect_temporal_anomalies_pattern in Hp as [Hp _].
Qed.

Lemma X11_witness :
  match analyze (clock_in 2026) 0
          (lit "Foo [1] bar [1] baz [1]. See [2].")
          [reference "Smith" 2001 "Journal A";
           reference "Jones" 2002 "Journal A";
           reference "Brown" 2003 "Journal A";
           reference "Green" 2004 "Journal B";
           reference "White" 2005 "Journal C"]
          None with
  | Ok (r, _) => length (suspicious_patterns r) ≤ 3
  | Raise _ => False
  end.
Proof.
  destruct (analyze _ _ _ _ _) as [[r t']|e] eqn:Heq.
  - exact (proj1 (X11_suspicious_patterns _ _ _ _ _ _ _ Heq)).
  - vm_compute in Heq. discriminate Heq.
Defined.

(** ** The recommendation on suspicious patterns *)

Lemma length_above_6 `{SetOrder} clk t g cits :
  length (above (6 # 10) (detect_patterns clk t g cits).1) ≤ 2.
Proof.
  rewrite above_split by lra. rewrite !length_app.
  assert (above (6 # 10) (option_list (detect_temporal_anomalies clk t g).1)
          = []) as ->.
  { apply filter_none. intros p Hp.
    destruct (detect_temporal_anomalies clk t g).1 as [p'|] eqn:Hd;
      simpl in Hp; [|by apply elem_of_nil in Hp].
    apply list_elem_of_singleton in Hp as ->.
    apply detect_temporal_anomalies_pattern in Hd as [_ ->]. lra. }
  unfold above.
  pose proof (length_filter_option_list
                (λ p, (6 # 10 < suspicion_score p)%Q) (detect_clustering g)).
  pose proof (length_filter_option_list
                (λ p, (6 # 10 < suspicion_score p)%Q)
                (detect_concentration g cits)).
  simpl. lia.
Qed.

Lemma manipulation_warning_in clk t rate patterns diversity dist k :
  manipulation_warning k
    ∈ (generate_recommendations clk t rate patterns diversity dist).1
  ↔ k = length (above (6 # 10) patterns) ∧ 0 < k.
Proof.
  unfold generate_recommendations.
  destruct (match dist with [] => _ | _ => _ end) as [r3 t3] eqn:Hr3. simpl.
  assert (Hr3' : ∀ x, x ∈ r3 → x = F "Consider including more recent references (last 3 years)." []).
  { destruct dist; [injection Hr3 as <- <-; by intros x ?%elem_of_nil|].
    destruct (recent_years _ _ _) as [recent t4].
    injection Hr3 as <- <-. destruct recent; intros x Hx.
    - by apply list_elem_of_singleton in Hx.
    - by apply elem_of_nil in Hx. }
  rewrite !elem_of_app. split.
  - intros [Hin|[Hin|[Hin|Hin]]].
    + destruct (Qlt_le_dec _ _); [|by apply elem_of_nil in Hin].
      apply list_elem_of_singleton in Hin. discriminate Hin.
    + destruct (Qlt_le_dec _ _); [|by apply elem_of_nil in Hin].
      apply list_elem_of_singleton in Hin. discriminate Hin.
    + apply Hr3' in Hin. discriminate Hin.
    + destruct (above (6 # 10) patterns) as [|p ps];
        [by apply elem_of_nil in Hin|].
      apply list_elem_of_singleton in Hin. injection Hin as ->.
      simpl. split; [done|lia].
  - intros [-> Hpos]. do 3 right.
    destruct (above (6 # 10) patterns) as [|p ps]; [simpl in Hpos; lia|].
    apply list_elem_of_singleton. done.
Qed.

(** X12: the recommendation to review the citation practices comes with
    the number of patterns whose score is above 0.6; that number is 1 or
    2, since a cartel scores 0.3 and a temporal anomaly 0.6, so that
    neither of them brings the recommendation or is counted in it. *)
Theorem X12_manipulation_warning `{SetOrder} clk t text refs names r t' k :
  analyze clk t text refs names = Ok (r, t') →
  manipulation_warning k ∈ recommendations r →
  1 ≤ k ≤ 2
  ∧ ∃ p, p ∈ suspicious_patterns r
         ∧ (ptype p = ExcessiveClustering ∨ ptype p = CitationConcentration).
Proof.
  intros Hok. apply analyze_fields in Hok as (cits & n & _ & _ & Hr).
  destruct Hr as (_ & _ & -> & _ & _ & _ & _ & ->).
  rewrite manipulation_warning_in. intros [-> Hpos].
  pose proof (length_above_6 clk t (build_graph cits refs) cits) as Hle.
  split; [lia|].
  rewrite above_split in Hpos by lra. rewrite !length_app in Hpos.
  rewrite (above_split (5 # 10)) by lra.
  repeat setoid_rewrite elem_of_app.
  destruct (above (6 # 10) (option_list (detect_clustering _)))
    as [|p ps] eqn:Hcl.
  - destruct (above (6 # 10) (option_list (detect_concentration _ _)))
      as [|p ps] eqn:Hco.
    + exfalso. simpl in Hpos.
      destruct (detect_temporal_anomalies clk t (build_graph cits refs)).1
        as [p'|] eqn:Hd; [|simpl in Hpos; lia].
      apply detect_temporal_anomalies_pattern in Hd as [_ Hs].
      simpl in Hpos. unfold above in Hpos.
      rewrite filter_cons_False in Hpos by (rewrite Hs; lra).
      simpl in Hpos. lia.
    + assert (Hp : p ∈ above (6 # 10)
                (option_list (detect_concentration (build_graph cits refs) cits)))
        by (rewrite Hco; apply list_elem_of_here).
      apply elem_of_above_option in Hp as [Hp Hs]. exists p. split.
      * right; left. unfold above. apply list_elem_of_filter.
        split; [lra|]. rewrite Hp. apply list_elem_of_here.
      * right. by eapply detect_concentration_ptype.
  - assert (Hp : p ∈ above (6 # 10)
              (option_list (detect_clustering (build_graph cits refs))))
      by (rewrite Hcl; apply list_elem_of_here).
    apply elem_of_above_option in Hp as [Hp Hs]. exists p. split.
    + left. unfold above. apply list_elem_of_filter.
      split; [lra|]. rewrite Hp. apply list_elem_of_here.
    + left. by eapply detect_clustering_ptype.
Qed.

Lemma X12_witness :
  match analyze (clock_in 2026) 0
          (lit "Foo [1] bar [1] baz [1]. See [2].")
          [reference "Smith" 2001 "Journal A";
           reference "Jones" 2002 "Journal B"]
          None with
  | Ok (r, _) =>
      manipulation_warning 1 ∈ recommendations r
      ∧ ∃ p, p ∈ suspicious_patterns r
             ∧ (ptype p = ExcessiveClustering
                ∨ ptype p = CitationConcentration)
  | Raise _ => False
  end.
Proof.
  destruct (analyze _ _ _ _ _) as [[r t']|e] eqn:Heq.
  - assert (Hin : manipulation_warning 1 ∈ recommendations r).
    { pose proof Heq as Hr. vm_compute in Hr. injection Hr as <- _.
      apply list_elem_of_In. simpl. auto. }
    split; [exact Hin|].
    exact (proj2 (X12_manipulation_warning _ _ _ _ _ _ _ _ Heq Hin)).
  - vm_compute in Heq. discriminate Heq.
Defined.

(** ** The extremes of the risk score *)

Lemma QN_small (k : nat) :
  (k = 0 ∧ (QN k == 0)%Q) ∨ (k = 1 ∧ (QN k == 1)%Q) ∨ (k = 2 ∧ (QN k == 2)%Q)
  ∨ (3 ≤ k ∧ (3 <= QN k)%Q).
Proof.
  destruct k as [|[|[|k]]]; [by left|by right; left|by right; right; left|].
  do 3 right. split; [lia|]. unfold QN, Qle. simpl. lia.
Qed.

Lemma risk_score_extremes rate patterns density diversity :
  let k := length (above (5 # 10) patterns) in
  let risk := calculate_citation_risk_score rate patterns density diversity in
  ((risk == 0)%Q ↔ (rate <= 2 # 10)%Q ∧ k = 0 ∧ (density <= 7 # 10)%Q
                   ∧ (3 # 10 <= diversity)%Q)
  ∧ ((risk == 1)%Q ↔ (3 # 10 < rate)%Q ∧ 3 ≤ k ∧ (7 # 10 < density)%Q
                     ∧ (diversity < 3 # 10)%Q).
Proof.
  cbv zeta. unfold calculate_citation_risk_score.
  set (k := length (above (5 # 10) patterns)).
  set (m := Qmin (QN k * (15 # 100)) (4 # 10)).
  assert (Hm : (k = 0 ∧ (m == 0)%Q) ∨ (k = 1 ∧ (m == 15 # 100)%Q)
               ∨ (k = 2 ∧ (m == 30 # 100)%Q) ∨ (3 ≤ k ∧ (m == 4 # 10)%Q)).
  { pose proof (Q.min_spec (QN k * (15 # 100)) (4 # 10)) as Hq.
    fold m in Hq. clearbody m.
    destruct Hq as [[? Hq]|[? Hq]];
      destruct (QN_small k) as [[? ?]|[[? ?]|[[? ?]|[? ?]]]];
      first [ left; split; [done|lra]
            | right; left; split; [done|lra]
            | right; right; left; split; [done|lra]
            | right; right; right; split; [done|lra]
            | exfalso; lra ]. }
  clearbody m.
  destruct (Qlt_le_dec (3 # 10) rate), (Qlt_le_dec (2 # 10) rate),
    (Qlt_le_dec (7 # 10) density), (Qlt_le_dec diversity (3 # 10));
    match goal with
    | |- context [Qmin ?x 1] =>
        pose proof (Q.min_spec x 1) as Hq; set (risk := Qmin x 1) in *;
        clearbody risk
    end;
    destruct Hq as [[? ?]|[? ?]];
    destruct Hm as [[? ?]|[[? ?]|[[? ?]|[? ?]]]];
    (split;
     (split;
      [intros ?; repeat split; first [lia | lra | exfalso; lra]
      | intros (? & ? & ? & ?); first [lra | exfalso; lia]])).
Qed.

(** X13: the risk score of a result is 0 exactly when none of its four
    signals fires, and 1 exactly when all of them fire in full: a
    self-citation rate above 0.3, three suspicious patterns, a density
    above 0.7 and a diversity below 0.3. *)
Theorem X13_risk_extremes `{SetOrder} clk t text refs names r t' :
  analyze clk t text refs names = Ok (r, t') →
  ((risk_score r == 0)%Q
   ↔ (self_citation_rate r <= 2 # 10)%Q ∧ suspicious_patterns r = []
     ∧ (citation_network_density r <= 7 # 10)%Q
     ∧ (3 # 10 <= author_citation_diversity r)%Q)
  ∧ ((risk_score r == 1)%Q
     ↔ (3 # 10 < self_citation_rate r)%Q ∧ length (suspicious_patterns r) = 3
       ∧ (7 # 10 < citation_network_density r)%Q
       ∧ (author_citation_diversity r < 3 # 10)%Q).
Proof.
  intros Hok. apply analyze_fields in Hok as (cits & n & _ & _ & Hr).
  destruct Hr as (-> & _ & -> & -> & _ & -> & -> & _).
  pose proof (length_above_5 clk t (build_graph cits refs) cits) as Hle.
  destruct (risk_score_extremes (QN n / QN (Nat.max (length cits) 1))
              (detect_patterns clk t (build_graph cits refs) cits).1
              (calculate_network_density (build_graph cits refs))
              (calculate_citation_diversity cits refs)) as [H0 H1].
  rewrite H0, H1, <- length_zero_iff_nil. split; [done|].
  split; intros (? & ? & ? & ?); repeat split; try done; lia.
Qed.

Lemma X13_witness :
  match analyze (clock_in 2026) 0 (lit "No markers here.")
          [reference "Smith" 2020 "Journal A"] None with
  | Ok (r, _) => (risk_score r == 0)%Q
  | Raise _ => False
  end.
Proof.
  destruct (analyze _ _ _ _ _) as [[r t']|e] eqn:Heq.
  - apply (proj2 (proj1 (X13_risk_extremes _ _ _ _ _ _ _ Heq))).
    pose proof Heq as Hr. vm_compute in Hr. injection Hr as <- _.
    cbn [self_citation_rate suspicious_patterns citation_network_density
         author_citation_diversity].
    split; [|split; [|split]]; vm_compute; first [reflexivity | discriminate].
  - vm_compute in Heq. discriminate Heq.
Defined.

(** ** The temporal distribution *)

Lemma reference_years_cons ref refs :
  reference_years (ref :: refs)
  = option_list (truthy_year (ref_year ref)) ++ reference_years refs.
Proof.
  unfold reference_years. simpl. destruct (ref_year ref) as [y|]; simpl; [|done].
  fold (omap ref_year refs). case_decide.
  - by rewrite filter_cons_False by (by intros ?).
  - by rewrite filter_cons_True.
Qed.

Lemma analyze_temporal_distribution_fold refs :
  analyze_temporal_distribution refs
  = fold_left (λ d y, dict_incr y d) (reference_years refs) [].
Proof.
  unfold analyze_temporal_distribution. generalize (@nil (Z * nat)).
  induction refs as [|ref refs IH]; intros d; [done|].
  rewrite reference_years_cons. simpl. rewrite IH, fold_left_app.
  by destruct (truthy_year (ref_year ref)).
Qed.

Lemma reference_years_count refs (y : Z) :
  y ≠ 0%Z →
  length (filter (λ x, x = y) (reference_years refs))
  = length (with_year refs y).
Proof.
  intros Hy. induction refs as [|ref refs IH]; [done|].
  rewrite reference_years_cons, filter_app, length_app, IH.
  unfold with_year. rewrite filter_cons.
  destruct (ref_year ref) as [x|]; simpl;
    repeat (case_decide; simpl); rewrite ?filter_cons, ?filter_nil;
    repeat (case_decide; simpl); simplify_eq; try done; lia.
Qed.

Lemma reference_years_nonzero refs (y : Z) : y ∈ reference_years refs → y ≠ 0%Z.
Proof. unfold reference_years. rewrite list_elem_of_filter. tauto. Qed.

Lemma elem_of_count {A : Type} `{EqDecision A} (l : list A) (x : A) :
  x ∈ l ↔ 0 < length (filter (λ y, y = x) l).
Proof.
  induction l as [|y l IH].
  - rewrite elem_of_nil. simpl. lia.
  - rewrite elem_of_cons, filter_cons, IH.
    case_decide; simpl; [|naive_solver]. split; [lia|]. by left.
Qed.

(** X14: the temporal distribution has one entry per year other than 0
    that some reference has, and the entry counts the references of the
    year; references without a year, or with the year 0, are left out. *)
Theorem X14_temporal_distribution refs :
  let dist := analyze_temporal_distribution refs in
  NoDup (map fst dist)
  ∧ (∀ y n, (y, n) ∈ dist
            ↔ y ≠ 0%Z ∧ 0 < n ∧ n = length (with_year refs y))
  ∧ list_sum (map snd dist) = length (reference_years refs).
Proof.
  cbv zeta. rewrite analyze_temporal_distribution_fold.
  assert (Hnd : NoDup (map fst (fold_left (λ d y, dict_incr y d)
                                  (reference_years refs) [])))
    by apply keys_fold_NoDup, NoDup_nil_2.
  split; [done|]. split; [|by rewrite sum_fold].
  intros y n. split.
  - intros Hin.
    assert (Hy : y ∈ reference_years refs).
    { assert (Hk : y ∈ map fst (fold_left (λ d y, dict_incr y d)
                                  (reference_years refs) []))
        by (apply list_elem_of_fmap; by exists (y, n)).
      apply keys_fold in Hk as [Hk|Hk]; [by apply elem_of_nil in Hk|done]. }
    pose proof (reference_years_nonzero _ _ Hy) as Hne.
    apply dget_elem in Hin; [|done]. rewrite dget_fold in Hin. simpl in Hin.
    apply elem_of_count in Hy. rewrite reference_years_count in * by done.
    split; [done|]. lia.
  - intros (Hne & Hpos & ->). rewrite <- reference_years_count in * by done.
    assert (Hd : dget y (fold_left (λ d y, dict_incr y d)
                           (reference_years refs) [])
                 = length (filter (λ x, x = y) (reference_years refs)))
      by (by rewrite dget_fold).
    rewrite <- Hd. apply elem_dget, keys_fold. right.
    by apply elem_of_count.
Qed.

(** ** The temporal detector, in terms of the references *)

Lemma ref_map_snd refs : map snd (ref_map refs) = refs.
Proof.
  unfold ref_map.
  assert (∀ k, map snd (imap (λ i ref, (str_of_nat (k + i + 1), ref)) refs)
               = refs) as Hk.
  { induction refs as [|x l IH]; intros k; [done|].
    rewrite imap_cons_shift. simpl. f_equal. rewrite <- (IH (S k)) at 2.
    f_equal. apply imap_ext. intros i y _. do 2 f_equal. lia. }
  apply (Hk 0).
Qed.

Lemma omap_fmap_ext {A B C : Type} (f : B → option C) (h : A → option C)
    (k : A → B) (l : list A) :
  (∀ x, x ∈ l → f (k x) = h x) → omap f (map k l) = omap h l.
Proof.
  induction l as [|x l IH]; intros Hl; [done|]. simpl.
  rewrite (Hl x) by apply list_elem_of_here.
  assert (IH' : omap f (map k l) = omap h l)
    by (apply IH; intros y Hy; by apply Hl, list_elem_of_further).
  destruct (h x); [f_equal|]; exact IH'.
Qed.

Lemma omap_truthy_years refs :
  omap (λ ref, truthy_year (ref_year ref)) refs = reference_years refs.
Proof.
  induction refs as [|ref refs IH]; [done|].
  rewrite reference_years_cons, <- IH. simpl.
  by destruct (truthy_year (ref_year ref)).
Qed.

Lemma node_years_build_graph `{SetOrder} cits refs :
  node_years (build_graph cits refs) ≡ₚ reference_years refs.
Proof.
  unfold node_years. rewrite set_iter_perm, nodes_build_graph, <- ref_map_keys.
  rewrite elements_list_to_set by apply ref_map_NoDup.
  rewrite (omap_fmap_ext _ (λ kv, truthy_year (ref_year kv.2))).
  - rewrite <- omap_truthy_years.
    rewrite <- (omap_fmap_ext (λ ref, truthy_year (ref_year ref))
                  (λ kv : str * Reference, truthy_year (ref_year kv.2))
                  snd (ref_map refs)) by done.
    by rewrite ref_map_snd.
  - intros [k ref] Hin. apply list_elem_of_lookup in Hin as [i Hi].
    rewrite ref_map_lookup in Hi.
    destruct (refs !! i) as [ref'|] eqn:Hri; simplify_eq/=.
    by rewrite (node_attributes_build_graph _ _ _ _ Hri).
Qed.

Lemma max_year_spec (l : list Z) :
  l ≠ [] → max_year l ∈ l ∧ Forall (λ y, (y ≤ max_year l)%Z) l.
Proof.
  destruct l as [|y l]; [done|]. intros _. unfold max_year.
  assert (Hfold : ∀ l m, (fold_left Z.max l m = m
                          ∨ fold_left Z.max l m ∈ l)
                         ∧ (m ≤ fold_left Z.max l m)%Z
                         ∧ Forall (λ y, (y ≤ fold_left Z.max l m)%Z) l).
  { clear. induction l as [|x l IH]; intros m; simpl.
    - split; [by left|]. split; [lia|constructor].
    - destruct (IH (Z.max m x)) as (Hin & Hle & Hall).
      split; [|split; [lia|constructor; [lia|done]]].
      destruct Hin as [Heq|Hin]; [|right; by apply list_elem_of_further].
      rewrite Heq. destruct (Z.max_spec m x) as [[_ ->]|[_ ->]];
        [right; apply list_elem_of_here|by left]. }
  destruct (Hfold l y) as (Hin & Hle & Hall). split.
  - destruct Hin as [->|Hin]; [apply list_elem_of_here|].
    by apply list_elem_of_further.
  - by constructor.
Qed.

Lemma max_year_perm (l1 l2 : list Z) : l1 ≡ₚ l2 → max_year l1 = max_year l2.
Proof.
  intros Hp. destruct l1 as [|x l1].
  - by apply Permutation_nil in Hp as ->.
  - assert (l2 ≠ []) by (intros ->; by apply Permutation_nil_r in Hp).
    destruct (max_year_spec (x :: l1)) as [Hin1 Hle1]; [done|].
    destruct (max_year_spec l2) as [Hin2 Hle2]; [done|].
    assert (Hin1' : max_year (x :: l1) ∈ l2)
      by (apply list_elem_of_In; eapply Permutation_in;
          [exact Hp|by apply list_elem_of_In]).
    assert (Hin2' : max_year l2 ∈ x :: l1)
      by (apply list_elem_of_In; eapply Permutation_in;
          [symmetry; exact Hp|by apply list_elem_of_In]).
    rewrite Forall_forall in Hle1, Hle2.
    apply Hle1 in Hin2'. apply Hle2 in Hin1'. lia.
Qed.

(** X15: on the graph built from the references, the temporal detector
    reports an anomaly exactly when five references or more have a year
    other than 0 and every such year is more than three years before the
    current one; it reads the clock only when five years are known, and
    the year in its evidence is the latest of them. *)
Theorem X15_temporal_anomaly `{SetOrder} clk t cits refs :
  let out := detect_temporal_anomalies clk t (build_graph cits refs) in
  let years := reference_years refs in
  (is_Some out.1
   ↔ 5 ≤ length years ∧ Forall (λ y, (y < year (clk t) - 3)%Z) years)
  ∧ out.2 = (if decide (length years < 5) then t else S t)
  ∧ ∀ p, out.1 = Some p →
      evidence p = [F "Most recent citation year: {}" [ArgZ (max_year years)];
                    F "Consider including more recent references" []]
      ∧ max_year years ∈ years
      ∧ Forall (λ y, (y ≤ max_year years)%Z) years.
Proof.
  cbv zeta. pose proof (node_years_build_graph cits refs) as Hperm.
  unfold detect_temporal_anomalies.
  rewrite (max_year_perm _ _ Hperm).
  set (recent := length (filter _ (node_years _))).
  assert (Hrecent : recent = 0
                    ↔ Forall (λ y, (y < year (clk t) - 3)%Z)
                             (reference_years refs)).
  { subst recent. rewrite Hperm, length_zero_iff_nil.
    generalize (reference_years refs). intros l.
    induction l as [|y l IH]; [by split; [constructor|]|].
    rewrite filter_cons, Forall_cons. case_decide.
    - split; [done|]. intros [? _]. lia.
    - rewrite IH. split; [|tauto]. intros ?. split; [lia|done]. }
  rewrite (Permutation_length Hperm).
  case_decide as Hlen; simpl.
  - split; [|split; [done|by intros p]].
    split; [by intros [? ?]|]. intros [? _]. lia.
  - split; [|split; [done|]].
    + case_decide as Hr.
      * split; [|by eexists]. intros _. split; [lia|]. by apply Hrecent.
      * split; [by intros [? ?]|]. intros [_ Hall]. by apply Hrecent in Hall.
    + intros p. case_decide; [|done]. intros [= <-]. simpl.
      split; [done|]. apply max_year_spec. intros Hnil.
      rewrite Hnil in Hlen. simpl in Hlen. lia.
Qed.

(** ** The clustering detector *)

Lemma all_pairs_length {A : Type} (l : list A) :
  2 * length (all_pairs l) = length l * (length l - 1).
Proof.
  induction l as [|x l IH]; [done|].
  simpl. rewrite length_app, length_map. nia.
Qed.

Lemma QN_le (n m : nat) : n ≤ m → (QN n <= QN m)%Q.
Proof. intros Hle. unfold QN. rewrite <- Zle_Qle. lia. Qed.

Lemma QN_S (n : nat) : (QN (n + 1) == QN n + 1)%Q.
Proof.
  unfold QN. rewrite Nat2Z.inj_add, inject_Z_plus. reflexivity.
Qed.

Lemma QN_double (n : nat) : (QN (2 * n) == 2 * QN n)%Q.
Proof.
  unfold QN. rewrite Nat2Z.inj_mul, inject_Z_mult. reflexivity.
Qed.

Lemma QN_pos (n : nat) : 0 < n → (0 < QN n)%Q.
Proof.
  intros Hn. unfold QN. change 0%Q with (inject_Z 0). rewrite <- Zlt_Qlt. lia.
Qed.

Lemma clustering_step_bound `{SetOrder} g st node :
  (0 <= st.1)%Q → (st.1 <= QN st.2)%Q →
  let st' := clustering_step g st node in
  (0 <= st'.1)%Q ∧ (st'.1 <= QN st'.2)%Q
  ∧ (st'.2 = st.2 ∨ 2 ≤ get_degree g node).
Proof.
  intros H0 H1. cbv zeta. unfold clustering_step, get_degree.
  set (nbrs := get_neighbors g node).
  case_decide as Hk; [by auto|].
  set (e := length (filter _ (all_pairs nbrs))).
  set (maxp := (QN (length nbrs * (length nbrs - 1)) / 2)%Q).
  assert (He : (QN e <= maxp)%Q).
  { subst maxp. apply Qle_shift_div_l; [lra|].
    rewrite <- (all_pairs_length nbrs), QN_double.
    pose proof (QN_le e (length (all_pairs nbrs))
                  (length_filter _ _)). lra. }
  pose proof (QN_nonneg e) as He0. pose proof (QN_S st.2) as HS.
  destruct (Qlt_le_dec 0 maxp) as [Hpos|Hnpos]; simpl.
  - assert (Hr : (QN e / maxp <= 1)%Q)
      by (apply Qle_shift_div_r; [done|lra]).
    assert (Hr0 : (0 <= QN e / maxp)%Q) by (apply Qdiv_nonneg; lra).
    split; [lra|]. split; [lra|]. right. lia.
  - split; [done|]. split; [lra|]. right. lia.
Qed.

Lemma clustering_fold_bound `{SetOrder} g (l : list str) :
  ∀ st, (0 <= st.1)%Q → (st.1 <= QN st.2)%Q →
    let st' := fold_left (clustering_step g) l st in
    (0 <= st'.1)%Q ∧ (st'.1 <= QN st'.2)%Q
    ∧ (st'.2 = st.2 ∨ ∃ x, x ∈ l ∧ 2 ≤ get_degree g x).
Proof.
  induction l as [|x l IH]; intros st H0 H1; simpl; [by auto|].
  destruct (clustering_step_bound g st x H0 H1) as (H0' & H1' & Hx).
  destruct (IH _ H0' H1') as (H0'' & H1'' & Hl).
  split; [done|]. split; [done|].
  destruct Hl as [Heq|(y & Hy & Hdeg)].
  - destruct Hx as [Hx|Hx]; [left; congruence|].
    right. exists x. split; [apply list_elem_of_here|done].
  - right. exists y. split; [by apply list_elem_of_further|done].
Qed.

(** X16: when the clustering detector reports a pattern, the graph has
    three nodes or more and a node with two neighbours or more; the
    suspicion score is the average clustering coefficient given in the
    evidence, which is above 0.7 and at most 1; and the pattern names
    every node of the graph once as affected. *)
Theorem X16_clustering `{SetOrder} g p :
  detect_clustering g = Some p →
  3 ≤ size (nodes g)
  ∧ (∃ x, x ∈ nodes g ∧ 2 ≤ get_degree g x)
  ∧ (7 # 10 < suspicion_score p)%Q ∧ (suspicion_score p <= 1)%Q
  ∧ (∃ avg, evidence p
            = [F "Average clustering coefficient: {:.2f}" [ArgQ avg];
               F "Threshold exceeded: {}" [ArgQ (7 # 10)]]
            ∧ (suspicion_score p == avg)%Q)
  ∧ affected_references p ≡ₚ elements (nodes g).
Proof.
  unfold detect_clustering. case_decide as Hsz; [done|].
  destruct (clustering_fold_bound g (set_iter (nodes g)) (0%Q, 0))
    as (H0 & H1 & Hdeg); [done|done|].
  destruct (fold_left _ _ _) as [total n]. simpl in *.
  case_decide as Hn; [done|].
  destruct (Qlt_le_dec _ _) as [Hgt|]; [|done]. intros [= <-]. simpl.
  assert (Havg : (total / QN n <= 1)%Q).
  { apply Qle_shift_div_r; [apply QN_pos; lia|lra]. }
  unfold CLUSTER_DENSITY_THRESHOLD in Hgt.
  assert (Hmin : (Qmin (total / QN n) 1 == total / QN n)%Q)
    by (by apply Q.min_l).
  split; [lia|]. split.
  { destruct Hdeg as [Heq|(x & Hx & Hd)]; [lia|].
    exists x. by rewrite <- set_iter_elem. }
  split; [by rewrite Hmin|]. split; [by rewrite Hmin|].
  split; [by eexists|]. apply set_iter_perm.
Qed.

Lemma X16_witness :
  let g := mkCitationGraph {[lit "1"; lit "2"; lit "3"]}
             [(lit "1", lit "2"); (lit "1", lit "3"); (lit "2", lit "3")]
             ∅ ∅ in
  match @detect_clustering elements_order g with
  | Some p => (suspicion_score p == 1)%Q
              ∧ affected_references p ≡ₚ elements (nodes g)
  | None => False
  end.
Proof.
  cbv zeta. destruct (detect_clustering _) as [p|] eqn:Heq.
  - destruct (X16_clustering _ _ Heq) as (_ & _ & _ & _ & _ & Hperm).
    split; [|exact Hperm].
    vm_compute in Heq. injection Heq as <-. reflexivity.
  - vm_compute in Heq. discriminate Heq.
Defined.

(** ** Clusters *)

Lemma adjacent_sym g a b : adjacent g a b → adjacent g b a.
Proof. unfold adjacent. tauto. Qed.

Lemma adjacent_neighbors g a b : b ∈ get_neighbors g a ↔ adjacent g a b.
Proof. unfold get_neighbors, adjacent. apply neighbors_of_spec. Qed.

Lemma connected_sym g a b : connected g a b → connected g b a.
Proof.
  unfold connected. induction 1 as [|a b c Hab _ IH]; [done|].
  eapply rtc_r; [exact IH|]. by apply adjacent_sym.
Qed.

Lemma connected_trans g a b c :
  connected g a b → connected g b c → connected g a c.
Proof. unfold connected. apply rtc_trans. Qed.

Lemma connected_step g a b c :
  connected g a b → adjacent g b c → connected g a c.
Proof. unfold connected. intros. by eapply rtc_r. Qed.

Lemma closed_connected g V a x :
  closed g V → a ∈ V → connected g a x → x ∈ V.
Proof.
  intros Hcl Ha Hax. revert Ha. unfold connected in Hax.
  induction Hax as [|a b c Hab _ IH]; [done|].
  intros Ha. apply IH. by eapply Hcl.
Qed.

Lemma elem_of_rev {A : Type} (l : list A) (x : A) : x ∈ rev l ↔ x ∈ l.
Proof. rewrite !list_elem_of_In. symmetry. apply in_rev. Qed.

Lemma explore_loop_inv g start V0 fuel :
  start ∉ V0 →
  ∀ stack visited cluster res,
    explore_inv g start V0 stack visited cluster →
    explore_loop fuel g stack visited cluster = Some res →
    explore_inv g start V0 [] res.2 res.1.
Proof.
  intros Hout.
  induction fuel as [|fuel IH]; intros stack visited cluster res Hinv;
    [done|].
  simpl. destruct stack as [|node stack]; [by intros [= <-]|].
  destruct Hinv as (Hvis & Hcl & Hst & Hfront & Hstart).
  case_decide as Hnode; apply IH.
  - split; [done|]. split; [done|].
    split; [intros s Hs; by apply Hst, list_elem_of_further|].
    split.
    + intros c n Hc Hn. destruct (Hfront c n Hc Hn) as [?|Hin]; [by left|].
      apply elem_of_cons in Hin as [->|Hin]; [by left|by right].
    + destruct Hstart as [?|Hin]; [by left|].
      apply elem_of_cons in Hin as [->|Hin]; [|by right].
      left. set_solver.
  - assert (Hreach : connected g start node)
      by apply Hst, list_elem_of_here.
    split; [set_solver|].
    split; [intros c [->%elem_of_singleton|Hc]%elem_of_union; auto|].
    split.
    { intros s [Hs|Hs]%elem_of_app.
      - apply elem_of_rev, list_elem_of_filter in Hs as [_ Hs].
        apply adjacent_neighbors in Hs. by eapply connected_step.
      - by apply Hst, list_elem_of_further. }
    split.
    + intros c n [->%elem_of_singleton|Hc]%elem_of_union Hn.
      * destruct (decide (n ∈ {[node]} ∪ visited)) as [?|Hnew]; [by left|].
        right. apply elem_of_app. left.
        apply elem_of_rev, list_elem_of_filter.
        split; [done|]. by apply adjacent_neighbors.
      * destruct (Hfront c n Hc Hn) as [?|Hin]; [left; set_solver|].
        apply elem_of_cons in Hin as [->|Hin]; [left; set_solver|].
        right. apply elem_of_app. by right.
    + destruct Hstart as [?|Hin]; [left; set_solver|].
      apply elem_of_cons in Hin as [->|Hin]; [left; set_solver|].
      right. apply elem_of_app. by right.
Qed.

Lemma explore_cluster_spec g start V0 :
  closed g V0 → start ∉ V0 →
  (explore_cluster g start V0).2 = V0 ∪ (explore_cluster g start V0).1
  ∧ ∀ x, x ∈ (explore_cluster g start V0).1 ↔ connected g start x.
Proof.
  intros Hclosed Hstart. unfold explore_cluster.
  destruct (explore_cluster_defined g start V0) as [[C V] Hres].
  rewrite Hres. simpl.
  apply (explore_loop_inv g start V0) in Hres; [|done|].
  2:{ split; [set_solver|]. split; [intros c Hc; set_solver|].
      split; [intros s ->%list_elem_of_singleton; apply rtc_refl|].
      split; [intros c n Hc; set_solver|].
      right. apply list_elem_of_here. }
  destruct Hres as (HV & Hcl & _ & Hfront & Hin). simpl in *.
  split; [done|].
  assert (HC : closed g C).
  { intros c n Hn Hc. destruct (Hfront c n Hc Hn) as [Hv|Hv];
      [|by apply elem_of_nil in Hv].
    rewrite HV in Hv. apply elem_of_union in Hv as [Hv|Hv]; [|done].
    exfalso. apply Hstart.
    apply (closed_connected g V0 n); [done|done|].
    apply connected_sym. eapply connected_step; [by apply Hcl|done]. }
  intros x. split; [apply Hcl|].
  destruct Hin as [Hin|Hin]; [|by apply elem_of_nil in Hin].
  by apply closed_connected.
Qed.

Lemma pairwise_disjoint_snoc (cs : list (gset str)) (C : gset str) :
  pairwise_disjoint cs → Forall (λ D, D ## C) cs →
  pairwise_disjoint (cs ++ [C]).
Proof.
  induction cs as [|D cs IH]; simpl; [by auto|].
  intros [HD Hcs] Hall. apply Forall_cons in Hall as [HDC Hall].
  split; [|by apply IH]. apply Forall_app. split; [done|].
  by apply Forall_singleton.
Qed.

Lemma size_two (C : gset str) (a x : str) : a ∈ C → x ∈ C → a ≠ x → 1 < size C.
Proof.
  intros Ha Hx Hne.
  assert (Hsub : ({[a]} ∪ {[x]} : gset str) ⊆ C) by set_solver.
  apply subseteq_size in Hsub.
  rewrite size_union, !size_singleton in Hsub by set_solver. lia.
Qed.

Lemma clusters_step_inv `{SetOrder} g P st node :
  clusters_inv g P st → clusters_inv g (P ++ [node]) (clusters_step g st node).
Proof.
  destruct st as [visited clusters].
  intros (Hclosed & Hvis & Hcls & Hall & Hdisj). simpl in *.
  unfold clusters_step. case_decide as Hnode.
  - destruct (explore_cluster_spec g node visited Hclosed Hnode)
      as [HV HC].
    destruct (explore_cluster g node visited) as [C V]. simpl in *. subst V.
    assert (HCv : C ## visited).
    { intros c Hc Hv. apply Hnode.
      apply (closed_connected g visited c); [done|done|].
      by apply connected_sym, HC. }
    assert (Hold : ∀ D, D ∈ clusters → D ⊆ visited).
    { intros D HD x Hx. apply Hcls in HD as (_ & a & Ha & HDa).
      apply Hvis. exists a. split; [done|]. by apply HDa. }
    split; [|split; [|split; [|split]]]; simpl.
    + intros a b Hab [Ha|Ha]%elem_of_union; apply elem_of_union.
      * left. by eapply Hclosed.
      * right. apply HC. eapply connected_step; [by apply HC|done].
    + intros x. rewrite elem_of_union, Hvis, HC. split.
      * intros [(a & Ha & Hax)|Hx].
        -- exists a. split; [apply elem_of_app; by left|done].
        -- exists node. split; [|done]. apply elem_of_app. right.
           apply list_elem_of_here.
      * intros (a & [Ha|Ha%list_elem_of_singleton]%elem_of_app & Hax).
        -- left. by exists a.
        -- right. by subst a.
    + intros D HD.
      assert (HD' : D ∈ clusters ∨ (D = C ∧ 1 < size C)).
      { case_decide; [|by left].
        apply elem_of_app in HD as [?|HD%list_elem_of_singleton];
          [by left|right; by subst D]. }
      destruct HD' as [HD'|[-> Hsz]].
      * apply Hcls in HD' as (Hsz & a & Ha & HDa). split; [done|].
        exists a. split; [apply elem_of_app; by left|done].
      * split; [done|]. exists node. split; [|done].
        apply elem_of_app. right. apply list_elem_of_here.
    + intros a x [Ha|Ha%list_elem_of_singleton]%elem_of_app Hax Hne.
      * destruct (Hall a x Ha Hax Hne) as (D & HD & HaD & HxD).
        exists D. split; [|done]. case_decide; [|done].
        apply elem_of_app. by left.
      * subst a. assert (HxC : x ∈ C) by (by apply HC).
        assert (HnC : node ∈ C) by apply HC, rtc_refl.
        exists C. split; [|done].
        rewrite decide_True by (by apply (size_two C node x)).
        apply elem_of_app. right. apply list_elem_of_here.
    + case_decide; [|done]. apply pairwise_disjoint_snoc; [done|].
      apply Forall_forall. intros D HD. apply Hold in HD. set_solver.
  - assert (Hnode' : ∃ a, a ∈ P ∧ connected g a node) by (by apply Hvis).
    destruct Hnode' as (a' & Ha' & Ha'n).
    split; [done|]. split; [|split; [|split; [|done]]]; simpl.
    + intros x. rewrite Hvis. split.
      * intros (a & Ha & Hax). exists a.
        split; [apply elem_of_app; by left|done].
      * intros (a & [Ha|Ha%list_elem_of_singleton]%elem_of_app & Hax).
        -- by exists a.
        -- subst a. exists a'. split; [done|]. by eapply connected_trans.
    + intros D HD. apply Hcls in HD as (Hsz & a & Ha & HDa). split; [done|].
      exists a. split; [apply elem_of_app; by left|done].
    + intros a x [Ha|Ha%list_elem_of_singleton]%elem_of_app Hax Hne;
        [by apply Hall|]. subst a.
      destruct (decide (a' = x)) as [->|Hne'].
      * destruct (Hall x node Ha' Ha'n) as (D & HD & HxD & HnD);
          [congruence|]. by exists D.
      * destruct (Hall a' x Ha') as (D & HD & HaD & HxD);
          [by eapply connected_trans|done|].
        exists D. split; [done|]. split; [|done].
        destruct (Hcls D HD) as (_ & b & _ & HDb).
        apply HDb. eapply connected_trans; [by apply HDb|done].
Qed.

Lemma clusters_fold_inv `{SetOrder} g (l : list str) :
  ∀ P st, clusters_inv g P st →
          clusters_inv g (P ++ l) (fold_left (clusters_step g) l st).
Proof.
  induction l as [|node l IH]; intros P st Hinv; simpl.
  - by rewrite app_nil_r.
  - rewrite (assoc_L (++) P [node] l : P ++ node :: l = (P ++ [node]) ++ l).
    by apply IH, clusters_step_inv.
Qed.

(** X17: the clusters found are the connected components of the graph
    that have a node among them and more than one member: every cluster
    is the set of what is reached from some node along edges in any
    orientation, a node connected to anything else lies in a cluster
    together with it, and no two clusters of the list overlap. *)
Theorem X17_find_clusters `{SetOrder} g :
  (∀ C, C ∈ find_clusters g →
     1 < size C ∧ ∃ a, a ∈ nodes g ∧ ∀ x, x ∈ C ↔ connected g a x)
  ∧ (∀ a x, a ∈ nodes g → connected g a x → a ≠ x →
       ∃ C, C ∈ find_clusters g ∧ a ∈ C ∧ x ∈ C)
  ∧ pairwise_disjoint (find_clusters g).
Proof.
  unfold find_clusters.
  destruct (clusters_fold_inv g (set_iter (nodes g)) [] (∅, []))
    as (_ & _ & Hcls & Hall & Hdisj).
  { split; [intros a b _ Ha; set_solver|].
    split; [intros x; split; [set_solver|]|].
    - intros (a & Ha & _). by apply elem_of_nil in Ha.
    - split; [intros C HC; by apply elem_of_nil in HC|].
      split; [intros a x Ha; by apply elem_of_nil in Ha|done]. }
  rewrite app_nil_l in *. split; [|split; [|done]].
  - intros C HC. apply Hcls in HC as (Hsz & a & Ha & HCa). split; [done|].
    exists a. by rewrite <- set_iter_elem.
  - intros a x Ha. apply Hall. by rewrite set_iter_elem.
Qed.

(** ** Sentences *)

Lemma lstrip_split (s : str) :
  ∃ ws, s = ws ++ lstrip s ∧ Forall (λ c, isspace c = true) ws.
Proof.
  induction s as [|c s (ws & Hs & Hws)]; [by exists []|]. simpl.
  destruct (isspace c) eqn:Hc; [|by exists []].
  exists (c :: ws). split; [simpl; congruence|by constructor].
Qed.

Lemma lstrip_head (s : str) (c : ascii) :
  head (lstrip s) = Some c → isspace c = false.
Proof.
  induction s as [|x s IH]; simpl; [done|].
  destruct (isspace x) eqn:Hx; [done|]. simpl. congruence.
Qed.

Lemma last_rev {A : Type} (l : list A) : last (rev l) = head l.
Proof. destruct l as [|x l]; [done|]. simpl. by rewrite last_snoc. Qed.

Lemma strip_ends (s : str) (c : ascii) :
  (head (strip s) = Some c → isspace c = false)
  ∧ (last (strip s) = Some c → isspace c = false).
Proof.
  unfold strip, rstrip. split.
  - destruct (lstrip_split (rev (lstrip s))) as (ws & Hs & _).
    apply (f_equal (@rev ascii)) in Hs.
    rewrite rev_involutive, rev_app_distr in Hs.
    destruct (rev (lstrip (rev (lstrip s)))) as [|x l]; [done|].
    simpl. intros [= ->]. apply (lstrip_head s). by rewrite Hs.
  - rewrite last_rev. apply lstrip_head.
Qed.

(** X18: every sentence that [_split_sentences] returns is non-empty and
    neither starts nor ends with white space. *)
Theorem X18_split_sentences (text s : str) :
  s ∈ split_sentences text →
  s ≠ []
  ∧ (∀ c, head s = Some c → isspace c = false)
  ∧ (∀ c, last s = Some c → isspace c = false).
Proof.
  unfold split_sentences. intros Hs.
  apply list_elem_of_fmap in Hs as (p & -> & Hp).
  apply list_elem_of_filter in Hp as [Hne _]. split.
  - intros Heq. by rewrite Heq in Hne.
  - split; intros c; apply strip_ends.
Qed.

Lemma X18_witness :
  let s := lit "Second one [2]" in
  s ∈ split_sentences (lit "  First one.   Second one [2] !  ")
  ∧ s ≠ [].
Proof.
  cbv zeta.
  assert (Hin : lit "Second one [2]"
                ∈ split_sentences (lit "  First one.   Second one [2] !  "))
    by (apply (bool_decide_unpack _); vm_compute; exact I).
  split; [exact Hin|]. exact (proj1 (X18_split_sentences _ _ Hin)).
Defined.

Lemma scan_no_terminator (s : str) :
  Forall (λ c, c ∉ lit ".!?") s →
  ∀ pos, scan sentence_end pos 0 s = [].
Proof.
  induction s as [|c s IH]; intros Hs pos; [done|].
  apply Forall_cons in Hs as [Hc Hs]. cbn [scan].
  assert (match_at sentence_end pos (c :: s) = None) as ->.
  { unfold match_at, sentence_end, Plus. cbn [exec].
    by rewrite bool_decide_eq_false_2. }
  by apply IH.
Qed.

(** X19: a text without full stop, exclamation mark and question mark is
    one sentence, the text without the white space around it, or no
    sentence when it is blank. *)
Theorem X19_one_sentence (text : str) :
  Forall (λ c, c ∉ lit ".!?") text →
  split_sentences text
  = if nonempty (strip text) then [strip text] else [].
Proof.
  intros Htext. unfold split_sentences, Re.split, finditer.
  rewrite scan_no_terminator by done. cbn [pieces]. rewrite drop_0.
  rewrite filter_cons, filter_nil.
  destruct (nonempty (strip text)); by case_decide.
Qed.

Lemma X19_witness :
  split_sentences (lit "  as shown in [1] and [2,3]  ")
  = [lit "as shown in [1] and [2,3]"].
Proof.
  apply (X19_one_sentence (lit "  as shown in [1] and [2,3]  ")).
  apply Forall_forall. intros c Hc.
  apply (bool_decide_unpack _). revert c Hc.
  apply Forall_forall. vm_compute. repeat constructor.
Defined.

(** ** Dictionaries of lists *)

Section groups.
Context {K V : Type} `{EqDecision K}.

Lemma dgroup_append_same (k : K) (v : V) d :
  dgroup k (dict_append k v d) = dgroup k d ++ [v].
Proof.
  induction d as [|[k' vs] d IH]; cbn [dgroup dict_append].
  - by rewrite decide_True.
  - destruct (decide (k = k')) as [->|Hne]; cbn [dgroup].
    + by rewrite decide_True.
    + by rewrite decide_False.
Qed.

Lemma dgroup_append_other (k k' : K) (v : V) d :
  k ≠ k' → dgroup k' (dict_append k v d) = dgroup k' d.
Proof.
  intros Hne. induction d as [|[k0 vs] d IH]; cbn [dgroup dict_append].
  - by rewrite decide_False by congruence.
  - destruct (decide (k = k0)) as [->|Hne0]; cbn [dgroup].
    + by rewrite !decide_False by congruence.
    + by rewrite IH.
Qed.

Lemma keys_append (k : K) (v : V) d :
  map fst (dict_append k v d)
  = if decide (k ∈ map fst d) then map fst d else map fst d ++ [k].
Proof.
  induction d as [|[k1 n] d IH]; cbn [dict_append map fst].
  - rewrite decide_False; [done|]. apply not_elem_of_nil.
  - destruct (decide (k = k1)) as [->|Hne]; cbn [map fst].
    + rewrite decide_True; [done|]. apply list_elem_of_here.
    + rewrite IH. destruct (decide (k ∈ map fst d)) as [Hin|Hnin].
      * rewrite decide_True; [done|]. by apply list_elem_of_further.
      * rewrite decide_False; [done|].
        intros Hin. apply elem_of_cons in Hin as [?|?]; done.
Qed.

Lemma dgroup_elem (k : K) (vs : list V) (d : list (K * list V)) :
  NoDup (map fst d) → (k, vs) ∈ d → dgroup k d = vs.
Proof.
  induction d as [|[k' vs'] d IH]; simpl; intros Hnd Hin.
  - by apply elem_of_nil in Hin.
  - apply NoDup_cons in Hnd as [Hk' Hnd].
    apply elem_of_cons in Hin as [[= <- <-]|Hin].
    + by rewrite decide_True.
    + rewrite decide_False; [by apply IH|]. intros ->. apply Hk'.
      apply list_elem_of_fmap. by exists (k', vs).
Qed.

Lemma elem_dgroup (k : K) (d : list (K * list V)) :
  k ∈ map fst d → (k, dgroup k d) ∈ d.
Proof.
  induction d as [|[k' vs'] d IH]; simpl; intros Hin.
  - by apply elem_of_nil in Hin.
  - destruct (decide (k = k')) as [->|Hne]; [apply list_elem_of_here|].
    apply list_elem_of_further, IH.
    by apply elem_of_cons in Hin as [?|?].
Qed.

Context {A : Type} (key : A → K) (val : A → V).

Lemma groups_fold (l : list A) :
  ∀ d, NoDup (map fst d) →
    let d' := fold_left (λ d x, dict_append (key x) (val x) d) l d in
    NoDup (map fst d')
    ∧ (∀ k, dgroup k d'
            = dgroup k d ++ map val (filter (λ x, key x = k) l))
    ∧ (∀ k, k ∈ map fst d' ↔ k ∈ map fst d ∨ k ∈ map key l).
Proof.
  induction l as [|x l IH]; intros d Hnd; simpl.
  - split; [done|]. split; [intros k; by rewrite app_nil_r|].
    intros k. rewrite elem_of_nil. tauto.
  - assert (Hnd' : NoDup (map fst (dict_append (key x) (val x) d))).
    { rewrite keys_append. case_decide; [done|].
      apply NoDup_app. split; [done|].
      split; [|apply NoDup_singleton].
      intros k Hk ->%list_elem_of_singleton. done. }
    destruct (IH _ Hnd') as (Hnd'' & Hgroup & Hkeys).
    split; [done|]. split.
    + intros k. rewrite Hgroup, filter_cons.
      destruct (decide (key x = k)) as [<-|Hne].
      * by rewrite dgroup_append_same, <- app_assoc.
      * by rewrite dgroup_append_other.
    + intros k. rewrite Hkeys, keys_append, elem_of_cons.
      case_decide as Hin; [|rewrite elem_of_app, list_elem_of_singleton].
      * split; [tauto|]. intros [?|[->|?]]; auto.
      * tauto.
Qed.

Lemma groups_entry (l : list A) (k : K) (vs : list V) :
  (k, vs) ∈ fold_left (λ d x, dict_append (key x) (val x) d) l []
  ↔ vs ≠ [] ∧ vs = map val (filter (λ x, key x = k) l).
Proof.
  destruct (groups_fold l [] (NoDup_nil_2 (A:=K))) as (Hnd & Hgroup & Hkeys).
  simpl in *. split.
  - intros Hin. pose proof (dgroup_elem _ _ _ Hnd Hin) as Hvs.
    rewrite Hgroup in Hvs. split; [|done].
    assert (Hk : k ∈ map fst (fold_left (λ d x, dict_append (key x) (val x) d)
                                l []))
      by (apply list_elem_of_fmap; by exists (k, vs)).
    apply Hkeys in Hk as [Hk|Hk]; [by apply elem_of_nil in Hk|].
    apply list_elem_of_fmap in Hk as (x & -> & Hx). subst vs.
    intros Hnil. apply fmap_nil_inv in Hnil.
    assert (Hx' : x ∈ filter (λ y, key y = key x) l)
      by (by apply list_elem_of_filter).
    rewrite Hnil in Hx'. by apply elem_of_nil in Hx'.
  - intros [Hne ->]. rewrite <- Hgroup. apply elem_dgroup, Hkeys. right.
    destruct (filter (λ x, key x = k) l) as [|x l'] eqn:Hf; [done|].
    assert (Hx : x ∈ filter (λ x, key x = k) l)
      by (rewrite Hf; apply list_elem_of_here).
    apply list_elem_of_filter in Hx as [<- Hx].
    apply list_elem_of_fmap. by exists x.
Qed.

End groups.

(** ** The edges of the graph, characterised *)

Lemma all_pairs_short {A : Type} (l : list A) : ¬ 1 < length l → all_pairs l = [].
Proof. destruct l as [|x [|y l]]; simpl; [done|done|lia]. Qed.

Lemma all_pairs_map_filter {A B : Type} (f : A → B) (P : A → Prop)
    `{∀ x, Decision (P x)} (l : list A) (x y : B) :
  (x, y) ∈ all_pairs (map f (filter P l))
  ↔ ∃ i j u v, i < j ∧ l !! i = Some u ∧ l !! j = Some v
               ∧ P u ∧ P v ∧ x = f u ∧ y = f v.
Proof.
  induction l as [|h l IH].
  - simpl. rewrite elem_of_nil. split; [done|].
    by intros (i & j & u & v & _ & Hi & _).
  - assert (Hshift :
      (∃ i j u v, i < j ∧ l !! i = Some u ∧ l !! j = Some v
                  ∧ P u ∧ P v ∧ x = f u ∧ y = f v)
      → ∃ i j u v, i < j ∧ (h :: l) !! i = Some u ∧ (h :: l) !! j = Some v
                   ∧ P u ∧ P v ∧ x = f u ∧ y = f v).
    { intros (i & j & u & v & Hlt & Hi & Hj & Hrest).
      exists (S i), (S j), u, v. split; [lia|done]. }
    rewrite filter_cons. destruct (decide (P h)) as [Hh|Hh].
    + cbn [map all_pairs]. rewrite elem_of_app, IH. split.
      * intros [Hin|Hin]; [|by apply Hshift].
        apply list_elem_of_fmap in Hin as (z & [= -> ->] & Hz).
        apply list_elem_of_fmap in Hz as (v & -> & Hv).
        apply list_elem_of_filter in Hv as [HPv Hv].
        apply list_elem_of_lookup in Hv as [j Hj].
        exists 0, (S j), h, v. split; [lia|done].
      * intros (i & j & u & v & Hlt & Hi & Hj & HPu & HPv & -> & ->).
        destruct j as [|j]; [lia|]. destruct i as [|i].
        -- left. injection Hi as ->. apply list_elem_of_fmap.
           exists (f v). split; [done|]. apply list_elem_of_fmap.
           exists v. split; [done|]. apply list_elem_of_filter.
           split; [done|]. by eapply list_elem_of_lookup_2.
        -- right. exists i, j, u, v. split; [lia|done].
    + rewrite IH. split; [apply Hshift|].
      intros (i & j & u & v & Hlt & Hi & Hj & HPu & HPv & -> & ->).
      destruct j as [|j]; [lia|]. destruct i as [|i].
      * injection Hi as ->. done.
      * exists i, j, u, v. split; [lia|done].
Qed.

Section edge_folds.
Context {X : Type} (f : CitationGraph → X → CitationGraph)
        (new : gset str → X → str * str → Prop).
Hypothesis f_nodes : ∀ g x, nodes (f g x) = nodes g.

Lemma nodes_fold_left (l : list X) g : nodes (fold_left f l g) = nodes g.
Proof.
  revert g. induction l as [|x l IH]; intros g; simpl; [done|].
  by rewrite IH.
Qed.

Lemma edges_fold_iff :
  (∀ g x e, e ∈ edges (f g x) ↔ e ∈ edges g ∨ new (nodes g) x e) →
  ∀ l g e, e ∈ edges (fold_left f l g)
           ↔ e ∈ edges g ∨ ∃ x, x ∈ l ∧ new (nodes g) x e.
Proof.
  intros Hf l. induction l as [|x l IH]; intros g e; simpl.
  - split; [by left|]. intros [?|(x & Hx & _)]; [done|].
    by apply elem_of_nil in Hx.
  - rewrite IH, Hf, f_nodes. split.
    + intros [[?|?]|(y & Hy & ?)]; [by left| |].
      * right. exists x. split; [apply list_elem_of_here|done].
      * right. exists y. split; [by apply list_elem_of_further|done].
    + intros [?|(y & [->|Hy]%elem_of_cons & ?)]; [by left; left| |].
      * left. by right.
      * right. by exists y.
Qed.

Lemma edges_fold_sound :
  (∀ g x e, e ∈ edges (f g x) → e ∈ edges g ∨ new (nodes g) x e) →
  ∀ l g e, e ∈ edges (fold_left f l g) →
           e ∈ edges g ∨ ∃ x, x ∈ l ∧ new (nodes g) x e.
Proof.
  intros Hf l. induction l as [|x l IH]; intros g e; simpl; [by left|].
  intros [He|(y & Hy & He)]%IH.
  - apply Hf in He as [?|?]; [by left|].
    right. exists x. split; [apply list_elem_of_here|done].
  - rewrite f_nodes in He. right. exists y.
    split; [by apply list_elem_of_further|done].
Qed.

Lemma adjacent_fold_complete :
  (∀ g x a b, adjacent g a b → adjacent (f g x) a b) →
  (∀ g x a b, new (nodes g) x (a, b) → adjacent (f g x) a b) →
  ∀ l g a b, (adjacent g a b ∨ ∃ x, x ∈ l ∧ new (nodes g) x (a, b)) →
             adjacent (fold_left f l g) a b.
Proof.
  intros Hmono Hnew l. induction l as [|x l IH]; intros g a b; simpl.
  - intros [?|(x & Hx & _)]; [done|]. by apply elem_of_nil in Hx.
  - intros [Hadj|(y & [->|Hy]%elem_of_cons & Hy')]; apply IH.
    + left. by apply Hmono.
    + left. by apply Hnew.
    + right. exists y. by rewrite f_nodes.
Qed.

End edge_folds.

Lemma edges_add_co_citation_pair g p e :
  e ∈ edges (add_co_citation_pair g p)
  ↔ e ∈ edges g ∨ (e = p ∧ e.1 ∈ nodes g ∧ e.2 ∈ nodes g).
Proof.
  destruct p as [a b]. unfold add_co_citation_pair.
  case_decide as Hn; simpl.
  - rewrite elem_of_app, list_elem_of_singleton. split; [|tauto].
    intros [?| ->]; [by left|]. right. by destruct Hn.
  - split; [by left|]. intros [?|(-> & ? & ?)]; [done|]. by destruct Hn.
Qed.

Lemma edges_add_co_citation_group g kv e :
  e ∈ edges (add_co_citation_group g kv)
  ↔ e ∈ edges g ∨ (e ∈ all_pairs kv.2 ∧ e.1 ∈ nodes g ∧ e.2 ∈ nodes g).
Proof.
  unfold add_co_citation_group. case_decide as Hlen.
  - rewrite (edges_fold_iff add_co_citation_pair
               (λ N p e, e = p ∧ e.1 ∈ N ∧ e.2 ∈ N)
               nodes_add_co_citation_pair edges_add_co_citation_pair).
    split; intros [?|Hnew]; try (by left); right.
    + by destruct Hnew as (p & Hp & -> & ?).
    + destruct Hnew as (Hp & ?). by exists e.
  - rewrite all_pairs_short by done. rewrite elem_of_nil. tauto.
Qed.

Lemma nodes_add_co_citation_group g kv :
  nodes (add_co_citation_group g kv) = nodes g.
Proof.
  unfold add_co_citation_group. case_decide; [|done].
  apply nodes_fold_pairs, nodes_add_co_citation_pair.
Qed.

Lemma nodes_add_coupling_group g kv :
  nodes (add_coupling_group g kv) = nodes g.
Proof.
  unfold add_coupling_group. case_decide; [|done].
  apply nodes_fold_pairs, nodes_add_coupling_pair.
Qed.

Lemma edges_add_co_citation_edges g cits e :
  e ∈ edges (add_co_citation_edges g cits)
  ↔ e ∈ edges g
    ∨ ∃ kv, kv ∈ context_citations cits
            ∧ e ∈ all_pairs kv.2 ∧ e.1 ∈ nodes g ∧ e.2 ∈ nodes g.
Proof.
  unfold add_co_citation_edges.
  apply (edges_fold_iff add_co_citation_group
           (λ N kv e, e ∈ all_pairs kv.2 ∧ e.1 ∈ N ∧ e.2 ∈ N)
           nodes_add_co_citation_group edges_add_co_citation_group).
Qed.

Lemma edges_add_coupling_pair g p e :
  e ∈ edges (add_coupling_pair g p) →
  e ∈ edges g ∨ (e = p ∧ e.1 ∈ nodes g ∧ e.2 ∈ nodes g).
Proof.
  destruct p as [a b]. unfold add_coupling_pair.
  case_decide as Hn; [|by left]. case_decide; [|by left]. simpl.
  rewrite elem_of_app, list_elem_of_singleton.
  intros [?| ->]; [by left|]. right. by destruct Hn.
Qed.

Lemma adjacent_add_coupling_pair g p a b :
  adjacent g a b → adjacent (add_coupling_pair g p) a b.
Proof.
  destruct p as [x y]. unfold add_coupling_pair, adjacent.
  repeat case_decide; simpl; rewrite ?elem_of_app; tauto.
Qed.

Lemma adjacent_add_coupling_pair_new g p a b :
  (a, b) = p ∧ a ∈ nodes g ∧ b ∈ nodes g →
  adjacent (add_coupling_pair g p) a b.
Proof.
  intros (<- & Ha & Hb). unfold add_coupling_pair, adjacent.
  rewrite decide_True by done. case_decide as He; simpl.
  - left. apply elem_of_app. right. apply list_elem_of_here.
  - destruct (decide ((a, b) ∈ edges g)); [by left|].
    destruct (decide ((b, a) ∈ edges g)); [by right|]. by destruct He.
Qed.

Lemma edges_add_coupling_group g kv e :
  e ∈ edges (add_coupling_group g kv) →
  e ∈ edges g ∨ (e ∈ all_pairs kv.2 ∧ e.1 ∈ nodes g ∧ e.2 ∈ nodes g).
Proof.
  unfold add_coupling_group. case_decide as Hlen; [|by left].
  intros He.
  apply (edges_fold_sound add_coupling_pair
           (λ N p e, e = p ∧ e.1 ∈ N ∧ e.2 ∈ N)
           nodes_add_coupling_pair edges_add_coupling_pair) in He.
  destruct He as [?|(p & Hp & -> & ?)]; [by left|by right].
Qed.

Lemma adjacent_add_coupling_group g kv a b :
  adjacent g a b → adjacent (add_coupling_group g kv) a b.
Proof.
  intros Hadj. unfold add_coupling_group. case_decide; [|done].
  apply (fold_left_preserves add_coupling_pair (λ g, adjacent g a b));
    [|done].
  intros g' p. apply adjacent_add_coupling_pair.
Qed.

Lemma adjacent_add_coupling_group_new g kv a b :
  (a, b) ∈ all_pairs kv.2 ∧ a ∈ nodes g ∧ b ∈ nodes g →
  adjacent (add_coupling_group g kv) a b.
Proof.
  intros (Hp & Ha & Hb). unfold add_coupling_group.
  case_decide as Hlen;
    [|rewrite all_pairs_short in Hp by done; by apply elem_of_nil in Hp].
  apply (adjacent_fold_complete add_coupling_pair
           (λ N p e, e = p ∧ e.1 ∈ N ∧ e.2 ∈ N) nodes_add_coupling_pair).
  - intros g' p. apply adjacent_add_coupling_pair.
  - intros g' p a' b' (Heq & ? & ?). by apply adjacent_add_coupling_pair_new.
  - right. by exists (a, b).
Qed.

Lemma edges_add_bibliographic_coupling_edges g refs e :
  e ∈ edges (add_bibliographic_coupling_edges g refs) →
  e ∈ edges g
  ∨ ∃ kv, kv ∈ venue_refs refs
          ∧ e ∈ all_pairs kv.2 ∧ e.1 ∈ nodes g ∧ e.2 ∈ nodes g.
Proof.
  unfold add_bibliographic_coupling_edges.
  apply (edges_fold_sound add_coupling_group
           (λ N kv e, e ∈ all_pairs kv.2 ∧ e.1 ∈ N ∧ e.2 ∈ N)
           nodes_add_coupling_group edges_add_coupling_group).
Qed.

Lemma adjacent_add_bibliographic_coupling_edges g refs a b :
  (adjacent g a b
   ∨ ∃ kv, kv ∈ venue_refs refs
           ∧ (a, b) ∈ all_pairs kv.2 ∧ a ∈ nodes g ∧ b ∈ nodes g) →
  adjacent (add_bibliographic_coupling_edges g refs) a b.
Proof.
  unfold add_bibliographic_coupling_edges.
  apply (adjacent_fold_complete add_coupling_group
           (λ N kv e, e ∈ all_pairs kv.2 ∧ e.1 ∈ N ∧ e.2 ∈ N)
           nodes_add_coupling_group).
  - intros g' kv. apply adjacent_add_coupling_group.
  - intros g' kv a' b'. apply adjacent_add_coupling_group_new.
Qed.

Lemma edges_mono_coupling g refs e :
  e ∈ edges g → e ∈ edges (add_bibliographic_coupling_edges g refs).
Proof.
  unfold add_bibliographic_coupling_edges.
  apply (fold_left_preserves add_coupling_group (λ g, e ∈ edges g)).
  intros g' kv He. unfold add_coupling_group. case_decide; [|done].
  apply (fold_left_preserves add_coupling_pair (λ g, e ∈ edges g));
    [|done].
  intros g'' [a b] He'.
  unfold add_coupling_pair. repeat case_decide; simpl; try done.
  apply elem_of_app. by left.
Qed.

Lemma edges_fold_add_node (l : list (str * Reference)) g :
  edges (fold_left (λ g kv, add_node g kv.1 (Some (attributes_of kv.2))) l g)
  = edges g.
Proof.
  revert g. induction l as [|kv l IH]; intros g; simpl; [done|].
  by rewrite IH.
Qed.

Lemma venue_refs_from_fold refs :
  ∀ i d,
    venue_refs_from i refs d
    = fold_left (λ d kv, dict_append (venue_key kv.2) kv.1 d)
        (filter (λ kv : str * Reference, venue_key kv.2 ≠ [])
                (imap (λ j ref, (str_of_nat (i + j + 1), ref)) refs)) d.
Proof.
  induction refs as [|ref refs IH]; intros i d; [done|].
  rewrite imap_cons_shift, filter_cons. cbn [venue_refs_from].
  rewrite IH. rewrite Nat.add_0_r.
  rewrite (imap_ext (λ j ref0, (str_of_nat (S i + j + 1), ref0))
             (λ j ref0, (str_of_nat (i + S j + 1), ref0)))
    by (intros j x _; do 2 f_equal; lia).
  cbn [snd fst].
  destruct (venue_key ref) as [|c v] eqn:Hv; cbn [nonempty]; case_decide;
    try done; cbn [fold_left snd fst]; by rewrite ?Hv.
Qed.

Lemma venue_refs_entry refs (k : str) (ids : list str) :
  (k, ids) ∈ venue_refs refs
  ↔ ids ≠ []
    ∧ ids = map fst (filter (λ kv : str * Reference,
                               venue_key kv.2 = k ∧ venue_key kv.2 ≠ [])
                            (ref_map refs)).
Proof.
  unfold venue_refs. rewrite venue_refs_from_fold.
  rewrite (groups_entry (λ kv : str * Reference, venue_key kv.2) fst).
  by rewrite list_filter_filter.
Qed.

Lemma context_citations_entry cits (k : str) (ids : list str) :
  (k, ids) ∈ context_citations cits
  ↔ ids ≠ []
    ∧ ids = map reference_id (filter (λ c, context_key c = k) cits).
Proof.
  unfold context_citations. apply (groups_entry context_key reference_id).
Qed.

Lemma map_filter_nonempty {A B : Type} (f : A → B) (P : A → Prop)
    `{∀ x, Decision (P x)} (l : list A) (x : A) :
  x ∈ l → P x → map f (filter P l) ≠ [].
Proof.
  intros Hx HP Hnil. apply fmap_nil_inv in Hnil.
  assert (Hin : x ∈ filter P l) by (by apply list_elem_of_filter).
  rewrite Hnil in Hin. by apply elem_of_nil in Hin.
Qed.

Lemma build_graph_g0 cits refs :
  ∃ g0, build_graph cits refs
        = add_bibliographic_coupling_edges (add_co_citation_edges g0 cits) refs
        ∧ nodes g0 = nodes (build_graph cits refs)
        ∧ edges g0 = [].
Proof.
  eexists. split; [reflexivity|]. split.
  - unfold build_graph.
    by rewrite nodes_add_bibliographic_coupling_edges,
      nodes_add_co_citation_edges.
  - by rewrite edges_fold_add_node.
Qed.

Lemma build_graph_edge_origin cits refs (a b : str) :
  (a, b) ∈ edges (build_graph cits refs) →
  (∃ i j c1 c2, i < j ∧ cits !! i = Some c1 ∧ cits !! j = Some c2
                ∧ context_key c1 = context_key c2
                ∧ a = reference_id c1 ∧ b = reference_id c2)
  ∨ (∃ i j r1 r2, i < j ∧ refs !! i = Some r1 ∧ refs !! j = Some r2
                  ∧ venue_key r1 = venue_key r2 ∧ venue_key r1 ≠ []
                  ∧ a = str_of_nat (i + 1) ∧ b = str_of_nat (j + 1)).
Proof.
  destruct (build_graph_g0 cits refs) as (g0 & -> & _ & He0).
  intros He. apply edges_add_bibliographic_coupling_edges in He.
  destruct He as [He|([k ids] & Hkv & Hp & _)].
  - left. apply edges_add_co_citation_edges in He.
    destruct He as [He|([k ids] & Hkv & Hp & _)];
      [rewrite He0 in He; by apply elem_of_nil in He|].
    apply context_citations_entry in Hkv as [_ ->]. simpl in Hp.
    apply all_pairs_map_filter in Hp
      as (i & j & c1 & c2 & Hlt & Hi & Hj & H1 & H2 & -> & ->).
    exists i, j, c1, c2. repeat split; try done. congruence.
  - right. apply venue_refs_entry in Hkv as [_ ->]. simpl in Hp.
    apply all_pairs_map_filter in Hp
      as (i & j & [k1 r1] & [k2 r2] & Hlt & Hi & Hj & H1 & H2 & -> & ->).
    rewrite ref_map_lookup in Hi, Hj.
    destruct (refs !! i) as [r1'|] eqn:Hri; simplify_eq/=.
    destruct (refs !! j) as [r2'|] eqn:Hrj; simplify_eq/=.
    exists i, j, r1, r2. destruct H1 as [H1 H1'], H2 as [H2 _].
    repeat split; try done. congruence.
Qed.

(** X20: the edges of the graph, from the inputs.  An edge joins either
    the ids of two citations filed under the same context, the earlier
    one first, or two references of the same non-empty lower-cased venue,
    the earlier one first.  Conversely two citations of one context whose
    ids are nodes get their edge, and two references of one venue are
    joined by an edge. *)
Theorem X20_build_graph_edges cits refs (a b : str) :
  let g := build_graph cits refs in
  ((a, b) ∈ edges g →
     (∃ i j c1 c2, i < j ∧ cits !! i = Some c1 ∧ cits !! j = Some c2
                   ∧ context_key c1 = context_key c2
                   ∧ a = reference_id c1 ∧ b = reference_id c2)
     ∨ (∃ i j r1 r2, i < j ∧ refs !! i = Some r1 ∧ refs !! j = Some r2
                     ∧ venue_key r1 = venue_key r2 ∧ venue_key r1 ≠ []
                     ∧ a = str_of_nat (i + 1) ∧ b = str_of_nat (j + 1)))
  ∧ (∀ i j c1 c2, i < j → cits !! i = Some c1 → cits !! j = Some c2 →
       context_key c1 = context_key c2 →
       reference_id c1 ∈ nodes g → reference_id c2 ∈ nodes g →
       (reference_id c1, reference_id c2) ∈ edges g)
  ∧ (∀ i j r1 r2, i < j → refs !! i = Some r1 → refs !! j = Some r2 →
       venue_key r1 = venue_key r2 → venue_key r1 ≠ [] →
       adjacent g (str_of_nat (i + 1)) (str_of_nat (j + 1))).
Proof.
  cbv zeta. split; [apply build_graph_edge_origin|].
  pose proof (nodes_build_graph cits refs) as Hn.
  destruct (build_graph_g0 cits refs) as (g0 & Hg & Hn0 & He0).
  rewrite Hn in Hn0. rewrite Hn. rewrite Hg. clear Hg Hn. split.
  - intros i j c1 c2 Hlt Hi Hj Hkey H1 H2.
    apply edges_mono_coupling, edges_add_co_citation_edges. right.
    exists (context_key c1,
            map reference_id (filter (λ c, context_key c = context_key c1)
                                     cits)).
    split; [|split; [|by rewrite Hn0]].
    + apply context_citations_entry. split; [|done].
      apply (map_filter_nonempty _ _ _ c1); [|done].
      by eapply list_elem_of_lookup_2.
    + apply all_pairs_map_filter. by exists i, j, c1, c2.
  - intros i j r1 r2 Hlt Hi Hj Hkey Hne.
    apply adjacent_add_bibliographic_coupling_edges. right.
    exists (venue_key r1,
            map fst (filter (λ kv : str * Reference,
                               venue_key kv.2 = venue_key r1
                               ∧ venue_key kv.2 ≠ [])
                            (ref_map refs))).
    rewrite nodes_add_co_citation_edges, Hn0.
    split; [|split; [|split]].
    + apply venue_refs_entry. split; [|done].
      apply (map_filter_nonempty _ _ _ (str_of_nat (i + 1), r1)); [|done].
      apply list_elem_of_lookup. exists i. by rewrite ref_map_lookup, Hi.
    + apply all_pairs_map_filter.
      exists i, j, (str_of_nat (i + 1), r1), (str_of_nat (j + 1), r2).
      rewrite !ref_map_lookup, Hi, Hj. simpl.
      repeat split; try done; congruence.
    + apply elem_of_list_to_set, list_elem_of_fmap. exists (i + 1).
      split; [done|]. apply elem_of_seq. apply lookup_lt_Some in Hi. lia.
    + apply elem_of_list_to_set, list_elem_of_fmap. exists (j + 1).
      split; [done|]. apply elem_of_seq. apply lookup_lt_Some in Hj. lia.
Qed.

(** X21: a loop, an edge from a reference to itself, comes from
    co-citation only: the reference is cited twice under one context.
    Two references of one venue are never the same node. *)
Theorem X21_loops cits refs (a : str) :
  (a, a) ∈ edges (build_graph cits refs) →
  ∃ i j c1 c2, i < j ∧ cits !! i = Some c1 ∧ cits !! j = Some c2
               ∧ context_key c1 = context_key c2
               ∧ reference_id c1 = a ∧ reference_id c2 = a.
Proof.
  intros He. apply build_graph_edge_origin in He
    as [(i & j & c1 & c2 & Hlt & Hi & Hj & Hkey & -> & Heq)
       |(i & j & r1 & r2 & Hlt & _ & _ & _ & _ & -> & Heq)].
  - by exists i, j, c1, c2.
  - apply str_of_nat_inj in Heq. lia.
Qed.

Lemma X21_witness :
  let refs := [reference "Smith" 2020 "Journal A"] in
  match extract_citations (lit "Foo [1] bar [1].") refs with
  | Ok cits =>
      (lit "1", lit "1") ∈ edges (build_graph cits refs)
      ∧ ∃ i j c1 c2, i < j ∧ cits !! i = Some c1 ∧ cits !! j = Some c2
                     ∧ context_key c1 = context_key c2
                     ∧ reference_id c1 = lit "1" ∧ reference_id c2 = lit "1"
  | Raise _ => False
  end.
Proof.
  cbv zeta. destruct (extract_citations _ _) as [cits|e] eqn:Heq.
  - assert (Hin : (lit "1", lit "1")
                  ∈ edges (build_graph cits
                             [reference "Smith" 2020 "Journal A"])).
    { vm_compute in Heq. injection Heq as <-.
      apply (bool_decide_unpack _). vm_compute. exact I. }
    split; [exact Hin|]. exact (X21_loops _ _ _ Hin).
  - vm_compute in Heq. discriminate Heq.
Defined.

(** ** Self-citations, counted *)

Lemma last_name_Ok (name w : str) : last_name name = Ok w ↔ last_word name = Some w.
Proof.
  unfold last_name, last_word. destruct (last _); split; congruence.
Qed.

Lemma normalized_names (names ws : list str) (w : str) :
  mapM last_name names = Ok ws →
  w ∈ (list_to_set ws : gset str)
  ↔ Exists (λ nm, last_word nm = Some w) names.
Proof.
  intros Hws%mapM_Ok. rewrite elem_of_list_to_set.
  induction Hws as [|nm w' names ws Hnm _ IH].
  - rewrite elem_of_nil, Exists_nil. tauto.
  - apply last_name_Ok in Hnm. rewrite elem_of_cons, Exists_cons, IH.
    split; (intros [?|?]; [left|by right]); congruence.
Qed.

Lemma has_self_author_spec (S : gset str) (authors : list str) (hit : bool) :
  has_self_author S authors = Ok hit →
  hit = true ↔ Exists (λ a, ∃ w, last_word a = Some w ∧ w ∈ S) authors.
Proof.
  induction authors as [|a authors IH]; simpl.
  - intros [= <-]. rewrite Exists_nil. split; [done|tauto].
  - destruct (last_name a) as [w|e] eqn:Ha; [|done].
    cbn [mbind outcome_bind]. apply last_name_Ok in Ha.
    rewrite Exists_cons. case_decide as Hw.
    + intros [= <-]. split; [|done]. intros _. left. by exists w.
    + intros Hrest. rewrite (IH Hrest). split; [by right|].
      intros [(w' & Hw' & Hin)|?]; [|done]. congruence.
Qed.

Lemma count_self_loop_spec (S : gset str) (Q : Reference → Prop)
    `{∀ ref, Decision (Q ref)} (refs : list Reference) :
  (∀ ref, Q ref ↔ Exists (λ a, ∃ w, last_word a = Some w ∧ w ∈ S)
                         (default [] (ref_authors ref))) →
  ∀ k n, count_self_loop S refs k = Ok n →
         n = k + length (filter Q refs).
Proof.
  intros HQ. induction refs as [|ref refs IH]; intros k n; simpl.
  - intros [= <-]. lia.
  - destruct (has_self_author _ _) as [hit|e] eqn:Hhit; [|done].
    cbn [mbind outcome_bind]. intros Hn%IH.
    apply has_self_author_spec in Hhit. rewrite <- HQ in Hhit.
    rewrite filter_cons. destruct hit.
    + rewrite decide_True by (by apply Hhit). simpl. lia.
    + rewrite decide_False; [done|]. intros HQr. by apply Hhit in HQr.
Qed.

(** X22: when [_count_self_citations] returns, its count is the number
    of references that have an author whose last word, in lower case, is
    the last word of one of the manuscript's author names; the citations
    play no part in it. *)
Theorem X22_count_self_citations cits refs names n :
  count_self_citations cits refs names = Ok n →
  n = length (filter (shares_last_name names) refs).
Proof.
  unfold count_self_citations. destruct names as [|nm names].
  - intros [= <-]. symmetry. apply length_zero_iff_nil, filter_none.
    intros ref _ Hex. unfold shares_last_name in Hex.
    apply Exists_exists in Hex as (a & _ & _ & Hex).
    by apply Exists_nil in Hex.
  - destruct (mapM last_name (nm :: names)) as [ws|e] eqn:Hws; [|done].
    cbn [mbind outcome_bind]. intros Hn.
    apply (count_self_loop_spec _ (shares_last_name (nm :: names))) in Hn;
      [done|].
    intros ref. unfold shares_last_name. apply Exists_proper; [|done].
    intros a. split.
    + intros [[w Hw] Hex]. exists w. split; [done|].
      apply (normalized_names _ _ _ Hws). by rewrite <- Hw.
    + intros (w & Hw & Hin). split; [by exists w|].
      apply (normalized_names _ _ _ Hws) in Hin. by rewrite Hw.
Qed.

Lemma X22_witness :
  let refs := [reference "Ann B. Smith" 2020 "J"; reference "Jones" 2021 "J";
               reference "j. SMITH" 2019 "K"] in
  count_self_citations [] refs [lit "John Smith"] = Ok 2
  ∧ length (filter (shares_last_name [lit "John Smith"]) refs) = 2.
Proof.
  cbv zeta.
  assert (Hn : count_self_citations []
                 [reference "Ann B. Smith" 2020 "J"; reference "Jones" 2021 "J";
                  reference "j. SMITH" 2019 "K"] [lit "John Smith"] = Ok 2)
    by (vm_compute; reflexivity).
  split; [exact Hn|]. symmetry. exact (X22_count_self_citations _ _ _ _ Hn).
Defined.

(** ** What a citation records *)

Lemma citations_of_match_record sentences i s m cs :
  citations_of_match sentences i s m = Ok cs →
  Forall (λ c, position c = m_start m ∧ sentence c = s
               ∧ context c = extract_context sentences i 2
               ∧ cit_type c = classify_citation s) cs.
Proof.
  unfold citations_of_match. destruct (group1 m) as [g|e]; [|done].
  cbn [mbind outcome_bind].
  destruct (parse_reference_ids g) as [ids|e]; [|done].
  cbn [mbind outcome_bind]. intros [= <-].
  apply List.Forall_forall. intros c Hc.
  apply List.in_map_iff in Hc as (id & <- & _). done.
Qed.

Lemma scan_inside (r : regex) (s : str) :
  (∀ pos, match_at r pos [] = None) →
  ∀ pos skip m, m ∈ scan r pos skip s → pos ≤ m_start m < pos + length s.
Proof.
  intros Hempty. induction s as [|c s IH]; intros pos skip m; simpl.
  - destruct skip; [|by intros ?%elem_of_nil].
    rewrite Hempty. by intros ?%elem_of_nil.
  - destruct skip as [|skip].
    + destruct (match_at r pos (c :: s)) as [m'|] eqn:Hm.
      * intros [->|Hin]%elem_of_cons.
        -- apply match_at_start in Hm. lia.
        -- apply IH in Hin. lia.
      * intros Hin%IH. lia.
    + intros Hin%IH. lia.
Qed.

Lemma patterns_consume (pattern : regex) :
  pattern ∈ CITATION_PATTERNS → ∀ pos, match_at pattern pos [] = None.
Proof.
  unfold CITATION_PATTERNS. rewrite !elem_of_cons, elem_of_nil.
  intros [->|[->|[->|[->|[]]]]] pos; reflexivity.
Qed.

Lemma is_prefix_app (sub rest : str) : is_prefix sub (sub ++ rest) = true.
Proof.
  induction sub as [|c sub IH]; simpl; [by destruct rest|].
  by rewrite bool_decide_eq_true_2, IH.
Qed.

Lemma contains_app (sub pre rest : str) :
  contains sub (pre ++ sub ++ rest) = true.
Proof.
  induction pre as [|c pre IH].
  - assert (Hc : ∀ s, is_prefix sub s = true → contains sub s = true)
      by (intros [|x s] Hs; simpl; by rewrite Hs).
    apply Hc. apply (is_prefix_app sub rest).
  - simpl. rewrite IH. apply orb_true_r.
Qed.

Lemma join_elem (sep : str) (l : list str) (k : nat) (s : str) :
  l !! k = Some s → ∃ pre rest, join sep l = pre ++ s ++ rest.
Proof.
  revert k. induction l as [|x l IH]; intros k Hk; [done|].
  destruct k as [|k]; simpl in Hk.
  - injection Hk as ->. exists []. destruct l as [|y l]; simpl.
    + exists []. by rewrite app_nil_r.
    + by eexists.
  - destruct (IH k Hk) as (pre & rest & Hj).
    destruct l as [|y l]; [done|].
    change (join sep (x :: y :: l)) with (x ++ sep ++ join sep (y :: l)).
    rewrite Hj.
    exists (x ++ sep ++ pre), rest. by rewrite <- !app_assoc.
Qed.

Lemma extract_context_contains (sentences : list str) (i : nat) (s : str) :
  sentences !! i = Some s →
  contains s (extract_context sentences i 2) = true.
Proof.
  intros Hi. unfold extract_context.
  pose proof (lookup_lt_Some _ _ _ Hi) as Hlt.
  destruct (join_elem (lit " ")
              (take (Nat.min (length sentences) (i + 2 + 1) - (i - 2))
                    (drop (i - 2) sentences)) (i - (i - 2)) s)
    as (pre & rest & ->); [|apply contains_app].
  rewrite lookup_take_lt by lia. rewrite lookup_drop.
  by replace (i - 2 + (i - (i - 2))) with i by lia.
Qed.

(** X3: [extract_citations] returns for every text without a marker of
    the range pattern, the only one whose ids are read as numbers; and
    every citation that it returns records a sentence of the text, the
    offset of a marker inside that sentence, the classification of the
    sentence, and a context made of the sentences around it, which
    contains the sentence itself. *)
Theorem X3_extract_citations (text : str) (references : list Reference) :
  (range_markers text = [] →
   ∃ cits, extract_citations text references = Ok cits)
  ∧ ∀ cits, extract_citations text references = Ok cits →
      Forall (λ c, ∃ i,
                split_sentences text !! i = Some (sentence c)
                ∧ position c < length (sentence c)
                ∧ context c = extract_context (split_sentences text) i 2
                ∧ contains (sentence c) (context c) = true
                ∧ cit_type c = classify_citation (sentence c)) cits.
Proof.
  split; [apply extract_citations_no_range|].
  intros cits Hcits. unfold extract_citations in Hcits.
  apply fmap_Ok in Hcits as (per_pattern & Hpp & ->).
  apply Forall_concat.
  apply (mapM_Ok_Forall _ _ _ _ Hpp). intros pattern cs Hpat Hcs.
  unfold citations_of_pattern in Hcs.
  apply fmap_Ok in Hcs as (per_sentence & Hps & ->).
  apply Forall_concat.
  apply (mapM_Ok_Forall _ _ _ _ Hps). intros [i s] cs His Hcs.
  apply list_elem_of_lookup in His as [k Hk].
  rewrite list_lookup_imap in Hk.
  destruct (split_sentences text !! k) as [s'|] eqn:Hsk; simplify_eq/=.
  unfold citations_of_sentence in Hcs.
  apply fmap_Ok in Hcs as (per_match & Hpm & ->).
  apply Forall_concat.
  apply (mapM_Ok_Forall _ _ _ _ Hpm). intros m cs Hm Hcs.
  apply citations_of_match_record in Hcs.
  eapply Forall_impl; [exact Hcs|]. simpl.
  intros c (Hpos & Hsen & Hctx & Hty). exists i. rewrite Hsen.
  split; [done|]. split.
  - rewrite Hpos.
    apply (scan_inside pattern s (patterns_consume pattern Hpat)) in Hm. lia.
  - split; [done|]. split; [|done].
    rewrite Hctx. by apply extract_context_contains.
Qed.

Lemma X3_witness :
  range_markers (lit "As shown in [1] and (Smith et al., 2020). See [2,3].")
  = []
  ∧ ∃ cits,
      extract_citations
        (lit "As shown in [1] and (Smith et al., 2020). See [2,3].") []
      = Ok cits.
Proof.
  assert (Hnone : range_markers
                    (lit "As shown in [1] and (Smith et al., 2020). See [2,3].")
                  = []) by (vm_compute; reflexivity).
  split; [exact Hnone|].
  exact (proj1 (X3_extract_citations _ []) Hnone).
Defined.

(** ** The recommendation on recent references *)

Lemma recent_years_const clk (y : Z) :
  (∀ n, year (clk n) = y) →
  ∀ keys t, (recent_years clk t keys).1 = filter (λ k, (y - 3 ≤ k)%Z) keys.
Proof.
  intros Hy keys. induction keys as [|k keys IH]; intros t; [done|].
  cbn [recent_years]. specialize (IH (S t)).
  destruct (recent_years clk (S t) keys) as [ys t1]. simpl in *.
  rewrite Hy, filter_cons, IH. by case_decide.
Qed.

Lemma recency_warning_in clk (y : Z) t rate patterns diversity dist :
  (∀ n, year (clk n) = y) →
  recency_warning
    ∈ (generate_recommendations clk t rate patterns diversity dist).1
  ↔ dist ≠ [] ∧ Forall (λ k, (k < y - 3)%Z) (map fst dist).
Proof.
  intros Hy. unfold generate_recommendations.
  assert (Hr3 : ∃ t3,
    match dist with
    | [] => ([], t)
    | _ => let '(recent, t') := recent_years clk t (map fst dist) in
           (match recent with
            | [] => [recency_warning]
            | _ => []
            end, t')
    end
    = (if decide (dist ≠ [] ∧ Forall (λ k, (k < y - 3)%Z) (map fst dist))
       then [recency_warning] else [], t3)).
  { destruct dist as [|kv dist].
    - exists t. rewrite decide_False; [done|]. by intros [? _].
    - set (keys := map fst (kv :: dist)).
      pose proof (recent_years_const clk y Hy keys t) as Hf.
      destruct (recent_years clk t keys) as [recent t3].
      exists t3. cbn [fst] in Hf. subst recent. clearbody keys.
      destruct (filter _ keys) as [|k ks] eqn:Hfilter.
      + rewrite decide_True; [done|]. split; [done|].
        apply Forall_forall. intros k Hk.
        destruct (decide (y - 3 ≤ k)%Z) as [Hle|]; [|lia].
        assert (Hin : k ∈ filter (λ k, (y - 3 ≤ k)%Z) keys)
          by (by apply list_elem_of_filter).
        rewrite Hfilter in Hin. by apply elem_of_nil in Hin.
      + rewrite decide_False; [done|]. intros [_ Hall].
        assert (Hin : k ∈ filter (λ k, (y - 3 ≤ k)%Z) keys)
          by (rewrite Hfilter; apply list_elem_of_here).
        apply list_elem_of_filter in Hin as [Hle Hin].
        rewrite Forall_forall in Hall. apply Hall in Hin. lia. }
  destruct Hr3 as [t3 Hr3]. unfold recency_warning in Hr3 at 1.
  rewrite Hr3. simpl. rewrite !elem_of_app. split.
  - intros [Hin|[Hin|[Hin|Hin]]].
    + destruct (Qlt_le_dec _ _); [|by apply elem_of_nil in Hin].
      apply list_elem_of_singleton in Hin. discriminate Hin.
    + destruct (Qlt_le_dec _ _); [|by apply elem_of_nil in Hin].
      apply list_elem_of_singleton in Hin. discriminate Hin.
    + case_decide; [done|]. by apply elem_of_nil in Hin.
    + destruct (above (6 # 10) patterns) as [|p ps];
        [by apply elem_of_nil in Hin|].
      apply list_elem_of_singleton in Hin. discriminate Hin.
  - intros Hcond. right; right; left. rewrite decide_True by done.
    apply list_elem_of_here.
Qed.

Lemma temporal_keys refs (k : Z) :
  k ∈ map fst (analyze_temporal_distribution refs) ↔ k ∈ reference_years refs.
Proof.
  rewrite analyze_temporal_distribution_fold, keys_fold, elem_of_nil. tauto.
Qed.

Lemma temporal_distribution_old refs (y : Z) :
  analyze_temporal_distribution refs ≠ []
  ∧ Forall (λ k, (k < y - 3)%Z) (map fst (analyze_temporal_distribution refs))
  ↔ reference_years refs ≠ []
    ∧ Forall (λ k, (k < y - 3)%Z) (reference_years refs).
Proof.
  rewrite !Forall_forall. setoid_rewrite temporal_keys.
  assert (analyze_temporal_distribution refs ≠ [] ↔ reference_years refs ≠ [])
    as ->; [|done].
  split; intros Hne Hnil; apply Hne.
  - destruct (analyze_temporal_distribution refs) as [|[k n] d] eqn:Hd;
      [done|].
    assert (Hk : k ∈ reference_years refs)
      by (apply temporal_keys; rewrite Hd; apply list_elem_of_here).
    rewrite Hnil in Hk. by apply elem_of_nil in Hk.
  - destruct (reference_years refs) as [|k l] eqn:Hd; [done|].
    assert (Hk : k ∈ map fst (analyze_temporal_distribution refs))
      by (apply temporal_keys; rewrite Hd; apply list_elem_of_here).
    rewrite Hnil in Hk. by apply elem_of_nil in Hk.
Qed.

Lemma temporal_pattern_old `{SetOrder} clk t cits refs p :
  (detect_temporal_anomalies clk t (build_graph cits refs)).1 = Some p →
  reference_years refs ≠ []
  ∧ Forall (λ k, (k < year (clk t) - 3)%Z) (reference_years refs).
Proof.
  pose proof (node_years_build_graph cits refs) as Hperm.
  unfold detect_temporal_anomalies. case_decide as Hlen; [done|]. simpl.
  case_decide as Hrecent; [|done]. intros _.
  rewrite (Permutation_length Hperm) in Hlen.
  split; [intros Hnil; rewrite Hnil in Hlen; simpl in Hlen; lia|].
  apply length_zero_iff_nil in Hrecent. rewrite <- Hperm.
  apply Forall_forall. intros k Hk.
  destruct (decide (year (clk t) - 3 ≤ k)%Z) as [Hle|]; [|lia].
  assert (Hin : k ∈ filter (λ y, (year (clk t) - 3 ≤ y)%Z)
                      (node_years (build_graph cits refs)))
    by (by apply list_elem_of_filter).
  rewrite Hrecent in Hin. by apply elem_of_nil in Hin.
Qed.

(** X23: under a clock that stays in the year [y], a result recommends to
    include more recent references exactly when some reference has a year
    other than 0 and all such years are before [y - 3]; in particular it
    does so whenever it lists a temporal anomaly. *)
Theorem X23_recency_warning `{SetOrder} clk (y : Z) t text refs names r t' :
  (∀ n, year (clk n) = y) →
  analyze clk t text refs names = Ok (r, t') →
  (recency_warning ∈ recommendations r
   ↔ reference_years refs ≠ []
     ∧ Forall (λ k, (k < y - 3)%Z) (reference_years refs))
  ∧ (∀ p, p ∈ suspicious_patterns r → ptype p = TemporalAnomaly →
          recency_warning ∈ recommendations r).
Proof.
  intros Hy Hok. apply analyze_fields in Hok as (cits & n & _ & _ & Hr).
  destruct Hr as (_ & _ & Hsus & _ & _ & _ & _ & Hrec).
  assert (Hiff : recency_warning ∈ recommendations r
                 ↔ reference_years refs ≠ []
                   ∧ Forall (λ k, (k < y - 3)%Z) (reference_years refs))
    by (by rewrite Hrec, (recency_warning_in clk y), temporal_distribution_old).
  split; [done|]. intros p Hp Hty. apply Hiff.
  rewrite Hsus, above_split in Hp by lra.
  rewrite !elem_of_app in Hp.
  destruct Hp as [Hp|[Hp|Hp]]; apply elem_of_above_option in Hp as [Hp _].
  - apply detect_clustering_ptype in Hp. congruence.
  - apply detect_concentration_ptype in Hp. congruence.
  - apply temporal_pattern_old in Hp. by rewrite Hy in Hp.
Qed.

Lemma X23_witness :
  let refs := [reference "Smith" 2001 "Journal A";
               reference "Jones" 2002 "Journal A";
               reference "Brown" 2003 "Journal A";
               reference "Green" 2004 "Journal B";
               reference "White" 2005 "Journal C"] in
  match analyze (clock_in 2026) 0 (lit "See [2].") refs None with
  | Ok (r, _) =>
      recency_warning ∈ recommendations r
      ∧ ∃ p, p ∈ suspicious_patterns r ∧ ptype p = TemporalAnomaly
  | Raise _ => False
  end.
Proof.
  cbv zeta. destruct (analyze _ _ _ _ _) as [[r t']|e] eqn:Heq.
  - assert (Hy : ∀ n, year (clock_in 2026 n) = 2026%Z) by done.
    assert (Hp : ∃ p, p ∈ suspicious_patterns r ∧ ptype p = TemporalAnomaly).
    { pose proof Heq as Hr. vm_compute in Hr. injection Hr as <- _.
      eexists. split.
      - cbn [suspicious_patterns]. do 2 apply list_elem_of_further.
        apply list_elem_of_here.
      - reflexivity. }
    split; [|exact Hp]. destruct Hp as (p & Hp & Hty).
    exact (proj2 (X23_recency_warning _ _ _ _ _ _ _ _ Hy Heq) p Hp Hty).
  - vm_compute in Heq. discriminate Heq.
Defined.
